(** * laravel-micro.js: the service container and the pipeline kernel

    A shallow embedding of [src/Container.js] (class [Container]) and of the
    pipeline executor described by the specification, followed by the
    properties established about them.

    Conventions of the embedding.
    - JavaScript values are the first-order type [value]; heap objects and
      functions are named by a reference, so that reference equality is
      equality of [value]s.  Exception objects are compared by their name
      and arguments.
    - The container is one mutable object: its fields ([_bindings],
      [_resolved], ...) and the part of the JavaScript world it touches
      (function table, allocator, properties of the objects it shares with,
      trace of the calls made to user code) form the record [State], threaded
      by the state-and-exception monad [M].
    - [_resolve] and [_prepareForInjection] are mutually recursive through
      user-supplied bindings; [_resolve] takes a fuel argument, one unit per
      nested call, and [resolve_terminates] shows that fuel for every binding
      plus two always suffices.
    - User code is taken as follows: a function of the host program
      (binding, constructor, [handle] method) gets [this], its arguments and
      the allocator, and completes normally or abruptly, without calling
      back into the container; [register()] of a provider makes a sequence
      of [bind] calls; [load()] of a provider is recorded in the trace.
    - Aliases are assumed not to collide with the properties every plain
      object inherits ([constructor], [toString], ...), source texts are
      ASCII, and [console.debug] is left out of [log]. *)

From Stdlib Require Import ZArith Ascii String.
From stdpp Require Import gmap strings list fin_maps pretty.

Module Container.

(** ** Values *)

Inductive value :=
| VUndefined
| VNull
| VBool (b : bool)
| VNum (n : Z)
| VStr (s : string)
| VObj (ref : nat)                          (* a heap object, by identity *)
| VFun (fid : nat)                          (* a function or class, by identity *)
| VError (name : string) (args : list string). (* an Error/Exception object *)

Global Instance value_eq_dec : EqDecision value.
Proof. solve_decision. Defined.

(** How a call into user code finishes. *)
Inductive Completion := Normal (v : value) | Abrupt (e : value).

(** A function of the host program: its [name] property, the [name] of its
    [prototype] (empty when it has no prototype, or none with a truthy
    [name]), the [name] of its [constructor] ([Function] for an ordinary
    function or a class, [AsyncFunction], [GeneratorFunction], ...), its
    source text (what [toString()] yields) and its behaviour.  The body
    receives [this], the arguments and the first free heap reference; it
    answers with its completion and the number of objects it allocated.
    [new] on a function that is no constructor (an arrow, async or
    generator function) and a plain call of a class written with the class
    syntax complete abruptly with a TypeError: the body says so. *)
Record Callable := {
  fn_name : string;
  fn_prototype_name : string;
  fn_constructor_name : string;
  fn_source : string;
  fn_body : value -> list value -> nat -> Completion * nat
}.

(** A service provider instance: [register()] performs a sequence of
    [bind] calls on the container, [load()] is opaque and only recorded. *)
Record ServiceProvider := {
  sp_name : string;
  sp_isDeferred : bool;
  sp_provides : list string;
  sp_register : list (string * value * bool)
}.

(** The installed error handler instance and its [handle] property. *)
Record ErrorHandler := { eh_ref : nat; eh_handle : value }.

(** A property of an object the container shares with: either the lazy
    accessor made by [_makeSharableAlias], or something else. *)
Inductive Slot := Accessor (alias : string) | Plain (v : value).

(** Calls that leave the container. *)
Inductive Event :=
| EvRegister (provider : string)            (* provider.register() *)
| EvLoad (provider : string)                (* provider.load() *)
| EvInvoke (fid : nat) (args : list value). (* a binding or handler is run *)

Global Instance Event_eq_dec : EqDecision Event.
Proof. solve_decision. Defined.

(** ** The container and its world *)

Record State := mkState {
  _providers : list (string * ServiceProvider);
  _bindings : gmap string value;
  _resolved : gmap string value;
  _injections : list string;
  _shouldShare : list string;
  _sharedWith : gmap string (list nat);
  _sharable : list string;
  _debug : bool;
  _errorHandler : option ErrorHandler;
  _logOutput : list string;
  w_funs : nat -> Callable;
  w_objname : nat -> string;
  w_next : nat;
  w_props : gmap nat (gmap string Slot);
  w_events : list Event
}.

Definition set_providers v (s : State) : State :=
  mkState v (_bindings s) (_resolved s) (_injections s) (_shouldShare s)
    (_sharedWith s) (_sharable s) (_debug s) (_errorHandler s) (_logOutput s)
    (w_funs s) (w_objname s) (w_next s) (w_props s) (w_events s).
Definition set_bindings v (s : State) : State :=
  mkState (_providers s) v (_resolved s) (_injections s) (_shouldShare s)
    (_sharedWith s) (_sharable s) (_debug s) (_errorHandler s) (_logOutput s)
    (w_funs s) (w_objname s) (w_next s) (w_props s) (w_events s).
Definition set_resolved v (s : State) : State :=
  mkState (_providers s) (_bindings s) v (_injections s) (_shouldShare s)
    (_sharedWith s) (_sharable s) (_debug s) (_errorHandler s) (_logOutput s)
    (w_funs s) (w_objname s) (w_next s) (w_props s) (w_events s).
Definition set_injections v (s : State) : State :=
  mkState (_providers s) (_bindings s) (_resolved s) v (_shouldShare s)
    (_sharedWith s) (_sharable s) (_debug s) (_errorHandler s) (_logOutput s)
    (w_funs s) (w_objname s) (w_next s) (w_props s) (w_events s).
Definition set_shouldShare v (s : State) : State :=
  mkState (_providers s) (_bindings s) (_resolved s) (_injections s) v
    (_sharedWith s) (_sharable s) (_debug s) (_errorHandler s) (_logOutput s)
    (w_funs s) (w_objname s) (w_next s) (w_props s) (w_events s).
Definition set_sharedWith v (s : State) : State :=
  mkState (_providers s) (_bindings s) (_resolved s) (_injections s)
    (_shouldShare s) v (_sharable s) (_debug s) (_errorHandler s)
    (_logOutput s) (w_funs s) (w_objname s) (w_next s) (w_props s)
    (w_events s).
Definition set_sharable v (s : State) : State :=
  mkState (_providers s) (_bindings s) (_resolved s) (_injections s)
    (_shouldShare s) (_sharedWith s) v (_debug s) (_errorHandler s)
    (_logOutput s) (w_funs s) (w_objname s) (w_next s) (w_props s)
    (w_events s).
Definition set_debug v (s : State) : State :=
  mkState (_providers s) (_bindings s) (_resolved s) (_injections s)
    (_shouldShare s) (_sharedWith s) (_sharable s) v (_errorHandler s)
    (_logOutput s) (w_funs s) (w_objname s) (w_next s) (w_props s)
    (w_events s).
Definition set_errorHandler v (s : State) : State :=
  mkState (_providers s) (_bindings s) (_resolved s) (_injections s)
    (_shouldShare s) (_sharedWith s) (_sharable s) (_debug s) v
    (_logOutput s) (w_funs s) (w_objname s) (w_next s) (w_props s)
    (w_events s).
Definition set_logOutput v (s : State) : State :=
  mkState (_providers s) (_bindings s) (_resolved s) (_injections s)
    (_shouldShare s) (_sharedWith s) (_sharable s) (_debug s)
    (_errorHandler s) v (w_funs s) (w_objname s) (w_next s) (w_props s)
    (w_events s).
Definition set_next v (s : State) : State :=
  mkState (_providers s) (_bindings s) (_resolved s) (_injections s)
    (_shouldShare s) (_sharedWith s) (_sharable s) (_debug s)
    (_errorHandler s) (_logOutput s) (w_funs s) (w_objname s) v (w_props s)
    (w_events s).
Definition set_props v (s : State) : State :=
  mkState (_providers s) (_bindings s) (_resolved s) (_injections s)
    (_shouldShare s) (_sharedWith s) (_sharable s) (_debug s)
    (_errorHandler s) (_logOutput s) (w_funs s) (w_objname s) (w_next s) v
    (w_events s).
Definition set_events v (s : State) : State :=
  mkState (_providers s) (_bindings s) (_resolved s) (_injections s)
    (_shouldShare s) (_sharedWith s) (_sharable s) (_debug s)
    (_errorHandler s) (_logOutput s) (w_funs s) (w_objname s) (w_next s)
    (w_props s) v.

(** [new Container]: the constructor, in a world with the given functions. *)
Definition constructor (funs : nat -> Callable) (objname : nat -> string) : State :=
  mkState [] ∅ ∅ [] [] ∅ [] false None [] funs objname 0 ∅ [].

(** ** The monad: state, JavaScript exceptions, fuel *)

Inductive Outcome (A : Type) :=
| Ok (a : A) (s : State)
| Throw (e : value) (s : State)
| OutOfFuel.
Arguments Ok {A}.
Arguments Throw {A}.
Arguments OutOfFuel {A}.

Definition M (A : Type) := State -> Outcome A.

Global Instance M_ret : MRet M := λ A a s, Ok a s.
Global Instance M_bind : MBind M := λ A B k m s,
  match m s with
  | Ok a s' => k a s'
  | Throw e s' => Throw e s'
  | OutOfFuel => OutOfFuel
  end.

Definition gets {A} (f : State -> A) : M A := λ s, Ok (f s) s.
Definition modify (f : State -> State) : M unit := λ s, Ok tt (f s).
Definition throw {A} (e : value) : M A := λ s, Throw e s.
Definition try_catch {A} (m : M A) (h : value -> M A) : M A := λ s,
  match m s with
  | Throw e s' => h e s'
  | r => r
  end.
Definition when (b : bool) (m : M unit) : M unit := if b then m else mret tt.

(** [Array.prototype.forEach] with an effectful callback. *)
Fixpoint forEach {A} (l : list A) (f : A -> M unit) : M unit :=
  match l with
  | [] => mret tt
  | x :: r => f x;; forEach r f
  end.

(** ** JavaScript primitives used by the container *)

(** [![null, undefined].includes(value)] *)
Definition _isset (v : value) : bool :=
  match v with VNull | VUndefined => false | _ => true end.

(** ToBoolean *)
Definition truthy (v : value) : bool :=
  match v with
  | VUndefined | VNull => false
  | VBool b => b
  | VNum n => negb (n =? 0)%Z
  | VStr s => negb (String.eqb s EmptyString)
  | VObj _ | VFun _ | VError _ _ => true
  end.

Definition slot_truthy (p : Slot) : bool :=
  match p with Accessor _ => true | Plain v => truthy v end.

(** [typeof value === 'function'] *)
Definition isCallable (v : value) : bool :=
  match v with VFun _ => true | _ => false end.

(** a value that [new] keeps when a constructor returns it *)
Definition isObject (v : value) : bool :=
  match v with VObj _ | VFun _ | VError _ _ => true | _ => false end.

(** [obj[key]] on a plain object used as a map *)
Definition prop (m : gmap string value) (key : string) : value :=
  default VUndefined (m !! key).

(** [Array.prototype.includes] on strings *)
Definition includes (x : string) (l : list string) : bool := bool_decide (x ∈ l).

(** [Array.prototype.indexOf]; [None] stands for -1 *)
Fixpoint indexOf (x : string) (l : list string) : option nat :=
  match l with
  | [] => None
  | y :: r => if decide (x = y) then Some 0 else S <$> indexOf x r
  end.

(** [l.splice(l.indexOf(x), 1)]: a start of -1 counts from the end. *)
Definition splice_indexOf (x : string) (l : list string) : list string :=
  match indexOf x l with
  | Some i => delete i l
  | None => take (length l - 1) l
  end.

(** [Array.prototype.join] *)
Definition join (sep : string) (l : list string) : string := String.concat sep l.

Definition typeError (msg : string) : value := VError "TypeError" [msg].

(** ** Reading the declared parameters of a function

    The source text is matched against the regular expression of
    [_readArguments]: the word function, then lazily any characters other
    than line terminators up to an opening parenthesis, then (captured) the
    longest run of characters other than a closing parenthesis, then a
    closing parenthesis.  The capture is split at commas, each piece is
    trimmed and the empty pieces are dropped. *)

Definition isLineTerminator (c : ascii) : bool :=
  Ascii.eqb c "010"%char || Ascii.eqb c "013"%char.

Definition isWhiteSpace (c : ascii) : bool :=
  Ascii.eqb c " "%char || Ascii.eqb c "009"%char || Ascii.eqb c "010"%char
  || Ascii.eqb c "011"%char || Ascii.eqb c "012"%char || Ascii.eqb c "013"%char.

(** The captured run: the text before the first closing parenthesis. *)
Fixpoint upToClose (s : string) : option string :=
  match s with
  | EmptyString => None
  | String c r => if Ascii.eqb c ")"%char then Some EmptyString else String c <$> upToClose r
  end.

(** The expression right after the keyword; the lazy quantifier moves on to
    a later opening parenthesis when the remainder does not match. *)
Fixpoint afterKeyword (s : string) : option string :=
  match s with
  | EmptyString => None
  | String c r =>
      if Ascii.eqb c "("%char then
        match upToClose r with
        | Some g => Some g
        | None => afterKeyword r
        end
      else if isLineTerminator c then None
      else afterKeyword r
  end.

Fixpoint stripPrefix (p s : string) : option string :=
  match p, s with
  | EmptyString, _ => Some s
  | String a p', String b s' => if Ascii.eqb a b then stripPrefix p' s' else None
  | String _ _, EmptyString => None
  end.

(** Capture group 1 of the leftmost match of the whole expression. *)
Fixpoint matchFunction (s : string) : option string :=
  match stripPrefix "function" s ≫= afterKeyword with
  | Some g => Some g
  | None =>
      match s with
      | EmptyString => None
      | String _ r => matchFunction r
      end
  end.

(** [String.prototype.split] on a one-character separator *)
Fixpoint split (sep : ascii) (s : string) : list string :=
  match s with
  | EmptyString => [EmptyString]
  | String c r =>
      if Ascii.eqb c sep then EmptyString :: split sep r
      else match split sep r with
           | h :: t => String c h :: t
           | [] => [String c EmptyString]
           end
  end.

Fixpoint trimStart (s : string) : string :=
  match s with
  | EmptyString => EmptyString
  | String c r => if isWhiteSpace c then trimStart r else s
  end.

Fixpoint trimEnd (s : string) : string :=
  match s with
  | EmptyString => EmptyString
  | String c r =>
      match trimEnd r with
      | EmptyString => if isWhiteSpace c then EmptyString else String c EmptyString
      | r' => String c r'
      end
  end.

Definition trim (s : string) : string := trimEnd (trimStart s).

Definition nonEmpty (s : string) : bool := negb (String.eqb s EmptyString).

(** [_readArguments], on the source text of the callable. *)
Definition _readArguments (source : string) : list string :=
  match matchFunction source with
  | Some args1 =>
      if nonEmpty args1 then filter (λ arg, nonEmpty arg = true) (trim <$> split ","%char args1)
      else []
  | None => []
  end.

(** ** Names and exceptions *)

(** The [name] of the class of [this]: what [getName(this)] yields on an
    instance of [Container]. *)
Definition containerName : string := "Container".

(** [a || b] on strings: the first when it is not empty. *)
Definition orElse (a b : string) : string := if nonEmpty a then a else b.

(** [getName(obj)]; [None] when reading [obj.name] raises a TypeError.  For
    a function: [name || prototype.name || constructor.name || typeof]. *)
Definition getName (s : State) (obj : value) : option string :=
  match obj with
  | VUndefined | VNull => None
  | VBool _ => Some "Boolean"
  | VNum _ => Some "Number"
  | VStr _ => Some "String"
  | VObj r => Some (w_objname s r)
  | VFun f =>
      Some (orElse (fn_name (w_funs s f))
              (orElse (fn_prototype_name (w_funs s f))
                 (orElse (fn_constructor_name (w_funs s f)) "function")))
  | VError n _ => Some (if nonEmpty n then n else "Exception")
  end.

(** [`${value}`] where the container interpolates a binding. *)
Definition toString (s : State) (v : value) : string :=
  match v with
  | VUndefined => "undefined"
  | VNull => "null"
  | VBool b => if b then "true" else "false"
  | VNum n => pretty n
  | VStr x => x
  | VObj _ => "[object Object]"
  | VFun f => fn_source (w_funs s f)
  | VError n a => n +:+ ": " +:+ join "," a
  end.

(** [makeException(name, ...args)]: the Exception class lives outside
    [Container.js]; an exception object is its [name] and the arguments
    given to its constructor. *)
Definition makeException (name : string) (args : list string) : value :=
  VError (containerName +:+ " " +:+ name) args.

(** ** Logging and debugging *)

(** The double-quote character, and a text between double quotes. *)
Definition dquote : string := String (ascii_of_nat 34) EmptyString.
Definition quoted (x : string) : string := dquote +:+ x +:+ dquote.

Definition log (msg : string) : M unit :=
  modify (λ s, set_logOutput (if _debug s then _logOutput s ++ [msg] else _logOutput s) s).

Definition debug (state : bool) : M unit := modify (set_debug state).
Definition debugging (s : State) : bool := _debug s.
Definition logOutput (s : State) : list string := _logOutput s.
Definition flushLogs : M unit := modify (set_logOutput []).

(** ** Predicates over the maps *)

(** [obj[key]] on [_providers], an object whose keys keep insertion order. *)
Fixpoint assoc {V} (key : string) (l : list (string * V)) : option V :=
  match l with
  | [] => None
  | (k, v) :: r => if decide (k = key) then Some v else assoc key r
  end.

(** [obj[key] = v]: an existing key keeps its place, a new one goes last. *)
Fixpoint assoc_set {V} (key : string) (v : V) (l : list (string * V)) : list (string * V) :=
  match l with
  | [] => [(key, v)]
  | (k, v') :: r => if decide (k = key) then (k, v) :: r else (k, v') :: assoc_set key v r
  end.

Definition getProvider (s : State) (providerClassName : string) : option ServiceProvider :=
  assoc providerClassName (_providers s).

Definition isRegistered (s : State) (providerName : string) : bool :=
  bool_decide (is_Some (getProvider s providerName)).

Definition isBound (s : State) (alias : string) : bool :=
  _isset (prop (_bindings s) alias).

Definition isResolved (s : State) (alias : string) : bool :=
  _isset (prop (_resolved s) alias).

Definition canShare (s : State) (alias : string) : bool :=
  includes alias (_sharable s).

Definition isShared (s : State) (alias : string) : bool :=
  match _sharedWith s !! alias with
  | Some l => bool_decide (0 < length l)
  | None => false
  end.

Definition isConcrete (s : State) (alias : string) : bool :=
  negb (isCallable (prop (_bindings s) alias)).

Definition isClass (s : State) (abstract : value) : bool :=
  let abstract := match abstract with VStr a => prop (_bindings s) a | _ => abstract end in
  negb (isCallable abstract)
  || isCallable abstract && negb (bool_decide (getName s abstract = Some "Function")).

(** The [sharable] getter. *)
Definition sharable (s : State) : list string :=
  filter (λ entry, isBound s entry = true) (_sharable s).

(** ** Error handling *)

(** Running a function of the host program. *)
Definition invoke (fid : nat) (this : value) (args : list value) : M value := λ s,
  let '(c, k) := fn_body (w_funs s fid) this args (w_next s) in
  let s' := set_next (w_next s + k) (set_events (w_events s ++ [EvInvoke fid args]) s) in
  match c with
  | Normal v => Ok v s'
  | Abrupt e => Throw e s'
  end.

(** [new f(...args)] *)
Definition construct (fid : nat) (args : list value) : M value :=
  this ← gets (λ s, VObj (w_next s));
  modify (λ s, set_next (w_next s + 1) s);;
  r ← invoke fid this args;
  mret (if isObject r then r else this).

Definition errorHandler (Handler : ErrorHandler) : M unit :=
  modify (set_errorHandler (Some Handler)).

Definition handleError (error : value) : M value :=
  h ← gets _errorHandler;
  match h with
  | Some h =>
      match eh_handle h with
      | VFun fid => invoke fid (VObj (eh_ref h)) [error]
      | _ => throw error
      end
  | None => throw error
  end.

(** ** Bindings and instances *)

Definition bind (alias : string) (binding : value) (shared : bool) : M unit :=
  log ("Binding: " +:+ quoted alias +:+ "...");;
  modify (λ s, set_bindings (<[alias := binding]> (_bindings s)) s);;
  sh ← gets _sharable;
  when (shared && negb (includes alias sh))
    (modify (λ s, set_sharable (_sharable s ++ [alias]) s)).

Definition setInstance (alias : string) (concrete : value) (shared : bool) : M value :=
  log ("Set Instance of " +:+ quoted alias +:+ ".");;
  modify (λ s, set_resolved (<[alias := concrete]> (_resolved s)) s);;
  sh ← gets _sharable;
  when (shared && negb (includes alias sh))
    (modify (λ s, set_sharable (_sharable s ++ [alias]) s));;
  mret concrete.

Definition getInstance (alias : string) : M value :=
  log ("Resolved Shared Instance of " +:+ quoted alias +:+ ".");;
  gets (λ s, prop (_resolved s) alias).

(** [_destroyReference(alias, obj)] for the object read by [obj] and written
    back by [put]. *)
Definition _destroyReference {V} (istrue : V -> bool) (alias : string)
    (obj : State -> gmap string V) (put : gmap string V -> State -> State) : M unit :=
  o ← gets obj;
  match o !! alias with
  | Some v =>
      when (istrue v)
        (log ("Cleaning up resolved reference of " +:+ quoted alias +:+ "...");;
         modify (λ s, put (delete alias (obj s)) s))
  | None => mret tt
  end.

Definition toLowerCase (c : ascii) : ascii :=
  let n := nat_of_ascii c in
  if bool_decide (65 ≤ n ≤ 90) then ascii_of_nat (n + 32) else c.

(** [getSharedAliasName(alias)]; reading [alias[0]] of the empty string and
    calling a method on it raises a TypeError. *)
Definition getSharedAliasName (alias : string) : M string :=
  match alias with
  | EmptyString => throw (typeError "Cannot read properties of undefined (reading 'toLowerCase')")
  | String c r => mret (String "$"%char (String (toLowerCase c) r))
  end.

Definition unShare (alias : string) : M unit :=
  log ("UnSharing " +:+ quoted alias +:+ "...");;
  sw ← gets _sharedWith;
  match sw !! alias with
  | None => mret tt
  | Some targets =>
      forEach targets (λ object,
        log ("Destroying shared references of " +:+ quoted alias +:+ "...");;
        key ← getSharedAliasName alias;
        _destroyReference slot_truthy key
          (λ s, default ∅ (w_props s !! object))
          (λ o s, set_props (<[object := o]> (w_props s)) s));;
      modify (λ s, set_sharedWith (delete alias (_sharedWith s)) s)
  end.

Definition destroy (alias : string) : M bool :=
  r ← gets (λ s, isResolved s alias);
  if r : bool then
    unShare alias;;
    log ("Destroying shared instance of " +:+ quoted alias +:+ "...");;
    _destroyReference truthy alias _resolved set_resolved;;
    log (quoted alias +:+ " was destroyed successfully.");;
    mret true
  else mret false.

Definition unBind (alias : string) : M unit :=
  log ("UnBinding: " +:+ quoted alias +:+ "...");;
  destroy alias;;
  _destroyReference truthy alias _bindings set_bindings;;
  sh ← gets _sharable;
  when (includes alias sh)
    (modify (λ s, set_sharable (splice_indexOf alias (_sharable s)) s)).

(** ** Sharing with other objects *)

Definition share (aliases : list string) : M unit :=
  modify (set_shouldShare []);;
  forEach aliases (λ alias,
    bound ← gets (λ s, isBound s alias);
    if negb bound then
      handleError (makeException ("No binding for " +:+ alias +:+ " available to share.") []);;
      mret tt
    else
      can ← gets (λ s, canShare s alias);
      if negb can then
        handleError (makeException (alias +:+ " is not sharable.") []);;
        mret tt
      else
        staged ← gets _shouldShare;
        when (negb (includes alias staged))
          (modify (λ s, set_shouldShare (_shouldShare s ++ [alias]) s))).

(** [_makeSharableAlias(alias)]: the closure that makes [alias] when called,
    kept as the alias it will make. *)
Definition _makeSharableAlias (alias : string) : Slot := Accessor alias.

Definition withOthers (instances : list nat) : M unit :=
  staged ← gets _shouldShare;
  when (bool_decide (0 < length staged))
    (forEach staged (λ alias,
       forEach instances (λ object,
         sw ← gets _sharedWith;
         sharedList ← match sw !! alias with
                      | Some l => mret l
                      | None => modify (λ s, set_sharedWith (<[alias := []]> (_sharedWith s)) s);;
                                mret []
                      end;
         when (negb (bool_decide (object ∈ sharedList)))
           (key ← getSharedAliasName alias;
            modify (λ s, set_props
              (<[object := <[key := _makeSharableAlias alias]> (default ∅ (w_props s !! object))]>
                 (w_props s)) s);;
            modify (λ s, set_sharedWith (<[alias := sharedList ++ [object]]> (_sharedWith s)) s))));;
     log ("Shared " +:+ quoted (join ", " staged) +:+ " with "
          +:+ pretty (length instances) +:+ " Objects."));;
  modify (set_shouldShare []).

(** ** Service providers *)

(** [getName] of a provider class: the name of the class, else the name of
    its constructor, a provider class having no [name] on its prototype. *)
Definition providerName (P : ServiceProvider) : string :=
  if nonEmpty (sp_name P) then sp_name P else "Function".

Definition register (P : ServiceProvider) : M unit :=
  modify (λ s, set_providers (assoc_set (providerName P) P (_providers s)) s);;
  log ("Registered " +:+ quoted (providerName P) +:+ "...").

(** [provider.register()] *)
Definition provider_register (P : ServiceProvider) : M unit :=
  modify (λ s, set_events (w_events s ++ [EvRegister (sp_name P)]) s);;
  forEach (sp_register P) (λ '(alias, binding, shared), bind alias binding shared).

(** [provider.load()] *)
Definition provider_load (P : ServiceProvider) : M unit :=
  modify (λ s, set_events (w_events s ++ [EvLoad (sp_name P)]) s).

(** [getName] of a provider instance: the name of its class, or its type
    when the class has none. *)
Definition instanceName (P : ServiceProvider) : string :=
  if nonEmpty (sp_name P) then sp_name P else "object".

Definition _bootProvider (ProviderInstance : ServiceProvider) : M unit :=
  log ("Calling " +:+ quoted (instanceName ProviderInstance) +:+ " Boot...");;
  provider_load ProviderInstance.

(** [this._providers[providerName]] inside [bootProviders]. *)
Definition provider_at (name : string) : M ServiceProvider :=
  p ← gets (λ s, assoc name (_providers s));
  match p with
  | Some p => mret p
  | None => throw (typeError "Cannot read properties of undefined")
  end.

Definition bootProviders : M unit :=
  providers ← gets (λ s, fst <$> _providers s);
  forEach providers (λ name,
    log ("Calling " +:+ quoted name +:+ " Registration...");;
    p ← provider_at name;
    provider_register p);;
  forEach providers (λ name,
    providerInstance ← provider_at name;
    when (negb (sp_isDeferred providerInstance)) (_bootProvider providerInstance)).

Definition _findProvider (alias : string) : M (option ServiceProvider) :=
  log ("Checking Provider for " +:+ alias +:+ "...");;
  result ← gets (λ s, find (λ p, includes alias (sp_provides p)) (snd <$> _providers s));
  when (bool_decide (is_Some result)) (log ("Located Provider for " +:+ alias +:+ "..."));;
  mret result.

(** ** Resolution *)

Definition _makeConcrete (binding : value) (injections : list value) : M value :=
  try_catch
    (match binding with
     | VFun fid =>
         cls ← gets (λ s, isClass s binding);
         concrete ← (if negb cls then invoke fid VNull injections
                     else construct fid injections);
         match concrete with
         | VUndefined =>
             src ← gets (λ s, toString s binding);
             mret (makeException "Binding Exception"
                     ["Binding " +:+ src +:+ " failed, return value is undefined."])
         | _ =>
             name ← gets (λ s, getName s concrete);
             match name with
             | Some name =>
                 log ("Instantiated Concrete Instance of " +:+ quoted name +:+ " successfully.");;
                 mret concrete
             | None => throw (typeError "Cannot read properties of null (reading 'name')")
             end
         end
     | _ => throw (typeError "Bind must be called on a function")
     end)
    (λ e, handleError e).

Section Injection.
(** [this._resolve(dependency)], with one unit of fuel less. *)
Variable resolve : string -> M value.

(** The callback of [dependencies.forEach] in [_prepareForInjection],
    run over the dependencies; [injections] is the array being filled. *)
Fixpoint inject (alias : string) (dependencies : list string) (injections : list value)
    : M (list value) :=
  match dependencies with
  | [] => mret injections
  | dependency :: rest =>
      stack ← gets _injections;
      if includes dependency stack then
        throw (makeException "Circular Dependency Exception"
                 [alias +:+ " requires " +:+ join ", " stack])
      else
        log (alias +:+ " requires dependency " +:+ quoted dependency);;
        modify (λ s, set_injections (_injections s ++ [dependency]) s);;
        v ← resolve dependency;
        modify (λ s, set_injections (splice_indexOf dependency (_injections s)) s);;
        inject alias rest (injections ++ [v])
  end.

Definition _prepareForInjection (alias : string) (instance : value) : M (list value) :=
  if isCallable instance then
    dependencies ← gets (λ s, _readArguments (toString s instance));
    inject alias dependencies []
  else mret [].

Definition _resolveIfNotResolved (alias : string) : M value :=
  log ("Resolving Binding for " +:+ quoted alias +:+ "...");;
  binding ← gets (λ s, prop (_bindings s) alias);
  if isCallable binding then
    injections ← _prepareForInjection alias binding;
    _makeConcrete binding injections
  else mret binding.
End Injection.

Fixpoint _resolve (fuel : nat) (alias : string) (rebound : bool) : M value :=
  match fuel with
  | 0 => λ _, OutOfFuel
  | S fuel =>
      cached ← gets (λ s, isResolved s alias && canShare s alias && negb rebound);
      if cached : bool then getInstance alias
      else
        when rebound (destroy alias;; mret tt);;
        bound ← gets (λ s, isBound s alias);
        if negb bound then
          handleError (makeException "Binding Exception"
                         ["No Binding found for " +:+ quoted alias +:+ "."])
        else
          providerInstance ← _findProvider alias;
          match providerInstance with
          | Some p =>
              when (sp_isDeferred p)
                (log ("Booting Deferred ServiceProvider " +:+ quoted alias +:+ "...");;
                 _bootProvider p)
          | None => mret tt
          end;;
          instance ← _resolveIfNotResolved (λ dependency, _resolve fuel dependency false) alias;
          can ← gets (λ s, canShare s alias);
          when can
            (log (quoted alias +:+ " is Sharable.");;
             setInstance alias instance true;;
             mret tt);;
          mret instance
  end.

Definition make (fuel : nat) (alias : string) : M value :=
  log ("Making " +:+ quoted alias +:+ "...");;
  _resolve fuel alias false.

Definition rebound (fuel : nat) (alias : string) : M value :=
  log ("Rebound: " +:+ quoted alias +:+ "...");;
  _resolve fuel alias true.

End Container.

(** * The pipeline kernel *)

Module Kernel.

Section Pipeline.
(** The state object threaded through the pipes, and the answer of the
    whole run (what the caller observes once the chain stops). *)
Variables (St R : Type).

(** Modelled from the spec: the Kernel class ([src/Services/App/Kernel]) is
    missing from the sources.  A pipe method has signature
    [(state, next) -> void]; calling [next(transformedState)] advances the
    chain, not calling it halts the pipeline. *)
Definition Method := St -> (St -> R) -> R.

(** Modelled from the spec: a pipe exposes a method per direction name. *)
Record Pipe := { handle_method : Method; terminate_method : Method }.

Inductive MethodName := Handle | Terminate.

Definition method_of (name : MethodName) (p : Pipe) : Method :=
  match name with
  | Handle => handle_method p
  | Terminate => terminate_method p
  end.

(** Modelled from the spec: the executor calls the selected method of the
    pipe at hand with the current state and a continuation that resumes
    with the next pipe; the continuation of the last pipe delivers the
    final state to the terminal callback. *)
Fixpoint thread (name : MethodName) (pipes : list Pipe) (state : St)
    (callback : St -> R) : R :=
  match pipes with
  | [] => callback state
  | p :: rest => method_of name p state (λ state', thread name rest state' callback)
  end.

(** Modelled from the spec: the builder returned by [send]. *)
Record Builder := { input : St; pipes : list Pipe }.

(** Modelled from the spec: [send(initialState)] captures the input. *)
Definition send (initialState : St) : Builder :=
  {| input := initialState; pipes := [] |}.

(** Modelled from the spec: [through(pipes)] sets the ordered pipe list. *)
Definition through (ps : list Pipe) (b : Builder) : Builder :=
  {| input := input b; pipes := ps |}.

(** Modelled from the spec: [via(methodName)] starts the execution, in
    array order for [handle] and in reverse array order for [terminate];
    the object it returns exposes [then(callback)]. *)
Definition via (name : MethodName) (b : Builder) : (St -> R) -> R :=
  λ callback,
    match name with
    | Handle => thread Handle (pipes b) (input b) callback
    | Terminate => thread Terminate (rev (pipes b)) (input b) callback
    end.

Definition then_ (continuation : (St -> R) -> R) (callback : St -> R) : R :=
  continuation callback.

(** Modelled from the spec: the kernel with its middleware, and the
    convenience forms [handle(initial, callback)] and
    [terminate(initial, callback)]. *)
Record Kernel := { middleware : list Pipe }.

Definition setMiddleware (ps : list Pipe) (k : Kernel) : Kernel :=
  {| middleware := ps |}.

Definition handle (k : Kernel) (initial : St) (callback : St -> R) : R :=
  then_ (via Handle (through (middleware k) (send initial))) callback.

Definition terminate (k : Kernel) (initial : St) (callback : St -> R) : R :=
  then_ (via Terminate (through (middleware k) (send initial))) callback.

(** A pipe that passes a transformed state to its continuation: [up] on
    the way in, [down] on the way out. *)
Definition passing (up down : St -> St) : Pipe :=
  {| handle_method := λ state next, next (up state);
     terminate_method := λ state next, next (down state) |}.

(** A pipe that never calls [next]. *)
Definition halting (answer : R) : Pipe :=
  {| handle_method := λ _ _, answer; terminate_method := λ _ _, answer |}.
End Pipeline.

Arguments handle_method {St R}.
Arguments terminate_method {St R}.
Arguments thread {St R}.
Arguments send {St R}.
Arguments through {St R}.
Arguments via {St R}.
Arguments then_ {St R}.
Arguments setMiddleware {St R}.
Arguments handle {St R}.
Arguments terminate {St R}.
Arguments passing {St R}.
Arguments halting {St R}.
Arguments middleware {St R}.
Arguments Build_Kernel {St R}.

(** Modelled from the spec: the state object of the tests, [{ state: n }],
    and the four mock pipes (missing from the sources), each incrementing
    the field in [handle] and decrementing it in [terminate]. *)
Record Payload := { state : Z }.

Definition increment (o : Payload) : Payload := {| state := state o + 1 |}.
Definition decrement (o : Payload) : Payload := {| state := state o - 1 |}.

Definition PipeA {R} : Pipe Payload R := passing increment decrement.
Definition PipeB {R} : Pipe Payload R := passing increment decrement.
Definition PipeC {R} : Pipe Payload R := passing increment decrement.
Definition PipeD {R} : Pipe Payload R := passing increment decrement.

End Kernel.

Import Container.

(** * Notions used to state the properties *)

(** [wp m s Q E F]: running [m] from [s] ends normally in a state and with a
    result satisfying [Q], or abruptly with [E]; [F] is what is claimed of
    a run that exhausts its fuel. *)
Definition wp {A} (m : M A) (s : State) (Q : A → State → Prop)
    (E : value → State → Prop) (F : Prop) : Prop :=
  match m s with
  | Ok a s' => Q a s'
  | Throw e s' => E e s'
  | OutOfFuel => F
  end.

(** A predicate on states is steady when the elementary updates made while
    an alias is resolved keep it, the storing of an instance apart. *)
Record steady (P : State → Prop) : Prop := {
  st_logOutput : ∀ s v, P s → P (set_logOutput v s);
  st_props : ∀ s v, P s → P (set_props v s);
  st_sharedWith : ∀ s v, P s → P (set_sharedWith v s);
  st_events : ∀ s e l, l = w_events s ++ [e] → P s → P (set_events l s);
  st_next : ∀ s n, w_next s ≤ n → P s → P (set_next n s);
  st_delete : ∀ s a m, m = delete a (_resolved s) → P s → P (set_resolved m s)
}.

(** It is stable when storing an instance keeps it too; a resolved
    instance is only ever stored for an alias that is bound and sharable. *)
Record stable (P : State → Prop) : Prop := {
  st_steady :> steady P;
  st_insert : ∀ s a v m,
    m = <[a:=v]> (_resolved s) → isBound s a = true → canShare s a = true →
    P s → P (set_resolved m s)
}.

(** The updates made by logging and by the sharing of accessors alone. *)
Record ambient (P : State → Prop) : Prop := {
  am_logOutput : ∀ s v, P s → P (set_logOutput v s);
  am_props : ∀ s v, P s → P (set_props v s);
  am_sharedWith : ∀ s v, P s → P (set_sharedWith v s)
}.

(** [m] keeps [P] however it ends, and does end. *)
Definition keeps {A} (P : State → Prop) (m : M A) : Prop :=
  ∀ s, P s → wp m s (λ _, P) (λ _, P) False.

(** The bound aliases that are not being resolved yet. *)
Definition pending (s : State) : nat :=
  length (filter (λ a, a ∉ _injections s) (elements (dom (_bindings s)))).

(** Fuel that suffices to resolve any alias from [s]. *)
Definition need (s : State) : nat := pending s + 2.

(** The part of the state a resolution never writes. *)
Definition same_frame (s s' : State) : Prop :=
  _bindings s' = _bindings s ∧ _sharable s' = _sharable s.

Definition ignores_stack (P : State → Prop) : Prop :=
  ∀ s v, P s → P (set_injections v s).

(** The contract of one resolution started in [s], for a predicate [P]:
    [P] and the frame are kept however the resolution ends, the injection
    stack is restored on a normal return, and fuel runs out only when less
    than [need s] was given. *)
Definition resolution (P : State → Prop) {A} (fuel : nat) (m : M A) (s : State) : Prop :=
  wp m s
    (λ _ s', P s' ∧ same_frame s s' ∧ _injections s' = _injections s)
    (λ _ s', P s' ∧ same_frame s s')
    (fuel < need s).

(** The same contract for a resolution that yields no instance when [G]
    holds. *)
Definition resolution_unless (G : Prop) (P : State → Prop) {A}
    (fuel : nat) (m : M A) (s : State) : Prop :=
  wp m s
    (λ _ s', ¬ G ∧ P s' ∧ same_frame s s' ∧ _injections s' = _injections s)
    (λ _ s', P s' ∧ same_frame s s')
    (fuel < need s).

(** [P] blocks the aliases of [blocked]: while [P] holds none of them is
    resolved, each is bound to a function that declares one of them as a
    parameter, and [P] is kept when an instance is stored for any other
    alias. *)
Record blocking (P : State → Prop) (blocked : string → Prop) : Prop := {
  bl_insert : ∀ s a v m,
    m = <[a:=v]> (_resolved s) → isBound s a = true → canShare s a = true →
    ¬ blocked a → P s → P (set_resolved m s);
  bl_unresolved : ∀ s a, P s → blocked a → isResolved s a = false;
  bl_depends : ∀ s a, P s → blocked a →
    ∃ fid d, prop (_bindings s) a = VFun fid
             ∧ d ∈ _readArguments (toString s (VFun fid)) ∧ blocked d
}.

(** [m] returns normally from [s], with a result and in a state that
    satisfy [Q]. *)
Definition returns {A} (m : M A) (s : State) (Q : A → State → Prop) : Prop :=
  wp m s Q (λ _ _, False) False.

(** The pipe made of a pair of transformations. *)
Definition pipe_of {St R} (t : (St → St) * (St → St)) : Kernel.Pipe St R :=
  Kernel.passing t.1 t.2.

(** A pipe that leaves its index in the state, in both directions. *)
Definition marker {R} (i : nat) : Kernel.Pipe (list nat) R :=
  Kernel.passing (λ l, l ++ [i]) (λ l, l ++ [i]).

Definition is_invoke (ev : Event) : bool :=
  match ev with EvInvoke _ _ => true | _ => false end.

(** The calls made to bindings and handlers, among the events. *)
Definition invocations (evs : list Event) : list Event :=
  filter (λ ev, is_invoke ev = true) evs.

(** [s'] differs from [s] by log lines, provider boots and the injection
    stack only. *)
Definition quiet (s s' : State) : Prop :=
  _bindings s' = _bindings s ∧ _resolved s' = _resolved s
  ∧ _sharable s' = _sharable s ∧ w_funs s' = w_funs s
  ∧ _errorHandler s' = _errorHandler s
  ∧ invocations (w_events s') = invocations (w_events s).


Definition circular (alias : string) (stack : list string) : value :=
  makeException "Circular Dependency Exception" [alias +:+ " requires " +:+ join ", " stack].

(** The state in which a binding's call has been recorded. *)
Definition invoked (fid : nat) (args : list value) (k : nat) (s : State) : State :=
  set_next (w_next s + k) (set_events (w_events s ++ [EvInvoke fid args]) s).

Definition is_call (fid : nat) (ev : Event) : bool :=
  match ev with EvInvoke f _ => bool_decide (f = fid) | _ => false end.

(** How many times the function [fid] has been run. *)
Definition calls (fid : nat) (evs : list Event) : nat :=
  length (filter (λ ev, is_call fid ev = true) evs).

(** What only grows while the container works: the allocator and the
    number of runs of [fid]; the functions themselves do not change. *)
Definition grown (fid : nat) (s s' : State) : Prop :=
  w_funs s' = w_funs s ∧ w_next s ≤ w_next s'
  ∧ calls fid (w_events s) ≤ calls fid (w_events s').


(** The state [bind] leaves. *)
Definition bound_state (alias : string) (binding : value) (shared : bool) (s : State) : State :=
  let s1 := set_bindings (<[alias := binding]> (_bindings s))
              (set_logOutput
                 (if _debug s then _logOutput s ++ ["Binding: " +:+ quoted alias +:+ "..."]
                  else _logOutput s) s) in
  if shared && negb (includes alias (_sharable s))
  then set_sharable (_sharable s ++ [alias]) s1 else s1.

(** A call of a public method of the container. *)
Inductive Call :=
| CBind (alias : string) (binding : value) (shared : bool)
| CUnBind (alias : string)
| CSetInstance (alias : string) (concrete : value) (shared : bool)
| CDestroy (alias : string)
| CMake (alias : string)
| CRebound (alias : string)
| CRegister (P : ServiceProvider)
| CBootProviders
| CShare (aliases : list string)
| CWithOthers (instances : list nat)
| CUnShare (alias : string)
| CErrorHandler (Handler : ErrorHandler)
| CDebug (state : bool)
| CFlushLogs.

Definition call (fuel : nat) (c : Call) : M unit :=
  match c with
  | CBind alias binding shared => bind alias binding shared
  | CUnBind alias => unBind alias
  | CSetInstance alias concrete shared => setInstance alias concrete shared;; mret tt
  | CDestroy alias => destroy alias;; mret tt
  | CMake alias => make fuel alias;; mret tt
  | CRebound alias => rebound fuel alias;; mret tt
  | CRegister P => register P
  | CBootProviders => bootProviders
  | CShare aliases => share aliases
  | CWithOthers instances => withOthers instances
  | CUnShare alias => unShare alias
  | CErrorHandler Handler => errorHandler Handler
  | CDebug state => debug state
  | CFlushLogs => flushLogs
  end.

(** The calls that write neither a binding nor an instance directly. *)
Definition plain (c : Call) : bool :=
  match c with
  | CBind _ _ _ | CUnBind _ | CSetInstance _ _ _ | CBootProviders => false
  | _ => true
  end.

(** Predicates that do not look at the bookkeeping of providers, staged
    aliases, the handler, the debug flag or the injection stack. *)
Record insensitive (P : State → Prop) : Prop := {
  in_providers : ∀ s v, P s → P (set_providers v s);
  in_shouldShare : ∀ s v, P s → P (set_shouldShare v s);
  in_errorHandler : ∀ s v, P s → P (set_errorHandler v s);
  in_debug : ∀ s v, P s → P (set_debug v s);
  in_injections : ignores_stack P
}.

(** The resolved map once [alias] has been destroyed. *)
Definition destroyed (alias : string) (s : State) : gmap string value :=
  if isResolved s alias && truthy (prop (_resolved s) alias)
  then delete alias (_resolved s) else _resolved s.

(** The state [setInstance] leaves. *)
Definition instance_state (alias : string) (concrete : value) (shared : bool) (s : State) : State :=
  let s1 := set_resolved (<[alias := concrete]> (_resolved s))
              (set_logOutput
                 (if _debug s then _logOutput s ++ ["Set Instance of " +:+ quoted alias +:+ "."]
                  else _logOutput s) s) in
  if shared && negb (includes alias (_sharable s))
  then set_sharable (_sharable s ++ [alias]) s1 else s1.





(** ** Notions used by the further properties *)

(** Every character of [s] passes [f]. *)
Fixpoint every (f : ascii → bool) (s : string) : bool :=
  match s with
  | EmptyString => true
  | String c r => f c && every f r
  end.

(** The text [p] occurs somewhere in [s]. *)
Fixpoint occurs (p s : string) : bool :=
  match stripPrefix p s with
  | Some _ => true
  | None =>
      match s with
      | EmptyString => false
      | String _ r => occurs p r
      end
  end.

(** What may stand between the keyword and the parameter list: no opening
    parenthesis and no line terminator. *)
Definition headChar (c : ascii) : bool :=
  negb (Ascii.eqb c "("%char) && negb (isLineTerminator c).

(** What a piece of the parameter list is made of: no comma and no closing
    parenthesis. *)
Definition pieceChar (c : ascii) : bool :=
  negb (Ascii.eqb c ","%char) && negb (Ascii.eqb c ")"%char).

(** The property [key] of the object [object]. *)
Definition slot (s : State) (object : nat) (key : string) : option Slot :=
  default ∅ (w_props s !! object) !! key.

(** The objects an alias is shared with. *)
Definition listed (s : State) (alias : string) : list nat :=
  default [] (_sharedWith s !! alias).

(** The name under which an alias is shared. *)
Definition sharedName (alias : string) : string :=
  match alias with
  | EmptyString => EmptyString
  | String c r => String "$"%char (String (toLowerCase c) r)
  end.

(** Everything but the log, the properties of objects and the record of
    the objects shared with is the same in both states. *)
Definition same_registrations (s s' : State) : Prop :=
  _providers s' = _providers s ∧ _bindings s' = _bindings s
  ∧ _resolved s' = _resolved s ∧ _injections s' = _injections s
  ∧ _sharable s' = _sharable s ∧ _debug s' = _debug s
  ∧ _errorHandler s' = _errorHandler s ∧ w_funs s' = w_funs s
  ∧ w_next s' = w_next s ∧ w_events s' = w_events s.
(** One round of the inner loop of [withOthers]: [alias] is shared with
    [object] unless it is already. *)
Definition shareWith (alias : string) (object : nat) : M unit :=
  sw ← gets _sharedWith;
  sharedList ← match sw !! alias with
               | Some l => mret l
               | None => modify (λ s, set_sharedWith (<[alias := []]> (_sharedWith s)) s);;
                         mret []
               end;
  when (negb (bool_decide (object ∈ sharedList)))
    (key ← getSharedAliasName alias;
     modify (λ s, set_props
       (<[object := <[key := _makeSharableAlias alias]> (default ∅ (w_props s !! object))]>
          (w_props s)) s);;
     modify (λ s, set_sharedWith (<[alias := sharedList ++ [object]]> (_sharedWith s)) s)).
(** Where [withOthers] stands once the aliases [done] have been shared
    with [instances], starting from [s]. *)
Definition shared_so_far (instances : list nat) (s : State) (done : list string)
    (s' : State) : Prop :=
  same_registrations s s' ∧ _shouldShare s' = _shouldShare s
  ∧ _logOutput s' = _logOutput s
  ∧ (∀ a o, a ∈ done → o ∈ instances → o ∈ listed s' a)
  ∧ (∀ a o, o ∈ listed s a → o ∈ listed s' a)
  ∧ (∀ a, a ∉ done → listed s' a = listed s a)
  ∧ (∀ a o, o ∈ listed s' a → o ∉ listed s a →
       ∃ a', a' ∈ done ∧ sharedName a' = sharedName a
             ∧ slot s' o (sharedName a) = Some (Accessor a'))
  ∧ (∀ o k, (∀ a, a ∈ done → k ≠ sharedName a) → slot s' o k = slot s o k)
  ∧ (∀ a, NoDup (listed s a) → NoDup (listed s' a)).

(** The bindings after the [bind] calls [regs], made in order. *)
Definition bind_all (regs : list (string * value * bool)) (m : gmap string value)
    : gmap string value :=
  foldl (λ m r, <[r.1.1 := r.1.2]> m) m regs.

(** The [bind] calls the registered providers make, in the order of
    registration. *)
Definition registrations (s : State) : list (string * value * bool) :=
  mjoin (sp_register <$> (_providers s).*2).

(** The members of a list, each once, in the order of their first
    occurrence. *)
Fixpoint firsts (l : list string) : list string :=
  match l with
  | [] => []
  | x :: l => x :: filter (λ y, y ≠ x) (firsts l)
  end.

(** The calls a resolution of [alias] makes before it turns to the binding
    of [alias]: [load()] of the provider found for [alias] (the first
    registered provider that provides it), when that provider is deferred. *)
Definition boots (s : State) (alias : string) : list Event :=
  match find (λ p, includes alias (sp_provides p)) (snd <$> _providers s) with
  | Some p => if sp_isDeferred p then [EvLoad (sp_name p)] else []
  | None => []
  end.

(** A dependency that is served from the cache: it has an instance, it is
    sharable and it is not being resolved. *)
Definition cached (s : State) (dependency : string) : Prop :=
  isResolved s dependency = true ∧ canShare s dependency = true
  ∧ dependency ∉ _injections s.

(** * A host program used for the concrete runs *)

Module Examples.

(** The functions of the host program, by reference:
    - 0: [function Foo() {}], used as a class;
    - 1: [function () {}], an anonymous factory that returns nothing;
    - 2 and 3: [function A(B) {}] and [function B(A) {}];
    - 4: the [handle] method of an error handler, returning [null];
    - 5: a factory whose parameter list carries an inline comment;
    - 6: an anonymous factory that throws;
    - 8: [function A(Foo, B) {}];
    - others: a constructor that throws. *)
Definition funs (fid : nat) : Callable :=
  match fid with
  | 0 => {| fn_name := "Foo"; fn_prototype_name := EmptyString;
            fn_constructor_name := "Function";
            fn_source := "function Foo() {}";
            fn_body := λ _ _ _, (Normal VUndefined, 0) |}
  | 1 => {| fn_name := EmptyString; fn_prototype_name := EmptyString;
            fn_constructor_name := "Function";
            fn_source := "function () {}";
            fn_body := λ _ _ _, (Normal VUndefined, 0) |}
  | 2 => {| fn_name := "A"; fn_prototype_name := EmptyString;
            fn_constructor_name := "Function";
            fn_source := "function A(B) {}";
            fn_body := λ _ _ _, (Normal VUndefined, 0) |}
  | 3 => {| fn_name := "B"; fn_prototype_name := EmptyString;
            fn_constructor_name := "Function";
            fn_source := "function B(A) {}";
            fn_body := λ _ _ _, (Normal VUndefined, 0) |}
  | 4 => {| fn_name := "handle"; fn_prototype_name := EmptyString;
            fn_constructor_name := "Function";
            fn_source := "function handle(error) { return null }";
            fn_body := λ _ _ _, (Normal VNull, 0) |}
  | 5 => {| fn_name := EmptyString; fn_prototype_name := EmptyString;
            fn_constructor_name := "Function";
            fn_source := "function (Logger /* the logger */, Config) { return {} }";
            fn_body := λ _ _ n, (Normal (VObj n), 1) |}
  | 6 => {| fn_name := EmptyString; fn_prototype_name := EmptyString;
            fn_constructor_name := "Function";
            fn_source := "function () { throw new Error('boom') }";
            fn_body := λ _ _ _, (Abrupt (VError "Error" ["boom"]), 0) |}
  | 8 => {| fn_name := "A"; fn_prototype_name := EmptyString;
            fn_constructor_name := "Function";
            fn_source := "function A(Foo, B) {}";
            fn_body := λ _ _ _, (Normal VUndefined, 0) |}
  | _ => {| fn_name := "Broken"; fn_prototype_name := EmptyString;
            fn_constructor_name := "Function";
            fn_source := "function Broken() { throw new Error('boom') }";
            fn_body := λ _ _ _, (Abrupt (VError "Error" ["boom"]), 0) |}
  end.

(** [new Container] in that program. *)
Definition fresh : State := constructor funs (λ _, "Object").

(** The state a call leaves behind. *)
Definition after {A} (m : M A) (s : State) : State :=
  match m s with
  | Ok _ s' | Throw _ s' => s'
  | OutOfFuel => s
  end.

Definition handler : ErrorHandler := {| eh_ref := 100; eh_handle := VFun 4 |}.

(** A deferred provider of two aliases bound to values. *)
Definition DeferredProvider : ServiceProvider :=
  {| sp_name := "DeferredProvider"; sp_isDeferred := true;
     sp_provides := ["X"; "Y"];
     sp_register := [("X", VNum 1, true); ("Y", VNum 2, true)] |}.

End Examples.

(** * More functions for the concrete runs *)

Module Samples.

(** More functions of a host program, beside those of [Examples.funs]:
    - 9: [function () { return null }];
    - 10: the [handle] method of an error handler that returns a text;
    - 11: [function () { return 42 }];
    - 12: [async function () {}], which returns a promise when called and
      is no constructor. *)
Definition funs (fid : nat) : Callable :=
  match fid with
  | 9 => {| fn_name := EmptyString; fn_prototype_name := EmptyString;
            fn_constructor_name := "Function";
            fn_source := "function () { return null }";
            fn_body := λ _ _ _, (Normal VNull, 0) |}
  | 10 => {| fn_name := "handle"; fn_prototype_name := EmptyString;
             fn_constructor_name := "Function";
             fn_source := "function handle(error) { return 'fallback' }";
             fn_body := λ _ _ _, (Normal (VStr "fallback"), 0) |}
  | 11 => {| fn_name := EmptyString; fn_prototype_name := EmptyString;
             fn_constructor_name := "Function";
             fn_source := "function () { return 42 }";
             fn_body := λ _ _ _, (Normal (VNum 42), 0) |}
  | 12 => {| fn_name := EmptyString; fn_prototype_name := EmptyString;
             fn_constructor_name := "AsyncFunction";
             fn_source := "async function () {}";
             fn_body := λ this _ n,
               match this with
               | VObj _ => (Abrupt (VError "TypeError" ["construct is not a constructor"]), 0)
               | _ => (Normal (VObj n), 1)
               end |}
  | _ => Examples.funs fid
  end.

Definition fresh : State := constructor funs (λ _, "Object").

Definition handler : ErrorHandler := {| eh_ref := 100; eh_handle := VFun 10 |}.

End Samples.

(** * Properties of the parameter reader *)

Section ReadArguments.

Lemma trimStart_head c r s : trimStart s = String c r → isWhiteSpace c = false.
Proof.
  induction s as [|a s IH]; simpl; [discriminate|].
  destruct (isWhiteSpace a) eqn:Ha; [exact IH|].
  intros [= <- <-]. exact Ha.
Qed.

Lemma trimEnd_empty s : trimEnd s = EmptyString → trimStart s = EmptyString.
Proof.
  induction s as [|a s IH]; simpl; [reflexivity|].
  destruct (trimEnd s) eqn:Hs; [|discriminate].
  destruct (isWhiteSpace a); [intros _; auto|discriminate].
Qed.

Lemma trimEnd_idem s : trimEnd (trimEnd s) = trimEnd s.
Proof.
  induction s as [|a s IH]; simpl; [reflexivity|].
  destruct (trimEnd s) as [|b t] eqn:Hs.
  - destruct (isWhiteSpace a) eqn:Ha; simpl; [reflexivity|]. by rewrite Ha.
  - simpl in *. by rewrite IH.
Qed.

Lemma trimEnd_head c r s : trimEnd (String c s) = String c r → r = trimEnd s.
Proof.
  simpl. destruct (trimEnd s) eqn:Hs.
  - destruct (isWhiteSpace c); [discriminate|]. by intros [= <-].
  - by intros [= <-].
Qed.

Lemma trimStart_trimEnd s : trimStart (trimEnd (trimStart s)) = trimEnd (trimStart s).
Proof.
  destruct (trimStart s) as [|c r] eqn:Hs; [reflexivity|].
  pose proof (trimStart_head _ _ _ Hs) as Hc.
  simpl. destruct (trimEnd r); rewrite ?Hc; simpl; by rewrite ?Hc.
Qed.

(** Trimming is idempotent: a trimmed text has no white space left at
    either end. *)
Lemma trim_idem s : trim (trim s) = trim s.
Proof. unfold trim. by rewrite trimStart_trimEnd, trimEnd_idem. Qed.

(** Every name the reader returns is trimmed and not empty. *)
Lemma _readArguments_entries source arg :
  arg ∈ _readArguments source → trim arg = arg ∧ arg ≠ EmptyString.
Proof.
  unfold _readArguments.
  destruct (matchFunction source) as [args1|]; [|by intros ?%elem_of_nil].
  destruct (nonEmpty args1); [|by intros ?%elem_of_nil].
  intros [Hne Hin]%list_elem_of_filter.
  apply list_elem_of_fmap in Hin as (piece & -> & _).
  split; [apply trim_idem|].
  intros Heq. unfold nonEmpty in Hne. by rewrite Heq in Hne.
Qed.

End ReadArguments.

(** * Properties of objects *)

Lemma prop_insert (m : gmap string value) a v x :
  prop (<[a := v]> m) x = if decide (a = x) then v else prop m x.
Proof. unfold prop. rewrite lookup_insert. by destruct (decide (a = x)). Qed.

Lemma prop_delete (m : gmap string value) a x :
  prop (delete a m) x = if decide (a = x) then VUndefined else prop m x.
Proof. unfold prop. rewrite lookup_delete. by destruct (decide (a = x)). Qed.

(** * Reasoning about container programs *)

Section WpRules.
Context {A B : Type}.
Implicit Types (Q : A → State → Prop) (E : value → State → Prop) (F : Prop).

Lemma wp_ret (a : A) s Q E F : Q a s → wp (mret a) s Q E F.
Proof. done. Qed.

Lemma wp_gets (f : State → A) s Q E F : Q (f s) s → wp (gets f) s Q E F.
Proof. done. Qed.

Lemma wp_throw e s Q E F : E e s → wp (throw e) s Q E F.
Proof. done. Qed.

Lemma wp_bind (m : M A) (k : A → M B) s (Q : B → State → Prop) E F :
  wp m s (λ a s', wp (k a) s' Q E F) E F → wp (m ≫= k) s Q E F.
Proof. unfold wp, mbind, M_bind. by destruct (m s). Qed.

Lemma wp_try_catch (m : M A) h s Q E F :
  wp m s Q (λ e s', wp (h e) s' Q E F) F → wp (try_catch m h) s Q E F.
Proof. unfold wp, try_catch. by destruct (m s). Qed.

Lemma wp_mono (m : M A) s Q Q' E E' F F' :
  wp m s Q E F →
  (∀ a s', Q a s' → Q' a s') → (∀ e s', E e s' → E' e s') → (F → F') →
  wp m s Q' E' F'.
Proof. unfold wp. destruct (m s); auto. Qed.

Lemma wp_ok (m : M A) s a s' Q E F : m s = Ok a s' → wp m s Q E F → Q a s'.
Proof. unfold wp. by intros ->. Qed.

Lemma wp_thrown (m : M A) s e s' Q E F : m s = Throw e s' → wp m s Q E F → E e s'.
Proof. unfold wp. by intros ->. Qed.
End WpRules.

Lemma wp_modify f s (Q : unit → State → Prop) E F : Q tt (f s) → wp (modify f) s Q E F.
Proof. done. Qed.

Lemma wp_when (b : bool) m s (Q : unit → State → Prop) E F :
  (b = true → wp m s Q E F) → (b = false → Q tt s) → wp (when b m) s Q E F.
Proof. destruct b; simpl; intros H1 H2; [by apply H1 | by apply wp_ret, H2]. Qed.

(** A loop whose body keeps [I], normally and abruptly. *)
Lemma wp_forEach {A} (l : list A) (f : A → M unit) (I : State → Prop) E F s :
  I s →
  (∀ x s', x ∈ l → I s' → wp (f x) s' (λ _, I) E F) →
  wp (forEach l f) s (λ _, I) E F.
Proof.
  revert s. induction l as [|x l IH]; intros s Hs Hf; simpl; [done|].
  apply wp_bind. eapply wp_mono; [apply Hf; [left|done] | | done | done].
  intros a s' Hs'. simpl in *. apply IH; [done|].
  intros y s'' Hy. apply Hf. by right.
Qed.

(** Symbolic execution of straight-line container code. *)
Ltac st_simpl :=
  cbn [_providers _bindings _resolved _injections _shouldShare _sharedWith
       _sharable _debug _errorHandler _logOutput w_funs w_objname w_next
       w_props w_events
       set_providers set_bindings set_resolved set_injections set_shouldShare
       set_sharedWith set_sharable set_debug set_errorHandler set_logOutput
       set_next set_props set_events] in *.

Ltac wp_step :=
  lazymatch goal with
  | |- wp (mret _) _ _ _ _ => apply wp_ret
  | |- wp (gets _) _ _ _ _ => apply wp_gets
  | |- wp (modify _) _ _ _ _ => apply wp_modify
  | |- wp (throw _) _ _ _ _ => apply wp_throw
  | |- wp (_ ≫= _) _ _ _ _ => apply wp_bind
  | |- wp (try_catch _ _) _ _ _ _ => apply wp_try_catch
  | |- wp (when _ _) _ _ _ _ => apply wp_when; intros ?
  | |- wp (if ?b then _ else _) _ _ _ _ => destruct b eqn:?
  | |- wp (match ?x with _ => _ end) _ _ _ _ => destruct x eqn:?
  end.

Ltac wp_run := repeat wp_step; st_simpl.

Lemma stable_ambient P : steady P → ambient P.
Proof. intros HP. split; apply HP. Qed.

Lemma wp_keeps {A B} (P : State → Prop) (m : M A) (k : A → M B) s Q E F :
  keeps P m → P s →
  (∀ a s', P s' → wp (k a) s' Q E F) → (∀ e s', P s' → E e s') →
  wp (m ≫= k) s Q E F.
Proof.
  intros Hm Hs Hk HE. apply wp_bind.
  eapply wp_mono; [by apply Hm | by auto | by auto | done].
Qed.

Lemma keeps_wp {A} (P : State → Prop) (m : M A) s (Q : A → State → Prop) E F :
  keeps P m → P s → (∀ a s', P s' → Q a s') → (∀ e s', P s' → E e s') →
  wp m s Q E F.
Proof. intros Hm Hs HQ HE. eapply wp_mono; [by apply Hm | by auto | by auto | done]. Qed.

(** Runs the operation at the head of the program by a lemma saying what
    it keeps. *)
Ltac wp_keep H :=
  lazymatch goal with
  | |- wp (_ ≫= _) _ _ _ _ => apply wp_bind
  | _ => idtac
  end;
  eapply keeps_wp; [apply H | try done | | try done].

(** Discharges [P (set_... (set_... s))] for a stable [P]. *)
Ltac stable_tac HP :=
  repeat first
    [ assumption
    | apply (st_logOutput _ HP)
    | apply (st_props _ HP) | apply (st_sharedWith _ HP)
    | eapply (st_events _ HP); [reflexivity|]
    | apply (st_next _ HP); [st_simpl; lia|]
    | eapply (st_delete _ HP); [reflexivity|] ].

Section Ambient.
Context (P : State → Prop) (HA : ambient P).

Ltac ambient_run :=
  intros s Hs; wp_run;
  repeat first
    [ assumption | apply (am_logOutput _ HA) | apply (am_props _ HA)
    | apply (am_sharedWith _ HA) ].

Lemma ambient_log msg : keeps P (log msg).
Proof. unfold log. ambient_run. Qed.

Lemma ambient_getSharedAliasName alias : keeps P (getSharedAliasName alias).
Proof. unfold getSharedAliasName. ambient_run. Qed.

Lemma ambient_destroyReference_props key object :
  keeps P (_destroyReference slot_truthy key
             (λ s, default ∅ (w_props s !! object))
             (λ o s, set_props (<[object := o]> (w_props s)) s)).
Proof. unfold _destroyReference, log. ambient_run. Qed.

Lemma ambient_unShare alias : keeps P (unShare alias).
Proof.
  intros s Hs. unfold unShare.
  wp_keep ambient_log. intros _ s1 Hs1. wp_run; [|done].
  eapply wp_mono with (Q := λ _, P) (E := λ _, P) (F := False);
    [apply wp_forEach; [done|] | | done | done].
  - intros object s2 _ Hs2.
    wp_keep ambient_log. intros _ s3 Hs3.
    wp_keep ambient_getSharedAliasName. intros key s4 Hs4.
    by apply ambient_destroyReference_props.
  - intros _ s2 Hs2. wp_run. by apply (am_sharedWith _ HA).
Qed.
End Ambient.

Section Stable.
Context (P : State → Prop) (HP : steady P).

Ltac keeps_run := intros s Hs; wp_run; stable_tac HP.

Lemma keeps_log msg : keeps P (log msg).
Proof. apply ambient_log, stable_ambient, HP. Qed.

Lemma keeps_invoke fid this args : keeps P (invoke fid this args).
Proof.
  intros s Hs. unfold wp, invoke.
  destruct (fn_body _ _ _ _) as [[v|e] k]; stable_tac HP.
Qed.

Lemma keeps_handleError e : keeps P (handleError e).
Proof.
  intros s Hs. unfold handleError. wp_run; stable_tac HP.
  by apply keeps_invoke.
Qed.

Lemma keeps_getSharedAliasName alias : keeps P (getSharedAliasName alias).
Proof. apply ambient_getSharedAliasName. Qed.

Lemma keeps_destroyReference_resolved alias :
  keeps P (_destroyReference truthy alias _resolved set_resolved).
Proof. unfold _destroyReference, log. keeps_run. Qed.

Lemma keeps_unShare alias : keeps P (unShare alias).
Proof. apply ambient_unShare, stable_ambient, HP. Qed.

Lemma keeps_destroy alias : keeps P (destroy alias).
Proof.
  intros s Hs. unfold destroy. wp_run; [|done].
  wp_keep keeps_unShare. intros _ s1 Hs1.
  wp_keep keeps_log. intros _ s2 Hs2.
  wp_keep keeps_destroyReference_resolved. intros _ s3 Hs3.
  wp_keep keeps_log. intros _ s4 Hs4. by apply wp_ret.
Qed.

Lemma keeps_findProvider alias : keeps P (_findProvider alias).
Proof. unfold _findProvider, log. keeps_run. Qed.

Lemma keeps_bootProvider p : keeps P (_bootProvider p).
Proof. unfold _bootProvider, provider_load, log. keeps_run. Qed.

Lemma keeps_getInstance alias : keeps P (getInstance alias).
Proof. unfold getInstance, log. keeps_run. Qed.

Lemma keeps_construct fid args : keeps P (construct fid args).
Proof.
  intros s Hs. unfold construct. wp_run.
  eapply keeps_wp; [apply keeps_invoke | stable_tac HP | | done].
  intros r s1 Hs1. by apply wp_ret.
Qed.

Lemma keeps_makeConcrete binding injections : keeps P (_makeConcrete binding injections).
Proof.
  intros s Hs. unfold _makeConcrete. apply wp_try_catch.
  destruct binding as [| | | | | |fid|];
    try (apply wp_throw; by apply keeps_handleError).
  apply wp_bind, wp_gets, wp_bind.
  eapply wp_mono with (Q := λ _, P) (E := λ _, P) (F := False);
    [ destruct (negb _); [by apply keeps_invoke | by apply keeps_construct]
    | | intros e s1 Hs1; by apply keeps_handleError | done ].
  intros concrete s1 Hs1. unfold log. destruct concrete; wp_run; stable_tac HP;
    by apply keeps_handleError.
Qed.

(** Storing the instance of a bound, sharable alias, when [P] allows an
    instance to be stored for it. *)
Lemma keeps_setInstance alias concrete s E F :
  (∀ s0 v m, m = <[alias:=v]> (_resolved s0) →
     isBound s0 alias = true → canShare s0 alias = true → P s0 → P (set_resolved m s0)) →
  P s → isBound s alias = true → canShare s alias = true →
  wp (setInstance alias concrete true) s (λ _, P) E F.
Proof.
  intros Hins Hs Hb Hc. unfold setInstance, log. wp_run.
  - unfold canShare in Hc. rewrite Hc in *. done.
  - eapply Hins; [reflexivity|done|done|]. stable_tac HP.
Qed.
End Stable.

(** ** The injection stack and the fuel a resolution needs *)

Lemma indexOf_push d st : d ∉ st → indexOf d (st ++ [d]) = Some (length st).
Proof.
  induction st as [|x st IH]; simpl; intros Hd.
  - by rewrite decide_True.
  - rewrite decide_False by (intros ->; apply Hd; left).
    rewrite IH; [done|]. intros ?. apply Hd. by right.
Qed.

(** Popping the dependency pushed last restores the stack. *)
Lemma splice_indexOf_push d st : d ∉ st → splice_indexOf d (st ++ [d]) = st.
Proof.
  intros Hd. unfold splice_indexOf. rewrite indexOf_push by done.
  induction st as [|x st IH]; simpl; [done|].
  f_equal. apply IH. intros ?. apply Hd. by right.
Qed.

Lemma filter_push_le (l st : list string) d :
  length (filter (λ a, a ∉ st ++ [d]) l) ≤ length (filter (λ a, a ∉ st) l).
Proof.
  induction l as [|a l IH]; simpl; [done|].
  rewrite !filter_cons.
  destruct (decide (a ∉ st ++ [d])) as [Ha|Ha].
  - rewrite decide_True; [simpl; lia|]. intros ?. apply Ha, elem_of_app. by left.
  - destruct (decide (a ∉ st)); simpl; lia.
Qed.

Lemma filter_push_lt (l st : list string) d :
  d ∈ l → d ∉ st →
  length (filter (λ a, a ∉ st ++ [d]) l) < length (filter (λ a, a ∉ st) l).
Proof.
  intros Hl Hd. induction l as [|a l IH]; [by apply elem_of_nil in Hl|].
  rewrite !filter_cons. apply elem_of_cons in Hl as [<-|Hl].
  - rewrite decide_False by (intros H; apply H, elem_of_app; right; left).
    rewrite decide_True by done. simpl.
    pose proof (filter_push_le l st d). lia.
  - specialize (IH Hl).
    destruct (decide (a ∉ st ++ [d])) as [Ha|Ha].
    + rewrite decide_True; [simpl; lia|]. intros ?. apply Ha, elem_of_app. by left.
    + destruct (decide (a ∉ st)); simpl; lia.
Qed.

(** Pushing a dependency that has a binding lowers the fuel needed. *)
Lemma need_push s s' d :
  _bindings s' = _bindings s → _injections s' = _injections s ++ [d] →
  is_Some (_bindings s !! d) → d ∉ _injections s → need s' < need s.
Proof.
  intros Hb Hi Hd Hst. unfold need, pending. rewrite Hb, Hi.
  assert (d ∈ elements (dom (_bindings s))) as Hin
    by by apply elem_of_elements, elem_of_dom.
  pose proof (filter_push_lt _ _ _ Hin Hst). lia.
Qed.

Lemma need_eq s s' :
  _bindings s' = _bindings s → _injections s' = _injections s → need s' = need s.
Proof. intros Hb Hi. unfold need, pending. by rewrite Hb, Hi. Qed.

Lemma need_bound s : need s ≤ size (_bindings s) + 2.
Proof.
  unfold need, pending.
  pose proof (length_filter (λ a, a ∉ _injections s) (elements (dom (_bindings s)))) as H.
  rewrite <- size_dom. unfold size at 1, set_size. simpl. lia.
Qed.

(** ** What every resolution keeps *)

Lemma steady_framed (P : State → Prop) b l st :
  steady P →
  steady (λ s, (P s ∧ _bindings s = b ∧ _sharable s = l) ∧ _injections s = st).
Proof.
  intros HP. split.
  - intros s v [(? & ? & ?) ?]. repeat split; try done. by apply (st_logOutput _ HP).
  - intros s v [(? & ? & ?) ?]. repeat split; try done. by apply (st_props _ HP).
  - intros s v [(? & ? & ?) ?]. repeat split; try done. by apply (st_sharedWith _ HP).
  - intros s e ev ? [(? & ? & ?) ?]. repeat split; try done. by eapply (st_events _ HP).
  - intros s n ? [(? & ? & ?) ?]. repeat split; try done. by apply (st_next _ HP).
  - intros s a m ? [(? & ? & ?) ?]. repeat split; try done. by eapply (st_delete _ HP).
Qed.

Lemma stable_framed (P : State → Prop) b l st :
  stable P →
  stable (λ s, (P s ∧ _bindings s = b ∧ _sharable s = l) ∧ _injections s = st).
Proof.
  intros HP. split; [by apply steady_framed, HP|].
  intros s a v m ? ? ? [(? & ? & ?) ?]. repeat split; try done.
  by eapply (st_insert _ HP).
Qed.

Lemma unbound_resolve_total fuel alias rb s :
  isBound s alias = false → _resolve (S fuel) alias rb s ≠ OutOfFuel.
Proof.
  intros Hb. assert (steady (λ s, isBound s alias = false)) as HS by (by split).
  assert (∀ A (m : M A) s, wp m s (λ _ _, True) (λ _ _, True) False → m s ≠ OutOfFuel) as Hwp.
  { intros A m s0. unfold wp. by destruct (m s0). }
  apply Hwp. simpl. wp_run.
  - eapply keeps_wp; [by apply keeps_getInstance | done | done | done].
  - wp_keep (keeps_destroy _ HS). intros _ s1 Hs1. wp_run; [|by rewrite Hs1 in *].
    eapply keeps_wp; [by apply keeps_handleError | done | done | done].
  - eapply keeps_wp; [by apply keeps_handleError | done | done | done].
  - by rewrite Hb in *.
Qed.

Section Blocked.
Context (P : State → Prop) (blocked : string → Prop).
Context (HP : steady P) (HB : blocking P blocked) (HI : ignores_stack P).

Lemma inject_blocked fuel resolve :
  (∀ d s, P s → resolution_unless (blocked d) P fuel (resolve d) s) →
  (∀ d s, 0 < fuel → isBound s d = false → resolve d s ≠ OutOfFuel) →
  ∀ dependencies alias injections s,
    P s →
    resolution_unless (∃ d, d ∈ dependencies ∧ blocked d) P (S fuel)
      (inject resolve alias dependencies injections) s.
Proof.
  intros Hres Hunb. induction dependencies as [|d rest IH]; intros alias injs s Hs.
  - simpl. apply wp_ret. split; [|done]. intros (d & Hd & _). by apply elem_of_nil in Hd.
  - unfold resolution_unless. simpl. unfold log. apply wp_bind, wp_gets.
    destruct (includes d (_injections s)) eqn:Hinc; [by apply wp_throw|].
    apply bool_decide_eq_false in Hinc.
    apply wp_bind, wp_modify, wp_bind, wp_modify, wp_bind.
    match goal with |- wp _ ?s1 _ _ _ => set (s1' := s1) end.
    assert (P s1') as Hs1 by (apply HI; by apply (st_logOutput _ HP)).
    specialize (Hres d s1' Hs1). unfold resolution_unless, wp in *.
    destruct (resolve d s1') as [v s2|e s2|] eqn:Hr.
    + destruct Hres as (Hnb & Hs2 & [Hb2 Hl2] & Hi2). st_simpl.
      apply wp_bind, wp_modify.
      match goal with |- wp _ ?s3 _ _ _ => set (s3' := s3) end.
      assert (P s3') as Hs3 by by apply HI.
      assert (_injections s3' = _injections s) as Hi3.
      { subst s3'. st_simpl. rewrite Hi2. subst s1'. st_simpl.
        by apply splice_indexOf_push. }
      specialize (IH alias (injs ++ [v]) s3' Hs3). unfold wp in IH.
      rewrite (need_eq s s3') in IH by (try done; subst s3' s1'; st_simpl; congruence).
      unfold wp. unfold same_frame in *.
      destruct (inject _ _ _ _ s3') as [v' s4|e s4|]; [| |done].
      * destruct IH as (Hrest & ? & [? ?] & ?). subst s3' s1'. st_simpl.
        split; [|repeat split; congruence].
        intros (d0 & Hd0 & Hbd0). apply elem_of_cons in Hd0 as [->|Hd0]; [done|].
        apply Hrest. eauto.
      * destruct IH as (? & [? ?]). subst s3' s1'. st_simpl.
        repeat split; congruence.
    + destruct Hres as (Hs2 & [Hb2 Hl2]). subst s1'. st_simpl. by repeat split.
    + destruct (decide (is_Some (_bindings s !! d))) as [Hd|Hd].
      * assert (need s1' < need s); [|lia].
        apply (need_push s s1' d); subst s1'; by st_simpl.
      * destruct fuel as [|fuel]; [unfold need; lia|].
        exfalso. eapply (Hunb d s1'); [lia| |done].
        subst s1'. unfold isBound, prop. st_simpl.
        by destruct (_bindings s !! d) as [x|]; [destruct Hd; eauto|].
Qed.

(** A resolution keeps [P] and the frame, and yields no instance for a
    blocked alias. *)
Lemma resolve_blocked fuel :
  ∀ alias rb s, P s → resolution_unless (blocked alias) P fuel (_resolve fuel alias rb) s.
Proof.
  induction fuel as [|fuel IH]; intros alias rb s Hs.
  { unfold resolution_unless, wp, need. simpl. lia. }
  set (J := λ s', (P s' ∧ _bindings s' = _bindings s ∧ _sharable s' = _sharable s)
                  ∧ _injections s' = _injections s).
  assert (steady J) as HJ by apply steady_framed, HP.
  assert (J s) as HJs by done.
  assert (∀ (e : value) s', J s' → P s' ∧ same_frame s s') as HE
    by (by intros _ s' [(? & ? & ?) ?]).
  unfold resolution_unless.
  apply wp_mono with (Q := λ _ s', ¬ blocked alias ∧ J s')
                     (E := λ _ s', P s' ∧ same_frame s s')
                     (F := S fuel < need s);
    [|by intros _ s' (? & (? & ? & ?) & ?)|done|done].
  simpl. apply wp_bind, wp_gets.
  destruct (_ && _ && _) eqn:Hcached.
  { assert (¬ blocked alias) as Hnb.
    { intros Hbl. rewrite (bl_unresolved _ _ HB s alias Hs Hbl) in Hcached. done. }
    wp_keep (keeps_getInstance _ HJ); done. }
  clear Hcached. apply wp_bind.
  apply wp_mono with (Q := λ _, J) (E := λ _, J) (F := False); [|clear HJs|done|done].
  { destruct rb; cbn [when]; [|done]. wp_keep (keeps_destroy _ HJ). by intros _ s1 Hs1. }
  intros _ s1 Hs1. apply wp_bind, wp_gets.
  destruct (isBound s1 alias) eqn:Hbound; cbn [negb].
  2:{ assert (¬ blocked alias) as Hnb.
      { intros Hbl. destruct Hs1 as [(HP1 & _) _].
        destruct (bl_depends _ _ HB s1 alias HP1 Hbl) as (fid & d & Hfid & _).
        unfold isBound in Hbound. by rewrite Hfid in Hbound. }
      wp_keep (keeps_handleError _ HJ); done. }
  wp_keep (keeps_findProvider _ HJ). intros provider s2 Hs2. apply wp_bind.
  apply wp_mono with (Q := λ _, J) (E := λ _, J) (F := False); [|clear Hs2|done|done].
  { destruct provider as [p|]; [|done]. destruct (sp_isDeferred p); [|done].
    cbn [when]. wp_keep (keeps_log _ HJ). intros _ s3 Hs3.
    wp_keep (keeps_bootProvider _ HJ); auto. }
  intros _ s3 Hs3. apply wp_bind.
  apply wp_mono with (Q := λ _ s', ¬ blocked alias ∧ J s')
                     (E := λ _ s', P s' ∧ same_frame s s')
                     (F := S fuel < need s); [|clear Hs3|done|done].
  { unfold _resolveIfNotResolved. wp_keep (keeps_log _ HJ). intros _ s4 Hs4.
    apply wp_bind, wp_gets.
    destruct Hs4 as [(HP4 & Hb4 & Hl4) Hi4].
    destruct (isCallable (prop (_bindings s4) alias)) eqn:Hcall.
    2:{ apply wp_ret. split; [|done]. intros Hbl.
        destruct (bl_depends _ _ HB s4 alias HP4 Hbl) as (fid & d & Hfid & _).
        by rewrite Hfid in Hcall. }
    unfold _prepareForInjection. rewrite Hcall.
    apply wp_bind, wp_bind, wp_gets.
    eapply wp_mono;
      [apply (inject_blocked fuel); [by auto | | done] | | |].
    - intros d s0 Hfuel Hunb. destruct fuel; [lia|]. by apply unbound_resolve_total.
    - intros injections s5 (Hnone & HP5 & [Hb5 Hl5] & Hi5).
      assert (¬ blocked alias) as Hnb.
      { intros Hbl. apply Hnone.
        destruct (bl_depends _ _ HB s4 alias HP4 Hbl) as (fid & d & Hfid & Hd & Hbd).
        exists d. by rewrite Hfid. }
      wp_keep (keeps_makeConcrete _ HJ); [repeat split; congruence|auto].
    - intros e s5 (HP5 & [Hb5 Hl5]). repeat split; congruence.
    - by rewrite (need_eq s s4). }
  intros instance s4 [Hnb Hs4]. apply wp_bind, wp_gets, wp_bind.
  apply wp_mono with (Q := λ _, J) (E := λ _, J) (F := False);
    [|intros; by apply wp_ret|done|done].
  destruct (canShare s4 alias) eqn:Hcan; [|done]. cbn [when].
  wp_keep (keeps_log _ HJ). intros _ s5 Hs5. apply wp_bind.
  apply wp_mono with (Q := λ _, J) (E := λ _, J) (F := False);
    [apply (keeps_setInstance _ HJ) | intros; by apply wp_ret | auto | done];
    [|done| |].
  - intros s0 v m -> Hb0 Hc0 [(HP0 & ? & ?) ?]. repeat split; try done.
    by apply (bl_insert _ _ HB s0 alias v).
  - destruct Hs1 as [(_ & Hb1 & _) _], Hs5 as [(_ & Hb5 & _) _].
    unfold isBound in *. congruence.
  - destruct Hs4 as [(_ & _ & Hl4) _], Hs5 as [(_ & _ & Hl5) _].
    unfold canShare in *. congruence.
Qed.
End Blocked.

(** No alias is blocked under a stable predicate. *)
Lemma stable_blocking P : stable P → blocking P (λ _, False).
Proof.
  intros HP. split; [|done|done].
  intros s a v m ? ? ? _. by apply (st_insert _ HP s a v).
Qed.

Section ResolveSpec.
Context (P : State → Prop) (HP : stable P) (HI : ignores_stack P).

Lemma inject_spec fuel resolve :
  (∀ d s, P s → resolution P fuel (resolve d) s) →
  (∀ d s, 0 < fuel → isBound s d = false → resolve d s ≠ OutOfFuel) →
  ∀ dependencies alias injections s,
    P s → resolution P (S fuel) (inject resolve alias dependencies injections) s.
Proof.
  intros Hres Hunb dependencies alias injections s Hs.
  eapply wp_mono;
    [apply (inject_blocked P (λ _, False) HP HI fuel resolve)
    | | |]; try done.
  - intros d s0 Hs0. eapply wp_mono; [by apply Hres| | |]; try done.
    intros v s1 H1. split; [tauto|done].
  - by intros v s' (_ & ?).
Qed.

Lemma resolve_spec fuel :
  ∀ alias rb s, P s → resolution P fuel (_resolve fuel alias rb) s.
Proof.
  intros alias rb s Hs.
  eapply wp_mono;
    [by apply (resolve_blocked P (λ _, False) HP (stable_blocking P HP) HI) | | |];
    try done.
  by intros v s' (_ & ?).
Qed.

(** With the fuel [need] asks for, a resolution comes to an end. *)
Lemma resolve_total fuel alias rb s :
  P s → need s ≤ fuel →
  wp (_resolve fuel alias rb) s
    (λ _ s', P s' ∧ same_frame s s' ∧ _injections s' = _injections s)
    (λ _ s', P s' ∧ same_frame s s')
    False.
Proof.
  intros Hs Hfuel. eapply wp_mono; [by apply resolve_spec|done|done|lia].
Qed.

(** The dependencies of a binding are resolved within the same contract. *)
Lemma prepare_spec fuel alias instance s :
  P s →
  resolution P (S fuel) (_prepareForInjection (λ d, _resolve fuel d false) alias instance) s.
Proof.
  intros Hs. unfold _prepareForInjection.
  destruct (isCallable instance); [|by apply wp_ret].
  unfold resolution. apply wp_bind, wp_gets. apply inject_spec; [|intros d s0 Hf|done].
  - intros d s0 Hs0. by apply resolve_spec.
  - destruct fuel; [lia|]. apply unbound_resolve_total.
Qed.
End ResolveSpec.




(** * The claims *)

(** C8 (code does otherwise): the names [_readArguments] returns are
    trimmed and none is empty, but an inline comment in the parameter list
    is not skipped: it stays in the dependency name. *)
Theorem C8_readArguments_keeps_inline_comments :
  _readArguments (fn_source (Examples.funs 5)) = ["Logger /* the logger */"; "Config"]
  ∧ ∀ source arg, arg ∈ _readArguments source → trim arg = arg ∧ arg ≠ EmptyString.
Proof. split; [reflexivity|]. apply _readArguments_entries. Qed.

(** The theorem at work on the second parameter of the commented list. *)
Lemma C8_witness :
  "Config" ∈ _readArguments (fn_source (Examples.funs 5))
  ∧ trim "Config" = "Config" ∧ "Config" ≠ EmptyString.
Proof.
  assert ("Config" ∈ _readArguments (fn_source (Examples.funs 5))) as Hin.
  { vm_compute. right. left. }
  split; [exact Hin|].
  exact (proj2 C8_readArguments_keeps_inline_comments _ _ Hin).
Defined.

(** C4 (code does otherwise): when the call of a binding that is not
    class-like returns [undefined], [_makeConcrete] returns the Binding
    Exception object in place of the instance; nothing is raised and
    [handleError] is not reached.  [make] then returns that object as the
    resolved instance and caches it, with or without an error handler. *)
Theorem C4_undefined_result_is_returned_not_raised :
  (∀ s fid injections k,
     isClass s (VFun fid) = false →
     fn_body (w_funs s fid) VNull injections (w_next s) = (Normal VUndefined, k) →
     _makeConcrete (VFun fid) injections s
     = Ok (makeException "Binding Exception"
             ["Binding " +:+ fn_source (w_funs s fid)
              +:+ " failed, return value is undefined."])
          (invoked fid injections k s))
  ∧ (let s := Examples.after (bind "Service" (VFun 1) true) Examples.fresh in
     let e := VError "Container Binding Exception"
                ["Binding function () {} failed, return value is undefined."] in
     returns (make 2 "Service") s
       (λ v s', v = e ∧ prop (_resolved s') "Service" = e ∧ w_events s' = [EvInvoke 1 []])
     ∧ returns (errorHandler Examples.handler;; make 2 "Service") s
         (λ v s', v = e ∧ w_events s' = [EvInvoke 1 []])).
Proof.
  split.
  - intros s fid injections k Hcls Hbody.
    unfold _makeConcrete, try_catch, mbind, M_bind, gets. rewrite Hcls. cbn [negb].
    unfold invoke. by rewrite Hbody.
  - vm_compute. done.
Qed.

(** The theorem at work on [function () {}]. *)
Lemma C4_witness :
  _makeConcrete (VFun 1) [] Examples.fresh
  = Ok (VError "Container Binding Exception"
          ["Binding function () {} failed, return value is undefined."])
       (invoked 1 [] 0 Examples.fresh).
Proof.
  apply (proj1 C4_undefined_result_is_returned_not_raised Examples.fresh 1 [] 0);
    reflexivity.
Defined.



(** ** The pipeline *)

Section PipelineLaws.
Import Kernel.
Context {St R : Type}.

Lemma thread_handle_passing (tr : list ((St → St) * (St → St))) state (callback : St → R) :
  thread Handle (pipe_of <$> tr) state callback
  = callback (fold_left (λ st t, t.1 st) tr state).
Proof. revert state. induction tr as [|t tr IH]; intros state; simpl; [done|]. apply IH. Qed.

Lemma thread_terminate_passing (tr : list ((St → St) * (St → St))) state (callback : St → R) :
  thread Terminate (pipe_of <$> tr) state callback
  = callback (fold_left (λ st t, t.2 st) tr state).
Proof. revert state. induction tr as [|t tr IH]; intros state; simpl; [done|]. apply IH. Qed.

(** The convenience forms are the chained forms. *)
Lemma handle_is_via k initial (callback : St → R) :
  handle k initial callback
  = then_ (via Handle (through (middleware k) (send initial))) callback.
Proof. reflexivity. Qed.

Lemma terminate_is_via k initial (callback : St → R) :
  terminate k initial callback
  = then_ (via Terminate (through (middleware k) (send initial))) callback.
Proof. reflexivity. Qed.
End PipelineLaws.

Lemma rev_fmap {A B} (f : A → B) (l : list A) : rev (f <$> l) = f <$> rev l.
Proof. rewrite !rev_alt. symmetry. apply (fmap_reverse f l). Qed.

Lemma fold_markers (l : list nat) (acc : list nat) :
  fold_left (λ st (t : (list nat → list nat) * (list nat → list nat)), t.1 st)
    ((λ i, ((λ l, l ++ [i]), (λ l, l ++ [i]))) <$> l) acc = acc ++ l.
Proof.
  revert acc. induction l as [|i l IH]; intros acc; simpl; [by rewrite app_nil_r|].
  rewrite IH. by rewrite <- app_assoc.
Qed.

Lemma fold_markers_down (l : list nat) (acc : list nat) :
  fold_left (λ st (t : (list nat → list nat) * (list nat → list nat)), t.2 st)
    ((λ i, ((λ l, l ++ [i]), (λ l, l ++ [i]))) <$> l) acc = acc ++ l.
Proof.
  revert acc. induction l as [|i l IH]; intros acc; simpl; [by rewrite app_nil_r|].
  rewrite IH. by rewrite <- app_assoc.
Qed.

(** C7: when every pipe passes a transformed state to its continuation,
    [via('handle')] runs the pipes in array order from index 0 and
    [via('terminate')] in reverse array order from the last index, and the
    terminal callback receives the final state; four incrementing pipes take
    [{state: 1}] to [{state: 5}], and back when run in reverse. *)
Theorem C7_pipes_run_in_order_and_in_reverse :
  (∀ (St R : Type) (tr : list ((St → St) * (St → St))) (initial : St) (callback : St → R),
     Kernel.then_ (Kernel.via Kernel.Handle
                     (Kernel.through (pipe_of <$> tr) (Kernel.send initial))) callback
     = callback (fold_left (λ st t, t.1 st) tr initial)
     ∧ Kernel.then_ (Kernel.via Kernel.Terminate
                       (Kernel.through (pipe_of <$> tr) (Kernel.send initial))) callback
       = callback (fold_right (λ t st, t.2 st) initial tr))
  ∧ (∀ n : nat,
       Kernel.via Kernel.Handle
         (Kernel.through (marker <$> seq 0 n) (Kernel.send [])) id = seq 0 n
       ∧ Kernel.via Kernel.Terminate
           (Kernel.through (marker <$> seq 0 n) (Kernel.send [])) id = rev (seq 0 n))
  ∧ (∀ (R : Type) (callback : Kernel.Payload → R),
       Kernel.then_ (Kernel.via Kernel.Handle
                       (Kernel.through [Kernel.PipeA; Kernel.PipeB; Kernel.PipeC; Kernel.PipeD]
                          (Kernel.send {| Kernel.state := 1 |}))) callback
       = callback {| Kernel.state := 5 |}
       ∧ Kernel.then_ (Kernel.via Kernel.Terminate
                         (Kernel.through [Kernel.PipeA; Kernel.PipeB; Kernel.PipeC; Kernel.PipeD]
                            (Kernel.send {| Kernel.state := 5 |}))) callback
         = callback {| Kernel.state := 1 |}).
Proof.
  split; [|split].
  - intros St R tr initial callback. unfold Kernel.then_, Kernel.via. simpl. split.
    + apply thread_handle_passing.
    + rewrite rev_fmap, thread_terminate_passing.
      by rewrite <- fold_left_rev_right, rev_involutive.
  - intros n. unfold Kernel.via. simpl.
    assert (∀ l : list nat, marker (R := list nat) <$> l
              = pipe_of <$> ((λ i, ((λ l, l ++ [i]), (λ l, l ++ [i]))) <$> l)) as Hm.
    { intros l. rewrite <- list_fmap_compose. by apply list_fmap_ext. }
    split.
    + rewrite Hm, thread_handle_passing. unfold id. by rewrite fold_markers.
    + rewrite rev_fmap, Hm, thread_terminate_passing. unfold id.
      apply (fold_markers_down (rev (seq 0 n)) []).
  - intros R callback. done.
Qed.

(** ** Circular dependencies *)


Lemma quiet_trans s1 s2 s3 : quiet s1 s2 → quiet s2 s3 → quiet s1 s3.
Proof. unfold quiet. intros (?&?&?&?&?&?) (?&?&?&?&?&?). repeat split; congruence. Qed.

Lemma invocations_load evs p : invocations (evs ++ [EvLoad p]) = invocations evs.
Proof. unfold invocations. rewrite filter_app. simpl. by rewrite app_nil_r. Qed.

(** The first dependency of a callable binding is taken up after log lines
    and provider boots only, and an exception raised while the dependencies
    are resolved leaves [_resolve] as it is. *)
Lemma resolve_reaches_inject fuel alias s f d rest (Q : value → State → Prop) E F :
  isResolved s alias && canShare s alias = false →
  prop (_bindings s) alias = VFun f →
  _readArguments (fn_source (w_funs s f)) = d :: rest →
  (∀ s1, quiet s s1 → _injections s1 = _injections s →
     wp (inject (λ d, _resolve fuel d false) alias (d :: rest) []) s1 (λ _ _, False) E F) →
  wp (_resolve (S fuel) alias false) s Q E F.
Proof.
  intros Hcached Hbinding Hdeps Hinject. cbn [_resolve].
  apply wp_bind, wp_gets. rewrite Hcached. cbn [andb negb when].
  apply wp_bind, wp_ret, wp_bind, wp_gets.
  unfold isBound at 1. rewrite Hbinding. cbn [_isset negb].
  assert (∀ msg s1, quiet s s1 → quiet s (set_logOutput msg s1)) as Hlog by done.
  assert (∀ s1, quiet s s1 → _injections s1 = _injections s →
            wp (_resolveIfNotResolved (λ d, _resolve fuel d false) alias) s1
               (λ _ _, False) E F) as Hrest.
  { intros s1 Hq Hst. pose proof Hq as (Hb & _ & _ & Hf & _).
    unfold _resolveIfNotResolved, _prepareForInjection, log.
    apply wp_bind, wp_modify, wp_bind, wp_gets. st_simpl.
    rewrite Hb, Hbinding. cbn [isCallable].
    apply wp_bind, wp_bind, wp_gets. cbn [toString]. st_simpl. rewrite Hf, Hdeps.
    eapply wp_mono; [apply Hinject; [by apply Hlog|done]|done|done|done]. }
  unfold _findProvider, _bootProvider, provider_load, log.
  wp_run;
    (apply wp_mono with (Q := λ _ _, False) (E := E) (F := F); [|done|done|done]);
    apply Hrest; st_simpl; try done;
    unfold quiet; st_simpl; by rewrite ?invocations_load.
Qed.

Lemma inject_circular resolve alias d rest injs s (Q : list value → State → Prop) E F :
  includes d (_injections s) = true →
  E (circular alias (_injections s)) s →
  wp (inject resolve alias (d :: rest) injs) s Q E F.
Proof.
  intros Hin HE. cbn [inject]. apply wp_bind, wp_gets. rewrite Hin. by apply wp_throw.
Qed.

Lemma inject_push resolve alias d rest injs s (Q : list value → State → Prop) E F :
  includes d (_injections s) = false →
  (∀ s1, quiet s s1 → _injections s1 = _injections s ++ [d] →
     wp (resolve d) s1 (λ _ _, False) E F) →
  wp (inject resolve alias (d :: rest) injs) s Q E F.
Proof.
  intros Hin Hres. cbn [inject]. unfold log. apply wp_bind, wp_gets. rewrite Hin.
  apply wp_bind, wp_modify, wp_bind, wp_modify, wp_bind.
  eapply wp_mono; [apply Hres| | |]; done.
Qed.



(** Two bindings that require each other: the third nested resolution finds
    its dependency on the injection stack and raises, before any binding or
    handler has been run. *)
Lemma circular_dependency fuel s A B fa fb ra rb :
  A ≠ B →
  prop (_bindings s) A = VFun fa → prop (_bindings s) B = VFun fb →
  _readArguments (fn_source (w_funs s fa)) = B :: ra →
  _readArguments (fn_source (w_funs s fb)) = A :: rb →
  isResolved s A = false → isResolved s B = false →
  _injections s = [] →
  wp (make (S (S (S fuel))) A) s
    (λ _ _, False)
    (λ e s', e = circular A [B; A] ∧ quiet s s' ∧ _injections s' = [B; A])
    False.
Proof.
  intros Hne HA HB HdA HdB HrA HrB Hst. unfold make, log.
  apply wp_bind, wp_modify.
  assert (∀ s1 a, quiet s s1 → isResolved s a = false →
            isResolved s1 a && canShare s1 a = false) as Hunc.
  { intros s1 a (_ & Hr & _) Ha. unfold isResolved in *. by rewrite Hr, Ha. }
  assert (∀ s1 a f, quiet s s1 → prop (_bindings s) a = VFun f →
            prop (_bindings s1) a = VFun f) as Hbind.
  { intros s1 a f (Hb & _) Ha. by rewrite Hb. }
  assert (∀ s1 f l, quiet s s1 → _readArguments (fn_source (w_funs s f)) = l →
            _readArguments (fn_source (w_funs s1 f)) = l) as Hdeps.
  { intros s1 f l (_ & _ & _ & Hf & _) Hl. by rewrite Hf. }
  match goal with |- wp _ ?s0 _ _ _ => set (s0' := s0) end.
  assert (quiet s s0') as Hq0 by done.
  eapply (resolve_reaches_inject _ A s0' fa B ra); eauto.
  intros s1 Hq1 Hst1. apply inject_push.
  { rewrite Hst1. subst s0'. st_simpl. by rewrite Hst. }
  intros s2 Hq2 Hst2.
  assert (quiet s s2) as Hqs2 by eauto using quiet_trans.
  eapply (resolve_reaches_inject _ B s2 fb A rb); eauto.
  intros s3 Hq3 Hst3. apply inject_push.
  { rewrite Hst3, Hst2, Hst1. subst s0'. st_simpl. rewrite Hst.
    apply bool_decide_eq_false. by intros ->%list_elem_of_singleton. }
  intros s4 Hq4 Hst4.
  assert (quiet s s4) as Hqs4 by eauto using quiet_trans.
  eapply (resolve_reaches_inject _ A s4 fa B ra); eauto.
  intros s5 Hq5 Hst5.
  assert (_injections s5 = [B; A]) as Hst'.
  { rewrite Hst5, Hst4, Hst3, Hst2, Hst1. subst s0'. st_simpl. by rewrite Hst. }
  apply inject_circular.
  - rewrite Hst'. apply bool_decide_eq_true. by left.
  - rewrite Hst'. split; [done|]. split; [|done]. eauto using quiet_trans.
Qed.









(** A cycle met behind another dependency: with [function A(Foo, B) {}]
    and [function B(A) {}], [make(A)] instantiates [Foo] once and caches it,
    then fails on the cycle; [A] and [B] are left unresolved. *)
Lemma cycle_behind_a_dependency :
  let s := Examples.after (bind "B" (VFun 3) true)
             (Examples.after (bind "A" (VFun 8) true)
                (Examples.after (bind "Foo" (VFun 0) true) Examples.fresh)) in
  ∃ s', make 5 "A" s = Throw (circular "A" ["B"; "A"]) s'
        ∧ calls 0 (w_events s') = 1 ∧ isResolved s' "Foo" = true
        ∧ isResolved s' "A" = false ∧ isResolved s' "B" = false.
Proof. vm_compute. eauto 10. Qed.

(** ** Error routing *)

(** With a handler installed, the circular dependency of [A] and [B] still
    reaches the caller of [make], and the handler is never run. *)
Lemma C3_counterexample :
  let s := Examples.after (bind "B" (VFun 3) true)
             (Examples.after (bind "A" (VFun 2) true)
                (Examples.after (errorHandler Examples.handler) Examples.fresh)) in
  _errorHandler s = Some Examples.handler
  ∧ isCallable (eh_handle Examples.handler) = true
  ∧ ∃ s', make 3 "A" s
          = Throw (VError "Container Circular Dependency Exception" ["A requires B, A"]) s'
          ∧ w_events s' = [].
Proof. vm_compute. eauto. Qed.

(** C3 (amended): an unbound alias and an exception raised while a binding
    is run are routed through [handleError]: the completion of the
    handler's [handle(error)] is the completion at the failure site when a
    handler with a callable [handle] is installed, and the original error is
    raised otherwise.  A circular dependency is raised directly, whether or
    not a handler is installed. *)
Theorem C3_errors_routed_except_circular :
  (∀ s e, _errorHandler s = None → handleError e s = Throw e s)
  ∧ (∀ s e h, _errorHandler s = Some h → isCallable (eh_handle h) = false →
       handleError e s = Throw e s)
  ∧ (∀ s e h hid, _errorHandler s = Some h → eh_handle h = VFun hid →
       handleError e s = invoke hid (VObj (eh_ref h)) [e] s
       ∧ ∀ v k, fn_body (w_funs s hid) (VObj (eh_ref h)) [e] (w_next s) = (Normal v, k) →
           handleError e s = Ok v (invoked hid [e] k s))
  ∧ (∀ s alias fuel,
       isResolved s alias && canShare s alias = false → isBound s alias = false →
       _resolve (S fuel) alias false s
       = handleError (makeException "Binding Exception"
                        ["No Binding found for " +:+ quoted alias +:+ "."]) s)
  ∧ (∀ s fid injections e k,
       isClass s (VFun fid) = false →
       fn_body (w_funs s fid) VNull injections (w_next s) = (Abrupt e, k) →
       _makeConcrete (VFun fid) injections s
       = handleError e (invoked fid injections k s))
  ∧ (∀ s fid injections e k,
       isClass s (VFun fid) = true →
       fn_body (w_funs s fid) (VObj (w_next s)) injections (w_next s + 1) = (Abrupt e, k) →
       _makeConcrete (VFun fid) injections s
       = handleError e (invoked fid injections k (set_next (w_next s + 1) s)))
  ∧ (∀ fuel s A B fa fb ra rb,
       A ≠ B →
       prop (_bindings s) A = VFun fa → prop (_bindings s) B = VFun fb →
       _readArguments (fn_source (w_funs s fa)) = B :: ra →
       _readArguments (fn_source (w_funs s fb)) = A :: rb →
       isResolved s A = false → isResolved s B = false →
       _injections s = [] →
       ∃ s', make (S (S (S fuel))) A s = Throw (circular A [B; A]) s'
             ∧ _errorHandler s' = _errorHandler s
             ∧ invocations (w_events s') = invocations (w_events s)).
Proof.
  repeat split.
  - intros s e Hh. unfold handleError, mbind, M_bind, gets. by rewrite Hh.
  - intros s e h Hh Hc. unfold handleError, mbind, M_bind, gets. rewrite Hh.
    by destruct (eh_handle h).
  - rename select (_errorHandler _ = _) into Hh. rename select (eh_handle _ = _) into Hc.
    unfold handleError, mbind, M_bind, gets. by rewrite Hh, Hc.
  - rename select (_errorHandler _ = _) into Hh. rename select (eh_handle _ = _) into Hc.
    intros v k Hbody. unfold handleError, mbind, M_bind, gets. rewrite Hh, Hc.
    unfold invoke. by rewrite Hbody.
  - intros s alias fuel Hc Hb. cbn [_resolve]. unfold mbind, M_bind, gets.
    rewrite Hc. cbn [andb negb when]. unfold mret, M_ret. by rewrite Hb.
  - intros s fid injections e k Hcls Hbody.
    unfold _makeConcrete, try_catch, mbind, M_bind, gets. rewrite Hcls. cbn [negb].
    unfold invoke. by rewrite Hbody.
  - intros s fid injections e k Hcls Hbody.
    unfold _makeConcrete, try_catch, mbind, M_bind, gets. rewrite Hcls. cbn [negb].
    unfold construct, mbind, M_bind, gets, modify, invoke. st_simpl. by rewrite Hbody.
  - intros fuel s A B fa fb ra rb Hne HA HB HdA HdB HrA HrB Hst.
    pose proof (circular_dependency fuel s A B fa fb ra rb Hne HA HB HdA HdB HrA HrB Hst) as H.
    unfold wp in H. destruct (make _ A s) as [v s'|e s'|]; [done| |done].
    destruct H as (-> & (_ & _ & _ & _ & Hh & Hinv) & _). by exists s'.
Qed.

(** ** Sharing of instances *)




Lemma grown_refl fid s : grown fid s s.
Proof. by repeat split. Qed.


Lemma isClass_funs s s' fid :
  w_funs s' = w_funs s → isClass s' (VFun fid) = isClass s (VFun fid).
Proof. intros Hf. unfold isClass, getName. by rewrite Hf. Qed.






Lemma bind_run alias binding shared s :
  bind alias binding shared s = Ok tt (bound_state alias binding shared s).
Proof.
  unfold bind, bound_state, log, mbind, M_bind, modify, gets, when. st_simpl.
  by destruct (shared && negb (includes alias (_sharable s))).
Qed.


Lemma bound_state_unshared alias binding s :
  _sharable (bound_state alias binding false s) = _sharable s.
Proof. done. Qed.

Lemma bound_state_binding alias binding shared s :
  prop (_bindings (bound_state alias binding shared s)) alias = binding.
Proof.
  unfold bound_state, prop. destruct (_ && _); st_simpl; by rewrite lookup_insert_eq.
Qed.


(** A cached instance of a sharable alias is returned as it is. *)
Lemma make_cached fuel alias s :
  canShare s alias = true → isResolved s alias = true →
  returns (make (S fuel) alias) s
    (λ v s', v = prop (_resolved s) alias ∧ w_events s' = w_events s
             ∧ w_next s' = w_next s ∧ _resolved s' = _resolved s).
Proof.
  intros Hcan Hres. unfold returns, make, getInstance, log. cbn [_resolve].
  apply wp_bind, wp_modify, wp_bind, wp_gets.
  unfold isResolved, canShare in *. st_simpl. rewrite Hres, Hcan. cbn [andb negb].
  unfold getInstance, log. by wp_run.
Qed.



(** * The public operations *)

Section Calls.
Context (P : State → Prop) (HP : stable P) (HI : insensitive P).

Ltac insens_tac :=
  repeat first
    [ assumption
    | apply (st_logOutput _ HP)
    | apply (st_props _ HP) | apply (st_sharedWith _ HP)
    | apply (in_providers _ HI) | apply (in_shouldShare _ HI)
    | apply (in_errorHandler _ HI) | apply (in_debug _ HI) ].

Lemma keeps_share aliases : keeps P (share aliases).
Proof.
  intros s Hs. unfold share. apply wp_bind, wp_modify.
  apply wp_forEach; [insens_tac|].
  intros alias s1 _ Hs1. apply wp_bind, wp_gets.
  destruct (negb (isBound s1 alias)).
  { wp_keep (keeps_handleError _ HP). intros. by apply wp_ret. }
  apply wp_bind, wp_gets. destruct (negb (canShare s1 alias)).
  { wp_keep (keeps_handleError _ HP). intros. by apply wp_ret. }
  wp_run; insens_tac.
Qed.

Lemma keeps_withOthers instances : keeps P (withOthers instances).
Proof.
  intros s Hs. unfold withOthers. apply wp_bind, wp_gets, wp_bind.
  apply wp_mono with (Q := λ _, P) (E := λ _, P) (F := False);
    [|intros; wp_run; insens_tac|done|done].
  apply wp_when; [intros _|done]. apply wp_bind.
  apply wp_mono with (Q := λ _, P) (E := λ _, P) (F := False);
    [|intros; by wp_keep (keeps_log _ HP)|done|done].
  apply wp_forEach; [done|]. intros alias s1 _ Hs1.
  apply wp_forEach; [done|]. intros object s2 _ Hs2.
  unfold getSharedAliasName. wp_run; insens_tac.
Qed.

(** A plain call keeps [P], and ends when given the fuel [need] asks. *)
Lemma plain_call_keeps fuel c s :
  plain c = true → P s → wp (call fuel c) s (λ _, P) (λ _, P) (fuel < need s).
Proof.
  intros Hc Hs. destruct c; try discriminate; cbn [call].
  - wp_keep (keeps_destroy _ HP). intros. by apply wp_ret.
  - unfold make, log. apply wp_bind, wp_bind, wp_modify.
    eapply wp_mono;
      [apply (resolve_spec _ HP (in_injections _ HI)); insens_tac| | |done].
    + intros v s' (? & _). by apply wp_ret.
    + by intros e s' (? & _).
  - unfold rebound, log. apply wp_bind, wp_bind, wp_modify.
    eapply wp_mono;
      [apply (resolve_spec _ HP (in_injections _ HI)); insens_tac| | |done].
    + intros v s' (? & _). by apply wp_ret.
    + by intros e s' (? & _).
  - unfold register, log. wp_run. insens_tac.
  - eapply wp_mono; [by apply keeps_share|done|done|done].
  - eapply wp_mono; [by apply keeps_withOthers|done|done|done].
  - eapply wp_mono; [by apply (keeps_unShare _ HP)|done|done|done].
  - unfold errorHandler. wp_run. insens_tac.
  - unfold debug. wp_run. insens_tac.
  - unfold flushLogs. wp_run. insens_tac.
Qed.
End Calls.

(** ** What [destroy] and [unBind] remove *)

Lemma destroyReference_run alias (obj : State → gmap string value) put s :
  (∀ m s, obj (put m s) = m) →
  (∀ v s, obj (set_logOutput v s) = obj s) →
  ∃ l, _destroyReference truthy alias obj put s
       = Ok tt (if truthy (prop (obj s) alias)
                then put (delete alias (obj s)) (set_logOutput l s)
                else s).
Proof.
  intros Hput Hlog. unfold _destroyReference, prop, mbind, M_bind, gets, log, modify.
  destruct (obj s !! alias) as [v|] eqn:Hv; cbn [default]; unfold id; [|by exists []].
  destruct (truthy v); cbn [when]; [|by exists []].
  eexists. by rewrite Hlog.
Qed.

Lemma destroy_spec alias s :
  wp (destroy alias) s
    (λ _ s', _bindings s' = _bindings s ∧ _sharable s' = _sharable s
             ∧ _resolved s' = destroyed alias s)
    (λ _ s', _bindings s' = _bindings s ∧ _sharable s' = _sharable s
             ∧ _resolved s' = _resolved s)
    False.
Proof.
  set (P0 := λ s', _bindings s' = _bindings s ∧ _sharable s' = _sharable s
                   ∧ _resolved s' = _resolved s).
  assert (ambient P0) as HA by (by split).
  unfold destroy, destroyed. apply wp_bind, wp_gets.
  destruct (isResolved s alias) eqn:Hres; [|by apply wp_ret].
  cbn [andb]. wp_keep (ambient_unShare _ HA). intros _ s1 Hs1.
  wp_keep (ambient_log _ HA). intros _ s2 (Hb2 & Hl2 & Hr2).
  apply wp_bind.
  destruct (destroyReference_run alias _resolved set_resolved s2) as [l Hrun];
    [done|done|].
  unfold wp at 1. rewrite Hrun. unfold log. wp_run.
  rewrite Hr2. by destruct (truthy (prop (_resolved s) alias)).
Qed.

Lemma unBind_spec alias s :
  wp (unBind alias) s
    (λ _ s', _resolved s' = destroyed alias s
             ∧ _bindings s'
               = (if truthy (prop (_bindings s) alias)
                  then delete alias (_bindings s) else _bindings s)
             ∧ _sharable s'
               = (if includes alias (_sharable s)
                  then splice_indexOf alias (_sharable s) else _sharable s))
    (λ _ s', _resolved s' = _resolved s ∧ _bindings s' = _bindings s
             ∧ _sharable s' = _sharable s)
    False.
Proof.
  unfold unBind, log. apply wp_bind, wp_modify, wp_bind.
  eapply wp_mono; [apply destroy_spec| |by intros _ s' (?&?&?)|done].
  intros _ s1 (Hb1 & Hl1 & Hr1). st_simpl. apply wp_bind.
  destruct (destroyReference_run alias _bindings set_bindings s1) as [l Hrun];
    [done|done|].
  unfold wp at 1. rewrite Hrun. wp_run; rename select (includes _ _ = _) into Hinc.
  all: rewrite Hb1 in *; destruct (truthy (prop (_bindings s) alias));
    st_simpl; rewrite Hl1 in *; by rewrite Hinc.
Qed.

(** ** What [bootProviders] keeps *)

Lemma assoc_Forall {V} (Q : V → Prop) key (l : list (string * V)) v :
  Forall (λ e, Q e.2) l → assoc key l = Some v → Q v.
Proof.
  induction l as [|[k x] l IH]; simpl; [done|].
  intros [Hx Hl]%Forall_cons. destruct (decide (k = key)); [by intros [= <-]|auto].
Qed.

Section Boot.
Context (P : State → Prop) (okreg : string * value * bool → Prop).
Context (Hlog : ∀ s v, P s → P (set_logOutput v s)).
Context (Hev : ∀ s v, P s → P (set_events v s)).
Context (Hbind : ∀ alias binding shared s,
           okreg (alias, binding, shared) → P s → P (bound_state alias binding shared s)).

Lemma bootProviders_keeps s :
  P s → Forall (λ e, Forall okreg (sp_register e.2)) (_providers s) →
  wp bootProviders s (λ _, P) (λ _, P) False.
Proof.
  intros Hs Hok.
  set (I := λ s', P s' ∧ _providers s' = _providers s).
  assert (I s) as HIs by done.
  assert (∀ name s1 (Q : ServiceProvider → State → Prop),
            I s1 →
            (∀ p, Forall okreg (sp_register p) → Q p s1) →
            wp (provider_at name) s1 Q (λ _, I) False) as Hat.
  { intros name s1 Q [Hs1 Hp1] HQ. unfold provider_at. apply wp_bind, wp_gets.
    rewrite Hp1. destruct (assoc name (_providers s)) as [p|] eqn:Hp.
    - apply wp_ret, HQ.
      by apply (assoc_Forall (λ p, Forall okreg (sp_register p)) name (_providers s)).
    - by apply wp_throw. }
  unfold bootProviders. apply wp_bind, wp_gets, wp_bind.
  apply wp_mono with (Q := λ _, I) (E := λ _, I) (F := False);
    [| |by intros _ s' [? ?]|done].
  - apply wp_forEach; [done|]. intros name s1 _ Hs1. unfold log.
    apply wp_bind, wp_modify, wp_bind.
    apply Hat; [destruct Hs1; split; [by apply Hlog|done]|].
    intros p Hp. unfold provider_register. apply wp_bind, wp_modify.
    apply wp_forEach.
    { destruct Hs1. split; [by apply Hev, Hlog|done]. }
    intros [[alias binding] shared] s2 Hin [Hs2 Hp2].
    unfold wp. rewrite bind_run. split.
    + apply Hbind; [|done]. exact (proj1 (Forall_forall _ _) Hp _ Hin).
    + rewrite <- Hp2. unfold bound_state. by destruct (_ && _).
  - intros _ s1 Hs1.
    apply wp_mono with (Q := λ _, I) (E := λ _, I) (F := False);
      [|by intros _ s' [? ?]|by intros _ s' [? ?]|done].
    apply wp_forEach; [done|]. intros name s2 _ Hs2. apply wp_bind.
    apply Hat; [done|]. intros p _. unfold _bootProvider, provider_load, log.
    destruct Hs2. wp_run; (split; [|done]); auto.
Qed.
End Boot.

(** ** The sharable flag *)

Lemma setInstance_run alias concrete shared s :
  setInstance alias concrete shared s = Ok concrete (instance_state alias concrete shared s).
Proof.
  unfold setInstance, instance_state, log, mbind, M_bind, modify, gets, when. st_simpl.
  by destruct (shared && negb (includes alias (_sharable s))).
Qed.


Lemma splice_indexOf_removes a (l : list string) :
  NoDup l → a ∈ l → a ∉ splice_indexOf a l.
Proof.
  unfold splice_indexOf. intros Hnd Hin.
  induction l as [|x l IH]; [by apply elem_of_nil in Hin|].
  apply NoDup_cons in Hnd as [Hx Hnd]. simpl.
  destruct (decide (a = x)) as [->|Hne]; [done|].
  apply elem_of_cons in Hin as [?|Hin]; [done|].
  specialize (IH Hnd Hin). destruct (indexOf a l) as [i|] eqn:Hi; simpl.
  - intros [?|?]%elem_of_cons; [done|]. by apply IH.
  - exfalso. clear IH Hnd Hx. induction l as [|y l IHl]; [by apply elem_of_nil in Hin|].
    simpl in Hi. destruct (decide (a = y)); [done|].
    apply elem_of_cons in Hin as [?|Hin]; [done|].
    destruct (indexOf a l); [done|]. by apply IHl.
Qed.

Lemma NoDup_push (l : list string) alias (s1 : State) (b : bool) :
  NoDup l → _sharable s1 = l →
  NoDup (_sharable (if b && negb (includes alias l)
                    then set_sharable (l ++ [alias]) s1 else s1)).
Proof.
  intros Hnd Hl. unfold includes.
  destruct b; cbn [andb]; [|by rewrite Hl].
  destruct (bool_decide (alias ∈ l)) eqn:Hin; cbn [negb]; st_simpl; [by rewrite Hl|].
  apply bool_decide_eq_false in Hin. apply NoDup_app. split; [done|]. split.
  - intros x Hx ->%list_elem_of_singleton. done.
  - apply NoDup_singleton.
Qed.

(** No alias is listed twice as sharable: this holds of a new container and
    is kept by every public call, however it ends. *)
Lemma sharable_NoDup_kept :
  (∀ funs objname, NoDup (_sharable (constructor funs objname)))
  ∧ (∀ fuel c s,
       NoDup (_sharable s) →
       wp (call fuel c) s (λ _ s', NoDup (_sharable s')) (λ _ s', NoDup (_sharable s'))
         (fuel < need s)).
Proof.
  split; [intros; apply NoDup_nil_2|].
  intros fuel c s Hs.
  set (P := λ s', NoDup (_sharable s')).
  assert (stable P) as HP by (by split).
  assert (insensitive P) as HI by (split; first [done | by unfold ignores_stack]).
  destruct (plain c) eqn:Hplain; [by apply plain_call_keeps|].
  destruct c; try discriminate; cbn [call].
  - unfold wp. rewrite bind_run. by apply NoDup_push.
  - eapply wp_mono;
      [apply unBind_spec| |intros _ s' (_ & _ & Hl); unfold P; by rewrite Hl|done].
    intros _ s' (_ & _ & Hl). unfold P. rewrite Hl.
    destruct (includes alias (_sharable s)); [|done].
    unfold splice_indexOf. destruct (indexOf alias (_sharable s)).
    + eapply sublist_NoDup; [done|apply sublist_delete].
    + eapply sublist_NoDup; [done|apply sublist_take].
  - apply wp_bind. unfold wp at 1. rewrite setInstance_run. apply wp_ret.
    by apply NoDup_push.
  - eapply wp_mono;
      [apply (bootProviders_keeps P (λ _, True)); try done| done | done | done].
    + intros alias binding shared s0 _ Hs0. by apply NoDup_push.
    + apply Forall_forall. intros e _. by apply Forall_forall.
Qed.



(** ** Resolved instances and bindings *)








(** ** Booting providers *)

(** A deferred provider of [X] and [Y]: [bootProviders] does not boot it,
    making [X] and then [Y] boots it twice. *)
Lemma C6_counterexample :
  let s0 := Examples.after bootProviders
              (Examples.after (register Examples.DeferredProvider) Examples.fresh) in
  let s := Examples.after (make 2 "Y") (Examples.after (make 2 "X") s0) in
  w_events s0 = [EvRegister "DeferredProvider"]
  ∧ w_events s = [EvRegister "DeferredProvider"; EvLoad "DeferredProvider";
                  EvLoad "DeferredProvider"].
Proof. vm_compute. done. Qed.

Lemma assoc_NoDup {V} (l : list (string * V)) k v :
  NoDup l.*1 → (k, v) ∈ l → assoc k l = Some v.
Proof.
  induction l as [|[k' v'] l IH]; simpl; [by intros _ ?%elem_of_nil|].
  intros [Hk Hnd]%NoDup_cons [[= -> ->]|Hin]%elem_of_cons.
  - by rewrite decide_True.
  - rewrite decide_False; [by apply IH|].
    intros ->. apply Hk. apply list_elem_of_fmap. by exists (k, v).
Qed.

(** Registering a provider keeps the names of the providers distinct. *)
Lemma assoc_set_NoDup {V} (l : list (string * V)) k v :
  NoDup l.*1 → NoDup (assoc_set k v l).*1.
Proof.
  induction l as [|[k' v'] l IH]; simpl; [intros _; by apply NoDup_singleton|].
  intros [Hk Hnd]%NoDup_cons. destruct (decide (k' = k)) as [->|Hne]; simpl.
  - by apply NoDup_cons.
  - apply NoDup_cons. split; [|by apply IH].
    intros Hin. apply Hk. clear IH Hnd Hk.
    induction l as [|[k'' v''] l IHl]; simpl in *.
    + apply list_elem_of_singleton in Hin. by subst.
    + destruct (decide (k'' = k)) as [->|]; simpl in *; [done|].
      apply elem_of_cons in Hin as [->|Hin]; [by left|]. right. by apply IHl.
Qed.

Lemma binds_run (regs : list (string * value * bool)) s :
  returns (forEach regs (λ '(alias, binding, shared), bind alias binding shared)) s
    (λ _ s', _providers s' = _providers s ∧ w_events s' = w_events s).
Proof.
  unfold returns.
  apply (wp_forEach _ _ (λ s', _providers s' = _providers s ∧ w_events s' = w_events s));
    [done|].
  intros [[alias binding] shared] s' _ [Hp He]. unfold wp. rewrite bind_run.
  rewrite <- Hp, <- He. unfold bound_state. by destruct (_ && _).
Qed.

Lemma provider_at_run name p s :
  assoc name (_providers s) = Some p → provider_at name s = Ok p s.
Proof. intros H. unfold provider_at, mbind, M_bind, gets. by rewrite H. Qed.

Lemma register_loop (l : list (string * ServiceProvider)) s :
  (∀ e, e ∈ l → assoc e.1 (_providers s) = Some e.2) →
  returns
    (forEach l.*1 (λ name,
       log ("Calling " +:+ quoted name +:+ " Registration...");;
       p ← provider_at name;
       provider_register p)) s
    (λ _ s', _providers s' = _providers s
             ∧ w_events s' = w_events s ++ ((λ e, EvRegister (sp_name e.2)) <$> l)).
Proof.
  revert s. induction l as [|[k p] l IH]; intros s Hl; unfold returns in *.
  { apply wp_ret. by rewrite app_nil_r. }
  cbn [fmap list_fmap forEach fst]. unfold log at 1.
  apply wp_bind, wp_bind, wp_modify, wp_bind.
  unfold wp at 1. rewrite (provider_at_run k p); [|apply (Hl (k, p)); by left].
  unfold provider_register. apply wp_bind, wp_modify.
  eapply wp_mono; [apply binds_run| |done|done].
  intros _ s1 [Hp1 He1]. st_simpl.
  eapply wp_mono; [apply IH| |done|done].
  - intros e He. rewrite Hp1. apply Hl. by right.
  - intros _ s2 [Hp2 He2]. split; [congruence|].
    rewrite He2, He1. simpl. by rewrite <- app_assoc.
Qed.

Lemma boot_loop (l : list (string * ServiceProvider)) s :
  (∀ e, e ∈ l → assoc e.1 (_providers s) = Some e.2) →
  returns
    (forEach l.*1 (λ name,
       providerInstance ← provider_at name;
       when (negb (sp_isDeferred providerInstance)) (_bootProvider providerInstance))) s
    (λ _ s', _providers s' = _providers s
             ∧ w_events s'
               = w_events s ++ (EvLoad <$> (sp_name <$>
                   filter (λ p, sp_isDeferred p = false) l.*2))).
Proof.
  revert s. induction l as [|[k p] l IH]; intros s Hl; unfold returns in *.
  { apply wp_ret. by rewrite app_nil_r. }
  cbn [fmap list_fmap forEach fst snd]. apply wp_bind, wp_bind.
  unfold wp at 1. rewrite (provider_at_run k p); [|apply (Hl (k, p)); by left].
  rewrite filter_cons. unfold _bootProvider, provider_load, log.
  destruct (sp_isDeferred p) eqn:Hd; cbn [negb when].
  - apply wp_ret. rewrite decide_False by done.
    apply IH. intros e He. apply Hl. by right.
  - apply wp_bind, wp_modify, wp_modify. rewrite decide_True by done.
    eapply wp_mono; [apply IH| |done|done].
    + intros e He. st_simpl. apply Hl. by right.
    + intros _ s2 [Hp2 He2]. st_simpl. split; [done|].
      rewrite He2. simpl. by rewrite <- app_assoc.
Qed.

(** C6 (amended): [bootProviders] calls [register()] on every provider, in
    registration order, and then [load()] once on every provider that is not
    deferred, in registration order, and on no deferred one.  Every
    resolution that gets past the cache for a bound alias whose first
    providing provider is deferred calls that provider's [load()] before
    anything else, each time such a resolution is made: the container keeps
    no record of the providers it has booted. *)
Theorem C6_providers_boot_on_bootProviders_and_on_each_resolution :
  (∀ s,
     NoDup (_providers s).*1 →
     returns bootProviders s
       (λ _ s',
          w_events s'
          = w_events s
            ++ (EvRegister <$> (sp_name <$> (_providers s).*2))
            ++ (EvLoad <$> (sp_name <$>
                  filter (λ p, sp_isDeferred p = false) (_providers s).*2))))
  ∧ (∀ fuel s alias p,
       isResolved s alias && canShare s alias = false →
       isBound s alias = true →
       find (λ p, includes alias (sp_provides p)) (_providers s).*2 = Some p →
       sp_isDeferred p = true →
       wp (make fuel alias) s
         (λ _ s', (w_events s ++ [EvLoad (sp_name p)]) `prefix_of` w_events s')
         (λ _ s', (w_events s ++ [EvLoad (sp_name p)]) `prefix_of` w_events s')
         (fuel < need s)).
Proof.
  split.
  - intros s Hnd. unfold returns, bootProviders. apply wp_bind, wp_gets, wp_bind.
    assert (∀ s1, _providers s1 = _providers s →
              ∀ e, e ∈ _providers s → assoc e.1 (_providers s1) = Some e.2) as Hassoc.
    { intros s1 -> [k v] He. by apply assoc_NoDup. }
    eapply wp_mono; [apply register_loop; by apply Hassoc| |done|done].
    intros _ s1 [Hp1 He1].
    eapply wp_mono; [apply boot_loop; by apply Hassoc| |done|done].
    intros _ s2 [Hp2 He2]. rewrite He2, He1, <- app_assoc. f_equal. f_equal.
    rewrite <- !list_fmap_compose. by apply list_fmap_ext.
  - intros fuel s alias p Hcached Hbound Hfind Hdef.
    set (P := λ s', (w_events s ++ [EvLoad (sp_name p)]) `prefix_of` w_events s').
    assert (stable P) as HP.
    { split; [split|]; try done.
      intros s' e l -> Hs'. by apply prefix_app_r. }
    assert (ignores_stack P) as HI by (by unfold ignores_stack).
    unfold make, log. apply wp_bind, wp_modify.
    destruct fuel as [|fuel]; [unfold wp, need; simpl; lia|].
    cbn [_resolve]. apply wp_bind, wp_gets.
    unfold isResolved, canShare, isBound in *. st_simpl.
    rewrite Hcached. cbn [negb andb when].
    apply wp_bind, wp_ret, wp_bind, wp_gets. st_simpl. rewrite Hbound. cbn [negb].
    unfold _findProvider, _bootProvider, provider_load, log.
    apply wp_bind, wp_bind, wp_modify, wp_bind, wp_gets. st_simpl. rewrite Hfind.
    apply wp_bind, wp_when; [intros _; apply wp_modify|done].
    apply wp_ret. rewrite Hdef. cbn [when].
    apply wp_bind, wp_bind, wp_modify, wp_bind, wp_modify, wp_modify. st_simpl.
    match goal with |- wp _ ?s3 _ _ _ => set (s3' := s3) end.
    assert (P s3') as Hs3.
    { subst s3'. unfold P. st_simpl. exists []. by rewrite app_nil_r. }
    assert (same_frame s s3' ∧ _injections s3' = _injections s) as [[Hb3 Hl3] Hi3] by done.
    clearbody s3'.
    set (J := λ s', (P s' ∧ _bindings s' = _bindings s ∧ _sharable s' = _sharable s)
                    ∧ _injections s' = _injections s).
    assert (stable J) as HJ by apply stable_framed, HP.
    apply wp_bind.
    apply wp_mono with (Q := λ _, J) (E := λ _, P) (F := S fuel < need s);
      [| |done|done].
    + unfold _resolveIfNotResolved. wp_keep (keeps_log _ HJ); [|by intros _ s' [[? ?] ?]].
      intros _ s4 [(Hs4 & Hb4 & Hl4) Hi4].
      apply wp_bind, wp_gets. destruct (isCallable _); [|by apply wp_ret].
      apply wp_bind.
      eapply wp_mono; [apply (prepare_spec _ HP HI fuel); exact Hs4| | |].
      * intros injections s5 (Hs5 & [Hb5 Hl5] & Hi5).
        wp_keep (keeps_makeConcrete _ HJ);
          [repeat split; congruence|auto|by intros _ s' [[? ?] ?]].
      * by intros e s5 [? _].
      * by rewrite (need_eq s s4).
    + intros instance s4 [(Hs4 & Hb4 & Hl4) Hi4].
      apply wp_bind, wp_gets, wp_bind.
      apply wp_mono with (Q := λ _, P) (E := λ _, P) (F := False);
        [|intros; by apply wp_ret|done|done].
      apply wp_when; [intros _|done]. unfold log.
      apply wp_bind, wp_modify, wp_bind. unfold wp. rewrite setInstance_run.
      unfold instance_state, mret, M_ret.
      destruct (true && negb (includes alias _)); exact Hs4.
Qed.

(** The theorem at work on the deferred provider of [X] and [Y]. *)
Lemma C6_witness :
  let s := Examples.after (register Examples.DeferredProvider) Examples.fresh in
  let s0 := Examples.after bootProviders s in
  returns bootProviders s (λ _ s', w_events s' = [EvRegister "DeferredProvider"])
  ∧ wp (make 2 "X") s0
      (λ _ s', [EvRegister "DeferredProvider"; EvLoad "DeferredProvider"]
               `prefix_of` w_events s')
      (λ _ s', [EvRegister "DeferredProvider"; EvLoad "DeferredProvider"]
               `prefix_of` w_events s')
      (2 < need s0).
Proof.
  intros s s0.
  destruct C6_providers_boot_on_bootProviders_and_on_each_resolution as [Hboot Hlazy].
  split.
  - apply (Hboot s). vm_compute. apply NoDup_singleton.
  - apply (Hlazy 2 s0 "X" Examples.DeferredProvider); reflexivity.
Defined.

(** The theorem at work: without a handler, with a handler that has no
    [handle] method, and with one that returns [null]. *)
Lemma C3_witness :
  let boom := VError "Error" ["boom"] in
  let missing := makeException "Binding Exception" ["No Binding found for " +:+ quoted "Z" +:+ "."] in
  let handled := Examples.after (errorHandler Examples.handler) Examples.fresh in
  let mute := Examples.after (errorHandler {| eh_ref := 100; eh_handle := VUndefined |})
                Examples.fresh in
  let cyclic := Examples.after (bind "B" (VFun 3) true)
                  (Examples.after (bind "A" (VFun 2) true) handled) in
  handleError boom Examples.fresh = Throw boom Examples.fresh
  ∧ handleError boom mute = Throw boom mute
  ∧ handleError boom handled = Ok VNull (invoked 4 [boom] 0 handled)
  ∧ _resolve 1 "Z" false handled = handleError missing handled
  ∧ _makeConcrete (VFun 6) [] handled = handleError boom (invoked 6 [] 0 handled)
  ∧ _makeConcrete (VFun 7) [] handled
    = handleError boom (invoked 7 [] 0 (set_next (w_next handled + 1) handled))
  ∧ ∃ s', make 3 "A" cyclic = Throw (circular "A" ["B"; "A"]) s'
          ∧ _errorHandler s' = _errorHandler cyclic
          ∧ invocations (w_events s') = invocations (w_events cyclic).
Proof.
  intros boom missing handled mute cyclic.
  destruct C3_errors_routed_except_circular as (H1 & H2 & H3 & H4 & H5 & H6 & H7).
  split; [apply H1; reflexivity|].
  split; [apply (H2 mute boom {| eh_ref := 100; eh_handle := VUndefined |}); reflexivity|].
  split; [apply (H3 handled boom Examples.handler 4); reflexivity|].
  split; [apply H4; reflexivity|].
  split; [apply H5; reflexivity|].
  split; [apply H6; reflexivity|].
  apply (H7 0 cyclic "A" "B" 2 3 [] []); vm_compute; congruence.
Defined.

(** * Further properties *)

Lemma mbind_ok {A B} (m : M A) (k : A → M B) s a s1 :
  m s = Ok a s1 → (m ≫= k) s = k a s1.
Proof. unfold mbind, M_bind. by intros ->. Qed.

Lemma returns_ok {A} (m : M A) s a s' (Q : A → State → Prop) :
  m s = Ok a s' → returns m s Q → Q a s'.
Proof. apply wp_ok. Qed.

(** ** More on the parameter reader *)

Lemma stripPrefix_app p t : stripPrefix p (p +:+ t) = Some t.
Proof.
  induction p as [|a p IH]; simpl; [by destruct t|]. by rewrite Ascii.eqb_refl.
Qed.

Lemma upToClose_app params rest :
  every (λ c, negb (Ascii.eqb c ")"%char)) params = true →
  upToClose (params +:+ String ")"%char rest) = Some params.
Proof.
  induction params as [|c params IH]; simpl; [done|].
  intros [Hc%negb_true_iff Hp]%andb_true_iff. rewrite Hc. by rewrite IH.
Qed.

Lemma afterKeyword_app name params rest :
  every headChar name = true →
  every (λ c, negb (Ascii.eqb c ")"%char)) params = true →
  afterKeyword (name +:+ String "("%char (params +:+ String ")"%char rest)) = Some params.
Proof.
  intros Hname Hparams. induction name as [|c name IH]; simpl.
  - by rewrite upToClose_app.
  - simpl in Hname. unfold headChar at 1 in Hname.
    apply andb_true_iff in Hname as [[Hc%negb_true_iff Hl%negb_true_iff]%andb_true_iff Hn].
    rewrite Hc, Hl. by apply IH.
Qed.

Lemma matchFunction_eq s :
  matchFunction s
  = match stripPrefix "function" s ≫= afterKeyword with
    | Some g => Some g
    | None => match s with EmptyString => None | String _ r => matchFunction r end
    end.
Proof. by destruct s. Qed.

Lemma occurs_eq p s :
  occurs p s
  = match stripPrefix p s with
    | Some _ => true
    | None => match s with EmptyString => false | String _ r => occurs p r end
    end.
Proof. by destruct s. Qed.

Lemma split_nonempty sep s : split sep s ≠ [].
Proof.
  destruct s as [|c s]; simpl; [done|].
  destruct (Ascii.eqb c sep); [done|]. by destruct (split sep s).
Qed.

Lemma split_without sep s :
  every (λ c, negb (Ascii.eqb c sep)) s = true → split sep s = [s].
Proof.
  induction s as [|c s IH]; simpl; [done|].
  intros [Hc%negb_true_iff Hs]%andb_true_iff. rewrite Hc. by rewrite IH.
Qed.

Lemma split_app sep s t :
  every (λ c, negb (Ascii.eqb c sep)) s = true →
  split sep (s +:+ String sep t) = s :: split sep t.
Proof.
  induction s as [|c s IH]; simpl.
  - by rewrite Ascii.eqb_refl.
  - intros [Hc%negb_true_iff Hs]%andb_true_iff. rewrite Hc. by rewrite IH.
Qed.

Lemma every_impl (f g : ascii → bool) s :
  (∀ c, f c = true → g c = true) → every f s = true → every g s = true.
Proof.
  intros Hfg. induction s as [|c s IH]; simpl; [done|].
  intros [Hc Hs]%andb_true_iff. rewrite (Hfg c Hc). by apply IH.
Qed.

Lemma every_app f s t : every f (s +:+ t) = every f s && every f t.
Proof. induction s as [|c s IH]; simpl; [done|]. by rewrite IH, andb_assoc. Qed.

Lemma concat_cons sep x y (l : list string) :
  String.concat sep (x :: y :: l) = x +:+ sep +:+ String.concat sep (y :: l).
Proof. done. Qed.

Lemma concat_pieces (raws : list string) :
  Forall (λ p, every pieceChar p = true) raws →
  every (λ c, negb (Ascii.eqb c ")"%char)) (String.concat "," raws) = true.
Proof.
  intros H. induction H as [|p raws Hp H IH]; [done|].
  assert (every (λ c, negb (Ascii.eqb c ")"%char)) p = true) as Hp'.
  { eapply every_impl; [|exact Hp]. intros c. unfold pieceChar.
    by intros [_ ?]%andb_true_iff. }
  destruct raws as [|q raws]; [done|].
  rewrite concat_cons, every_app, Hp'.
  change ("," +:+ String.concat "," (q :: raws))
    with (String ","%char (String.concat "," (q :: raws))).
  simpl every at 1. exact IH.
Qed.

Lemma split_concat (raws : list string) :
  raws ≠ [] →
  Forall (λ p, every pieceChar p = true) raws →
  split ","%char (String.concat "," raws) = raws.
Proof.
  intros Hne H. induction H as [|p raws Hp H IH]; [done|].
  assert (every (λ c, negb (Ascii.eqb c ","%char)) p = true) as Hp'.
  { eapply every_impl; [|exact Hp]. intros c. unfold pieceChar.
    by intros [? _]%andb_true_iff. }
  destruct raws as [|q raws].
  - simpl. by apply split_without.
  - rewrite concat_cons.
    change ("," +:+ String.concat "," (q :: raws))
      with (String ","%char (String.concat "," (q :: raws))).
    rewrite split_app by done. by rewrite IH.
Qed.

(** X1: for a source text made of the keyword, a head without opening
    parenthesis or line break, and a parenthesised list of pieces separated
    by commas, [_readArguments] yields the pieces, trimmed, the empty ones
    left out, in the order of the list. *)
Theorem X1_readArguments_reads_the_parameter_list name (raws : list string) rest :
  every headChar name = true →
  Forall (λ p, every pieceChar p = true) raws →
  _readArguments ("function" +:+ name +:+ "(" +:+ String.concat "," raws +:+ ")" +:+ rest)
  = filter (λ arg, nonEmpty arg = true) (trim <$> raws).
Proof.
  intros Hname Hraws. unfold _readArguments. rewrite matchFunction_eq.
  rewrite stripPrefix_app. cbn [mbind option_bind].
  change (name +:+ "(" +:+ String.concat "," raws +:+ ")" +:+ rest)
    with (name +:+ String "("%char (String.concat "," raws +:+ String ")"%char rest)).
  rewrite afterKeyword_app by (try done; by apply concat_pieces).
  destruct raws as [|p raws]; [done|].
  destruct (nonEmpty (String.concat "," (p :: raws))) eqn:Hne.
  - by rewrite split_concat.
  - destruct raws as [|q raws].
    + simpl in Hne. apply negb_false_iff, String.eqb_eq in Hne. by subst.
    + rewrite concat_cons in Hne. by destruct p.
Qed.

(** The theorem at work on [function A(Foo, B) {}]. *)
Lemma X1_witness : _readArguments "function A(Foo, B) {}" = ["Foo"; "B"].
Proof.
  apply (X1_readArguments_reads_the_parameter_list " A" ["Foo"; " B"] " {}").
  - reflexivity.
  - repeat constructor.
Defined.

(** X2: a source text in which the keyword does not occur has no declared
    parameter for [_readArguments]: nothing is injected into an arrow
    function or into a class written with the class syntax. *)
Theorem X2_readArguments_needs_the_function_keyword source :
  occurs "function" source = false → _readArguments source = [].
Proof.
  intros H. unfold _readArguments.
  assert (matchFunction source = None) as ->; [|done].
  induction source as [|c source IH].
  - done.
  - rewrite matchFunction_eq. rewrite occurs_eq in H.
    destruct (stripPrefix "function" (String c source)); [done|].
    cbn [mbind option_bind]. by apply IH.
Qed.

(** The theorem at work on an arrow function and on a class. *)
Lemma X2_witness :
  _readArguments "(logger, config) => new Service(logger, config)" = []
  ∧ _readArguments "class Service { constructor(logger, config) {} }" = [].
Proof.
  split; apply X2_readArguments_needs_the_function_keyword; reflexivity.
Defined.

(** ** More on resolution *)

Lemma invocations_snoc evs e :
  invocations (evs ++ [e]) = invocations evs ++ (if is_invoke e then [e] else []).
Proof.
  unfold invocations. rewrite filter_app. f_equal.
  rewrite filter_cons, filter_nil. by destruct (is_invoke e).
Qed.

(** A bound alias that is not served from the cache: after log lines and
    the boot of its deferred provider, which is all that is recorded, its
    binding is resolved, and the instance is stored when the alias is
    sharable. *)
Lemma resolve_boots fuel alias s (Q : value → State → Prop) E F :
  isResolved s alias && canShare s alias = false →
  isBound s alias = true →
  (∀ s1, quiet s s1 → _injections s1 = _injections s →
     w_events s1 = w_events s ++ boots s alias →
     wp (_resolveIfNotResolved (λ d, _resolve fuel d false) alias) s1
        (λ instance s3,
           (canShare s3 alias = true →
            ∀ l, Q instance (set_resolved (<[alias := instance]> (_resolved s3))
                               (set_logOutput l s3)))
           ∧ (canShare s3 alias = false → Q instance s3))
        E F) →
  wp (_resolve (S fuel) alias false) s Q E F.
Proof.
  intros Hcached Hbound Hrest. cbn [_resolve].
  apply wp_bind, wp_gets. rewrite Hcached. cbn [andb negb when].
  apply wp_bind, wp_ret, wp_bind, wp_gets. rewrite Hbound. cbn [negb].
  set (Q' := λ instance s3,
         (canShare s3 alias = true →
          ∀ l, Q instance (set_resolved (<[alias := instance]> (_resolved s3))
                             (set_logOutput l s3)))
         ∧ (canShare s3 alias = false → Q instance s3)).
  assert (∀ instance s3, Q' instance s3 →
            wp (can ← gets (λ s0, canShare s0 alias);
                when can
                  (log (quoted alias +:+ " is Sharable.");;
                   setInstance alias instance true;; mret tt);;
                mret instance) s3 Q E F) as Htail.
  { intros instance s3 [Hyes Hno]. apply wp_bind, wp_gets.
    destruct (canShare s3 alias) eqn:Hcan; cbn [when].
    - unfold setInstance, log. unfold canShare in Hcan.
      wp_run; rewrite ?Hcan in *; try done. apply (Hyes eq_refl).
    - apply wp_bind, wp_ret, wp_ret. by apply Hno. }
  unfold _findProvider, _bootProvider, provider_load, log.
  wp_run;
    (eapply wp_mono; [apply Hrest| apply Htail |done|done]);
    st_simpl; try done;
    try (unfold quiet; st_simpl; by rewrite ?invocations_load);
    unfold boots;
    repeat match goal with
           | H : find _ _ = _ |- _ => rewrite H
           | H : sp_isDeferred _ = _ |- _ => rewrite H
           end;
    by rewrite ?app_nil_r.
Qed.

(** A bound alias that is not served from the cache: after log lines and
    provider boots its binding is resolved, and the instance is stored when
    the alias is sharable. *)
Lemma resolve_uncached fuel alias s (Q : value → State → Prop) E F :
  isResolved s alias && canShare s alias = false →
  isBound s alias = true →
  (∀ s1, quiet s s1 → _injections s1 = _injections s →
     wp (_resolveIfNotResolved (λ d, _resolve fuel d false) alias) s1
        (λ instance s3,
           (canShare s3 alias = true →
            ∀ l, Q instance (set_resolved (<[alias := instance]> (_resolved s3))
                               (set_logOutput l s3)))
           ∧ (canShare s3 alias = false → Q instance s3))
        E F) →
  wp (_resolve (S fuel) alias false) s Q E F.
Proof.
  intros Hcached Hbound Hrest. apply resolve_boots; [done|done|].
  intros s1 Hq Hst _. by apply Hrest.
Qed.

(** A callable binding that is not served from the cache: its declared
    dependencies are injected, it is instantiated, and the instance is
    stored when the alias is sharable. *)
Lemma resolve_callable fuel alias s f (Q : value → State → Prop) E F :
  isResolved s alias && canShare s alias = false →
  prop (_bindings s) alias = VFun f →
  (∀ s1, quiet s s1 → _injections s1 = _injections s →
     wp (inject (λ d, _resolve fuel d false) alias
           (_readArguments (fn_source (w_funs s f))) []) s1
        (λ injections s2,
           wp (_makeConcrete (VFun f) injections) s2
              (λ instance s3,
                 (canShare s3 alias = true →
                  ∀ l, Q instance (set_resolved (<[alias := instance]> (_resolved s3))
                                     (set_logOutput l s3)))
                 ∧ (canShare s3 alias = false → Q instance s3))
              E F)
        E F) →
  wp (_resolve (S fuel) alias false) s Q E F.
Proof.
  intros Hcached Hbinding Hinject.
  apply resolve_uncached; [done|by unfold isBound; rewrite Hbinding|].
  intros s1 Hq Hst. pose proof Hq as (Hb & _ & _ & Hf & _).
  unfold _resolveIfNotResolved, _prepareForInjection, log.
  apply wp_bind, wp_modify, wp_bind, wp_gets. st_simpl.
  rewrite Hb, Hbinding. cbn [isCallable].
  apply wp_bind, wp_bind, wp_gets. cbn [toString]. st_simpl. rewrite Hf.
  by apply Hinject.
Qed.





(** X5: [make] and [rebound] change neither the bindings, nor the aliases
    marked sharable, nor the providers, the handler, the debugging mode or
    the staged aliases, however they end; when they return normally the
    injection stack is as it was. *)
Theorem X5_resolution_leaves_the_registrations_alone fuel alias s :
  size (_bindings s) + 2 ≤ fuel →
  ∀ m, m = make fuel alias ∨ m = rebound fuel alias →
  wp m s
    (λ _ s', _bindings s' = _bindings s ∧ _sharable s' = _sharable s
             ∧ _providers s' = _providers s ∧ _errorHandler s' = _errorHandler s
             ∧ _debug s' = _debug s ∧ _shouldShare s' = _shouldShare s
             ∧ _injections s' = _injections s)
    (λ _ s', _bindings s' = _bindings s ∧ _sharable s' = _sharable s
             ∧ _providers s' = _providers s ∧ _errorHandler s' = _errorHandler s
             ∧ _debug s' = _debug s ∧ _shouldShare s' = _shouldShare s)
    False.
Proof.
  intros Hfuel m Hm. pose proof (need_bound s) as Hneed.
  set (P := λ s', _providers s' = _providers s ∧ _errorHandler s' = _errorHandler s
                  ∧ _debug s' = _debug s ∧ _shouldShare s' = _shouldShare s).
  assert (stable P) as HP by (by split).
  assert (ignores_stack P) as HI by (by unfold ignores_stack).
  assert (∀ rb l,
            wp (_resolve fuel alias rb) (set_logOutput l s)
              (λ _ s', _bindings s' = _bindings s ∧ _sharable s' = _sharable s
                       ∧ _providers s' = _providers s ∧ _errorHandler s' = _errorHandler s
                       ∧ _debug s' = _debug s ∧ _shouldShare s' = _shouldShare s
                       ∧ _injections s' = _injections s)
              (λ _ s', _bindings s' = _bindings s ∧ _sharable s' = _sharable s
                       ∧ _providers s' = _providers s ∧ _errorHandler s' = _errorHandler s
                       ∧ _debug s' = _debug s ∧ _shouldShare s' = _shouldShare s)
              False) as Hres.
  { intros rb l.
    eapply wp_mono;
      [apply (resolve_total P HP HI fuel alias rb (set_logOutput l s)); [done|] | | |done].
    - rewrite (need_eq s (set_logOutput l s)) by done. lia.
    - by intros _ s' ((? & ? & ? & ?) & [? ?] & ?).
    - by intros _ s' ((? & ? & ? & ?) & [? ?]). }
  destruct Hm as [-> | ->]; unfold make, rebound, log; apply wp_bind, wp_modify, Hres.
Qed.

(** The theorem at work on the two bindings that require each other. *)
Lemma X5_witness :
  let s := Examples.after (bind "B" (VFun 3) true)
             (Examples.after (bind "A" (VFun 2) true) Examples.fresh) in
  ∃ e s', make 4 "A" s = Throw e s'
          ∧ _bindings s' = _bindings s ∧ _sharable s' = _sharable s.
Proof.
  intros s.
  assert (size (_bindings s) + 2 ≤ 4) as Hsz by (vm_compute; lia).
  pose proof (X5_resolution_leaves_the_registrations_alone 4 "A" s
                Hsz (make 4 "A") (or_introl eq_refl)) as H.
  unfold wp in H.
  destruct (make 4 "A" s) as [v s'|e s'|] eqn:Hr; [by vm_compute in Hr| |done].
  exists e, s'. split; [done|]. destruct H as (Hb & Hl & _). by split.
Defined.

(** X6: an error raised while a dependency is resolved leaves that
    dependency on the injection stack.  When the first declared parameter
    of [A] names an alias that is not bound and no handler is installed,
    [make(A)] raises the Binding Exception of that alias; from then on,
    even once the alias is bound, [make(A)] raises a Circular Dependency
    exception. *)
Theorem X6_a_failed_resolution_leaves_its_dependency_on_the_stack fuel s A fid X rest :
  prop (_bindings s) A = VFun fid →
  isResolved s A = false →
  _readArguments (fn_source (w_funs s fid)) = X :: rest →
  X ∉ _injections s →
  isBound s X = false → isResolved s X = false →
  _errorHandler s = None →
  ∃ s1, make (S (S fuel)) A s
        = Throw (makeException "Binding Exception"
                   ["No Binding found for " +:+ quoted X +:+ "."]) s1
    ∧ _injections s1 = _injections s ++ [X]
    ∧ ∀ binding shared fuel', ∃ s2,
        (bind X binding shared;; make (S fuel') A) s1
        = Throw (circular A (_injections s ++ [X])) s2.
Proof.
  intros HA HrA Hdeps HX HbX HrX Hh.
  assert (A ≠ X) as Hne.
  { intros ->. unfold isBound in HbX. by rewrite HA in HbX. }
  assert (wp (make (S (S fuel)) A) s (λ _ _, False)
            (λ e s1, e = makeException "Binding Exception"
                           ["No Binding found for " +:+ quoted X +:+ "."]
                     ∧ quiet s s1 ∧ _injections s1 = _injections s ++ [X])
            False) as Hfirst.
  { unfold make, log. apply wp_bind, wp_modify.
    match goal with |- wp _ ?s0 _ _ _ => set (s0' := s0) end.
    assert (quiet s s0') as Hq0 by done.
    eapply (resolve_reaches_inject _ A s0' fid X rest); [|done|done|].
    { unfold isResolved in *. subst s0'. st_simpl. by rewrite HrA. }
    intros s1 Hq1 Hst1. apply inject_push.
    { rewrite Hst1. subst s0'. st_simpl. by apply bool_decide_eq_false. }
    intros s2 Hq2 Hst2.
    assert (quiet s s2) as Hq by eauto using quiet_trans.
    pose proof Hq as (Hb2 & Hr2 & Hl2 & Hf2 & Hh2 & Hinv2).
    cbn [_resolve]. apply wp_bind, wp_gets.
    unfold isResolved, isBound in *. rewrite Hr2, HrX. cbn [andb negb when].
    apply wp_bind, wp_ret, wp_bind, wp_gets. rewrite Hb2, HbX. cbn [negb].
    unfold handleError. apply wp_bind, wp_gets. rewrite Hh2, Hh. apply wp_throw.
    split; [done|]. split; [done|]. rewrite Hst2, Hst1. by subst s0'. }
  unfold wp in Hfirst.
  destruct (make (S (S fuel)) A s) as [v s1|e s1|]; [done| |done].
  destruct Hfirst as (-> & Hq & Hst). exists s1. split; [done|]. split; [done|].
  intros binding shared fuel'.
  pose proof Hq as (Hb1 & Hr1 & Hl1 & Hf1 & Hh1 & Hinv1).
  assert (wp (bind X binding shared;; make (S fuel') A) s1 (λ _ _, False)
            (λ e _, e = circular A (_injections s ++ [X])) False) as Hsecond.
  { apply wp_bind. unfold wp at 1. rewrite bind_run.
    unfold make, log. apply wp_bind, wp_modify.
    match goal with |- wp _ ?s0 _ _ _ => set (s2 := s0) end.
    assert (_injections s2 = _injections s ++ [X]) as Hst2.
    { subst s2. unfold bound_state. destruct (_ && _); st_simpl; done. }
    eapply (resolve_reaches_inject _ A s2 fid X rest).
    - assert (isResolved s2 A = false) as ->; [|done].
      subst s2. unfold isResolved, bound_state in *.
      destruct (_ && _); st_simpl; by rewrite Hr1.
    - subst s2. unfold bound_state.
      destruct (_ && _); st_simpl; rewrite prop_insert, decide_False by done;
        by rewrite Hb1.
    - assert (w_funs s2 = w_funs s) as ->; [|done].
      subst s2. unfold bound_state. destruct (_ && _); st_simpl; done.
    - intros s3 Hq3 Hst3. apply inject_circular.
      + rewrite Hst3, Hst2. apply bool_decide_eq_true, elem_of_app. right. by left.
      + by rewrite Hst3, Hst2. }
  unfold wp in Hsecond.
  destruct ((bind X binding shared;; make (S fuel') A) s1) as [v s2|e s2|]; [done| |done].
  subst e. by exists s2.
Qed.

(** The theorem at work on [function A(B) {}] while [B] is not bound. *)
Lemma X6_witness :
  let s := Examples.after (bind "A" (VFun 2) true) Examples.fresh in
  ∃ s1, make 2 "A" s
        = Throw (VError "Container Binding Exception" ["No Binding found for " +:+ quoted "B" +:+ "."]) s1
    ∧ _injections s1 = ["B"]
    ∧ ∃ s2, (bind "B" (VFun 0) true;; make 3 "A") s1
            = Throw (VError "Container Circular Dependency Exception" ["A requires B"]) s2.
Proof.
  intros s.
  destruct (X6_a_failed_resolution_leaves_its_dependency_on_the_stack 0 s "A" 2 "B" []
              ltac:(vm_compute; reflexivity) ltac:(vm_compute; reflexivity)
              ltac:(vm_compute; reflexivity) ltac:(vm_compute; by intros ?%elem_of_nil)
              ltac:(vm_compute; reflexivity) ltac:(vm_compute; reflexivity)
              ltac:(vm_compute; reflexivity))
    as (s1 & Hmake & Hst & Hnext).
  exists s1. split; [exact Hmake|]. split; [exact Hst|].
  destruct (Hnext (VFun 0) true 2) as [s2 Hs2]. exists s2. exact Hs2.
Defined.

(** X7: a binding that is not a function is its own instance: [make]
    returns the bound value, runs no binding and no handler, and stores the
    value as the instance when the alias is sharable.  The only call it
    makes is [load()] of the provider found for the alias, when that
    provider is deferred. *)
Theorem X7_a_concrete_binding_is_its_own_instance fuel s alias :
  isBound s alias = true →
  isCallable (prop (_bindings s) alias) = false →
  isResolved s alias && canShare s alias = false →
  returns (make (S fuel) alias) s
    (λ v s', v = prop (_bindings s) alias
             ∧ _bindings s' = _bindings s
             ∧ w_events s' = w_events s ++ boots s alias
             ∧ _resolved s' = (if canShare s alias then <[alias := v]> (_resolved s)
                               else _resolved s)).
Proof.
  intros Hbound Hcall Hunc. unfold returns, make, log.
  apply wp_bind, wp_modify.
  match goal with |- wp _ ?s0 _ _ _ => set (s0' := s0) end.
  assert (quiet s s0') as Hq0 by done.
  apply (resolve_boots _ alias s0'); [done|done|].
  intros s1 Hq1 Hst1 Hev1.
  assert (quiet s s1) as Hq by eauto using quiet_trans.
  pose proof Hq as (Hb1 & Hr1 & Hl1 & Hf1 & Hh1 & Hinv1).
  unfold _resolveIfNotResolved, log.
  apply wp_bind, wp_modify, wp_bind, wp_gets. st_simpl. rewrite Hb1, Hcall.
  apply wp_ret. unfold canShare. st_simpl. rewrite Hl1.
  split; intros Hcan; [intros l|]; rewrite Hcan; st_simpl; by rewrite Hr1.
Qed.

(** The theorem at work on the number that a deferred provider binds to
    [X]. *)
Lemma X7_witness :
  let s := Examples.after bootProviders
             (Examples.after (register Examples.DeferredProvider) Examples.fresh) in
  ∃ s', make 1 "X" s = Ok (VNum 1) s'
        ∧ w_events s' = [EvRegister "DeferredProvider"; EvLoad "DeferredProvider"]
        ∧ _bindings s' = _bindings s.
Proof.
  intros s.
  assert (∃ v s', make 1 "X" s = Ok v s') as (v & s' & Hrun)
    by (eexists _, _; vm_compute; reflexivity).
  pose proof (returns_ok _ _ _ _ _ Hrun
                (X7_a_concrete_binding_is_its_own_instance 0 s "X"
                   ltac:(vm_compute; reflexivity) ltac:(vm_compute; reflexivity)
                   ltac:(vm_compute; reflexivity))) as H.
  cbv beta in H. destruct H as (-> & Hb & Hev & _).
  exists s'. split; [exact Hrun|]. split; [exact Hev|exact Hb].
Defined.

(** ** What a binding returns or raises *)

(** X21: a plainly called binding that returns [null] makes [make] fail
    with a TypeError (routed to the handler, raised when there is none):
    the name of the instance is read before the instance is returned.
    Nothing is stored for the alias. *)
Theorem X21_a_binding_that_returns_null_raises_a_TypeError fuel s alias fid k :
  prop (_bindings s) alias = VFun fid →
  isResolved s alias && canShare s alias = false →
  _readArguments (fn_source (w_funs s fid)) = [] →
  isClass s (VFun fid) = false →
  (∀ n, fn_body (w_funs s fid) VNull [] n = (Normal VNull, k)) →
  _errorHandler s = None →
  ∃ msg s', make (S fuel) alias s = Throw (VError "TypeError" [msg]) s'
    ∧ _resolved s' = _resolved s
    ∧ invocations (w_events s') = invocations (w_events s) ++ [EvInvoke fid []].
Proof.
  intros Hbind Hunc Hdeps Hcls Hbody Hh.
  assert (wp (make (S fuel) alias) s (λ _ _, False)
            (λ e s', e = typeError "Cannot read properties of null (reading 'name')"
                     ∧ _resolved s' = _resolved s
                     ∧ invocations (w_events s')
                       = invocations (w_events s) ++ [EvInvoke fid []])
            False) as Hwp.
  { unfold make, log. apply wp_bind, wp_modify.
    match goal with |- wp _ ?s0 _ _ _ => set (s0' := s0) end.
    assert (quiet s s0') as Hq0 by done.
    apply (resolve_callable _ alias s0' fid); [done|done|].
    intros s1 Hq1 Hst1.
    assert (quiet s s1) as Hq by eauto using quiet_trans.
    pose proof Hq as (Hb1 & Hr1 & Hl1 & Hf1 & Hh1 & Hinv1).
    change (w_funs s0') with (w_funs s). rewrite Hdeps. cbn [inject]. apply wp_ret.
    unfold _makeConcrete. apply wp_try_catch, wp_bind, wp_gets.
    rewrite (isClass_funs s s1) by done. rewrite Hcls. cbn [negb].
    apply wp_bind. unfold wp at 1, invoke. rewrite Hf1, Hbody.
    apply wp_bind, wp_gets. cbn [getName]. apply wp_throw.
    unfold handleError. apply wp_bind, wp_gets. st_simpl. rewrite Hh1, Hh.
    apply wp_throw. split; [done|]. st_simpl. split; [done|].
    by rewrite invocations_snoc, Hinv1. }
  unfold wp in Hwp. destruct (make (S fuel) alias s) as [v s'|e s'|]; [done| |done].
  destruct Hwp as (-> & ? & ?). by eexists _, s'.
Qed.

(** The theorem at work on [function () { return null }]. *)
Lemma X21_witness :
  let s := Examples.after (bind "Nothing" (VFun 9) true) Samples.fresh in
  ∃ msg s', make 2 "Nothing" s = Throw (VError "TypeError" [msg]) s'
            ∧ _resolved s' = _resolved s.
Proof.
  intros s.
  destruct (X21_a_binding_that_returns_null_raises_a_TypeError 1 s "Nothing" 9 0
              ltac:(vm_compute; reflexivity) ltac:(vm_compute; reflexivity)
              ltac:(vm_compute; reflexivity) ltac:(vm_compute; reflexivity)
              ltac:(intros; vm_compute; reflexivity) ltac:(vm_compute; reflexivity))
    as (msg & s' & Hrun & Hres & _).
  exists msg, s'. split; [exact Hrun|exact Hres].
Defined.

(** X22: with a handler installed, what the handler returns for the error
    of a binding (one without parameters that is called plainly) is the
    instance: [make] returns it, and stores it when the alias is sharable,
    like an instance the binding had made. *)
Theorem X22_the_value_of_the_handler_is_the_instance fuel s alias fid e k h hid v k' :
  prop (_bindings s) alias = VFun fid →
  isResolved s alias && canShare s alias = false →
  _readArguments (fn_source (w_funs s fid)) = [] →
  isClass s (VFun fid) = false →
  (∀ n, fn_body (w_funs s fid) VNull [] n = (Abrupt e, k)) →
  _errorHandler s = Some h → eh_handle h = VFun hid →
  (∀ n, fn_body (w_funs s hid) (VObj (eh_ref h)) [e] n = (Normal v, k')) →
  returns (make (S fuel) alias) s
    (λ r s', r = v
             ∧ (canShare s alias = true → prop (_resolved s') alias = v)
             ∧ (canShare s alias = false → _resolved s' = _resolved s)
             ∧ invocations (w_events s')
               = invocations (w_events s) ++ [EvInvoke fid []; EvInvoke hid [e]]).
Proof.
  intros Hbind Hunc Hdeps Hcls Hbody Hh Hhandle Hhbody.
  unfold returns, make, log. apply wp_bind, wp_modify.
  match goal with |- wp _ ?s0 _ _ _ => set (s0' := s0) end.
  assert (quiet s s0') as Hq0 by done.
  apply (resolve_callable _ alias s0' fid); [done|done|].
  intros s1 Hq1 Hst1.
  assert (quiet s s1) as Hq by eauto using quiet_trans.
  pose proof Hq as (Hb1 & Hr1 & Hl1 & Hf1 & Hh1 & Hinv1).
  change (w_funs s0') with (w_funs s). rewrite Hdeps. cbn [inject]. apply wp_ret.
  unfold _makeConcrete. apply wp_try_catch, wp_bind, wp_gets.
  rewrite (isClass_funs s s1) by done. rewrite Hcls. cbn [negb].
  apply wp_bind. unfold wp at 1, invoke. rewrite Hf1, Hbody.
  unfold handleError. apply wp_bind, wp_gets. st_simpl. rewrite Hh1, Hh, Hhandle.
  unfold wp, invoke. st_simpl. rewrite Hf1, Hhbody. unfold canShare. st_simpl.
  rewrite Hl1. split.
  - intros Hcan l. split; [done|]. split.
    + intros _. unfold prop. st_simpl. by rewrite lookup_insert_eq.
    + split; [by rewrite Hcan|]. st_simpl.
      rewrite !invocations_snoc, Hinv1. cbn [is_invoke]. by rewrite <- app_assoc.
  - intros Hcan. split; [done|]. split; [by rewrite Hcan|]. split; [by st_simpl|].
    st_simpl. rewrite !invocations_snoc, Hinv1. cbn [is_invoke]. by rewrite <- app_assoc.
Qed.

(** The theorem at work on a factory that throws, with a handler that
    answers with a text. *)
Lemma X22_witness :
  let s := Examples.after (bind "Service" (VFun 6) true)
             (Examples.after (errorHandler Samples.handler) Samples.fresh) in
  ∃ s', make 2 "Service" s = Ok (VStr "fallback") s'
        ∧ prop (_resolved s') "Service" = VStr "fallback".
Proof.
  intros s.
  assert (∃ r s', make 2 "Service" s = Ok r s') as (r & s' & Hrun)
    by (eexists _, _; vm_compute; reflexivity).
  pose proof (returns_ok _ _ _ _ _ Hrun
                (X22_the_value_of_the_handler_is_the_instance
                   1 s "Service" 6 (VError "Error" ["boom"]) 0 Samples.handler 10
                   (VStr "fallback") 0
                   ltac:(vm_compute; reflexivity) ltac:(vm_compute; reflexivity)
                   ltac:(vm_compute; reflexivity) ltac:(vm_compute; reflexivity)
                   ltac:(intros; vm_compute; reflexivity) ltac:(vm_compute; reflexivity)
                   ltac:(vm_compute; reflexivity)
                   ltac:(intros; vm_compute; reflexivity))) as H.
  cbv beta in H. destruct H as (-> & Hres & _).
  exists s'. split; [exact Hrun|]. apply Hres. vm_compute. reflexivity.
Defined.

(** ** Dependencies that are not cached *)





(** ** Sharing with other objects *)

Lemma getSharedAliasName_run alias s :
  alias ≠ EmptyString → getSharedAliasName alias s = Ok (sharedName alias) s.
Proof. by destruct alias. Qed.

Lemma same_registrations_refl s : same_registrations s s.
Proof. by repeat split. Qed.

Lemma same_registrations_trans s1 s2 s3 :
  same_registrations s1 s2 → same_registrations s2 s3 → same_registrations s1 s3.
Proof.
  unfold same_registrations.
  intros (?&?&?&?&?&?&?&?&?&?) (?&?&?&?&?&?&?&?&?&?). repeat split; congruence.
Qed.

Lemma slot_insert (props : gmap nat (gmap string Slot)) s object o
    (m : gmap string Slot) key :
  slot (set_props (<[object := m]> props) s) o key
  = if decide (object = o) then m !! key else default ∅ (props !! o) !! key.
Proof.
  unfold slot. st_simpl. rewrite lookup_insert.
  by destruct (decide (object = o)).
Qed.

(** One share of [unShare]: the property under the shared name is taken
    off the object when it holds something truthy. *)
Lemma unShare_step alias object s :
  alias ≠ EmptyString →
  ∃ s', (log ("Destroying shared references of " +:+ quoted alias +:+ "...");;
         key ← getSharedAliasName alias;
         _destroyReference slot_truthy key
           (λ s, default ∅ (w_props s !! object))
           (λ o s, set_props (<[object := o]> (w_props s)) s)) s = Ok tt s'
    ∧ same_registrations s s' ∧ _sharedWith s' = _sharedWith s
    ∧ _shouldShare s' = _shouldShare s
    ∧ (∀ o k, (o ≠ object ∨ k ≠ sharedName alias) → slot s' o k = slot s o k)
    ∧ (∀ v, slot s' object (sharedName alias) = Some v →
         slot_truthy v = false ∧ slot s object (sharedName alias) = Some v).
Proof.
  intros Hne. unfold log, mbind, M_bind, modify.
  rewrite getSharedAliasName_run by done.
  unfold _destroyReference, mbind, M_bind, gets, log, modify. st_simpl.
  destruct (default ∅ (w_props s !! object) !! sharedName alias) as [v|] eqn:Hv.
  - destruct (slot_truthy v) eqn:Ht; cbn [when].
    + eexists. split; [reflexivity|]. split; [by repeat split|]. do 2 (split; [done|]).
      split.
      * intros o k Hok. rewrite slot_insert. destruct (decide (object = o)) as [<-|]; [|done].
        destruct Hok as [?|Hk]; [done|]. rewrite lookup_delete_ne by done. done.
      * intros v'. rewrite slot_insert, decide_True by done.
        by rewrite lookup_delete_eq.
    + eexists. split; [reflexivity|]. split; [by repeat split|]. do 2 (split; [done|]).
      split; [done|]. intros v'. unfold slot. st_simpl. rewrite Hv. by intros [= <-].
  - eexists. split; [reflexivity|]. split; [by repeat split|]. do 2 (split; [done|]).
    split; [done|]. intros v'. unfold slot. st_simpl. by rewrite Hv.
Qed.

Lemma unShare_loop alias (targets : list nat) s :
  alias ≠ EmptyString →
  ∃ s', forEach targets (λ object,
          log ("Destroying shared references of " +:+ quoted alias +:+ "...");;
          key ← getSharedAliasName alias;
          _destroyReference slot_truthy key
            (λ s, default ∅ (w_props s !! object))
            (λ o s, set_props (<[object := o]> (w_props s)) s)) s = Ok tt s'
    ∧ same_registrations s s' ∧ _sharedWith s' = _sharedWith s
    ∧ _shouldShare s' = _shouldShare s
    ∧ (∀ o k, (o ∉ targets ∨ k ≠ sharedName alias) → slot s' o k = slot s o k)
    ∧ (∀ o v, o ∈ targets → slot s' o (sharedName alias) = Some v →
         slot_truthy v = false ∧ slot s o (sharedName alias) = Some v).
Proof.
  intros Hne. revert s. induction targets as [|object targets IH]; intros s.
  { exists s. split; [done|]. split; [apply same_registrations_refl|].
    do 3 (split; [done|]). by intros o v ?%elem_of_nil. }
  destruct (unShare_step alias object s Hne) as (s1 & Hrun & Hf1 & Hsw1 & Hss1 & Hoth1 & Hkey1).
  destruct (IH s1) as (s2 & Hloop & Hf2 & Hsw2 & Hss2 & Hoth2 & Hkey2).
  exists s2. split.
  { cbn [forEach]. unfold mbind at 1, M_bind at 1. by rewrite Hrun. }
  split; [by eapply same_registrations_trans|].
  split; [congruence|]. split; [congruence|]. split.
  - intros o k Hok. rewrite Hoth2, Hoth1; [done| |].
    + destruct Hok as [Ho|?]; [|by right]. left. intros ->. apply Ho. by left.
    + destruct Hok as [Ho|?]; [|by right]. left. intros Hin. apply Ho. by right.
  - intros o v Ho Hv.
    destruct (decide (o ∈ targets)) as [Hin|Hnin].
    + destruct (Hkey2 o v Hin Hv) as [Ht Hv1]. split; [done|].
      destruct (decide (o = object)) as [->|Hneq].
      * by apply Hkey1.
      * rewrite <- Hv1. symmetry. apply Hoth1. by left.
    + apply elem_of_cons in Ho as [->|?]; [|done].
      rewrite Hoth2 in Hv by (by left). by apply Hkey1.
Qed.

Lemma isShared_listed s alias : isShared s alias = bool_decide (0 < length (listed s alias)).
Proof.
  unfold isShared, listed. by destruct (_sharedWith s !! alias).
Qed.

Lemma unShare_run alias s :
  alias ≠ EmptyString →
  ∃ s', unShare alias s = Ok tt s'
    ∧ same_registrations s s' ∧ _shouldShare s' = _shouldShare s
    ∧ _sharedWith s' = delete alias (_sharedWith s)
    ∧ (∀ o k, (o ∉ listed s alias ∨ k ≠ sharedName alias) → slot s' o k = slot s o k)
    ∧ (∀ o v, o ∈ listed s alias → slot s' o (sharedName alias) = Some v →
         slot_truthy v = false ∧ slot s o (sharedName alias) = Some v).
Proof.
  intros Hne. unfold unShare.
  erewrite mbind_ok by reflexivity. erewrite mbind_ok by reflexivity. st_simpl.
  unfold listed.
  destruct (_sharedWith s !! alias) as [targets|] eqn:Hsw; cbn [default].
  - match goal with |- context [(forEach _ _ ≫= _) ?s0] => set (s1 := s0) end.
    destruct (unShare_loop alias targets s1 Hne)
      as (s2 & Hloop & Hf2 & Hsw2 & Hss2 & Hoth2 & Hkey2).
    exists (set_sharedWith (delete alias (_sharedWith s2)) s2). split.
    { by erewrite mbind_ok by exact Hloop. }
    split.
    { destruct Hf2 as (?&?&?&?&?&?&?&?&?&?). by repeat split. }
    split; [st_simpl; by rewrite Hss2|]. split; [st_simpl; by rewrite Hsw2|]. split.
    + intros o k Hok. exact (Hoth2 o k Hok).
    + intros o v Ho Hv. exact (Hkey2 o v Ho Hv).
  - eexists. split; [reflexivity|]. split; [by repeat split|]. split; [done|].
    split; [st_simpl; by rewrite delete_id|]. split; [done|].
    by intros o v ?%elem_of_nil.
Qed.

(** X13: [unShare(A)] forgets the objects [A] was shared with and takes the
    accessor off each of them: under the shared name of [A] these objects
    are left with no property, or with a falsy one that was there before;
    their other properties, the other objects and the registrations of the
    container are untouched. *)
Theorem X13_unShare_removes_the_accessors alias s :
  alias ≠ EmptyString →
  ∃ s', unShare alias s = Ok tt s'
    ∧ isShared s' alias = false
    ∧ (∀ a, a ≠ alias → listed s' a = listed s a)
    ∧ same_registrations s s'
    ∧ (∀ o v, o ∈ listed s alias → slot s' o (sharedName alias) = Some v →
         slot_truthy v = false ∧ slot s o (sharedName alias) = Some v)
    ∧ (∀ o k, (o ∉ listed s alias ∨ k ≠ sharedName alias) → slot s' o k = slot s o k).
Proof.
  intros Hne.
  destruct (unShare_run alias s Hne) as (s' & Hrun & Hf & _ & Hsw & Hoth & Hkey).
  exists s'. split; [done|]. split.
  { unfold isShared. by rewrite Hsw, lookup_delete_eq. }
  split.
  { intros a Ha. unfold listed. by rewrite Hsw, lookup_delete_ne. }
  done.
Qed.

(** X8: [destroy(A)] answers whether [A] had an instance.  A truthy
    instance is removed and the alias is no longer shared with anyone; an
    instance that is set but falsy (0, the empty string, false) is left in
    place although the answer is true; when [A] has no instance nothing
    changes at all.  Bindings and sharable aliases are never touched. *)
Theorem X8_destroy_removes_a_truthy_instance alias s :
  alias ≠ EmptyString →
  ∃ s', destroy alias s = Ok (isResolved s alias) s'
    ∧ _bindings s' = _bindings s ∧ _sharable s' = _sharable s
    ∧ _resolved s' = (if truthy (prop (_resolved s) alias)
                      then delete alias (_resolved s) else _resolved s)
    ∧ (isResolved s alias = true → isShared s' alias = false)
    ∧ (isResolved s alias = false → s' = s).
Proof.
  intros Hne. unfold destroy. erewrite mbind_ok by reflexivity.
  destruct (isResolved s alias) eqn:Hres.
  2:{ exists s. repeat split; try done.
      unfold isResolved in Hres. by destruct (prop (_resolved s) alias). }
  destruct (unShare_run alias s Hne) as (s1 & Hrun & Hf1 & _ & Hsw1 & _).
  erewrite mbind_ok by exact Hrun. erewrite mbind_ok by reflexivity.
  match goal with |- context [(_destroyReference _ _ _ _ ≫= _) ?s0] => set (s2 := s0) end.
  destruct (destroyReference_run alias _resolved set_resolved s2) as [l Hdr]; [done|done|].
  erewrite mbind_ok by exact Hdr.
  destruct Hf1 as (Hp1 & Hb1 & Hr1 & Hi1 & Hl1 & _).
  assert (_resolved s2 = _resolved s) as Hr2 by (subst s2; by st_simpl).
  rewrite Hr2. erewrite mbind_ok by reflexivity.
  destruct (truthy (prop (_resolved s) alias)); eexists; (split; [reflexivity|]);
    subst s2; st_simpl; repeat split; try done;
    intros _; unfold isShared; st_simpl; by rewrite Hsw1, lookup_delete_eq.
Qed.

(** The theorem at work on a cached instance of the class [Foo], and on the
    number 0 set as the instance of [Zero]. *)
Lemma X8_witness :
  let s := Examples.after (setInstance "Zero" (VNum 0) true)
             (Examples.after (make 3 "Foo")
                (Examples.after (bind "Foo" (VFun 0) true) Examples.fresh)) in
  (∃ s', destroy "Foo" s = Ok true s' ∧ isResolved s' "Foo" = false)
  ∧ (∃ s', destroy "Zero" s = Ok true s' ∧ isResolved s' "Zero" = true).
Proof.
  intros s. split.
  - destruct (X8_destroy_removes_a_truthy_instance "Foo" s) as (s' & Hrun & _ & _ & Hr & _);
      [done|].
    exists s'. split; [exact Hrun|]. unfold isResolved. rewrite Hr. vm_compute. reflexivity.
  - destruct (X8_destroy_removes_a_truthy_instance "Zero" s) as (s' & Hrun & _ & _ & Hr & _);
      [done|].
    exists s'. split; [exact Hrun|]. unfold isResolved. rewrite Hr. vm_compute. reflexivity.
Defined.

(** ** Binding and unbinding *)

(** Unbinding an alias that has no instance. *)
Lemma unBind_unresolved alias s :
  isResolved s alias = false →
  ∃ s', unBind alias s = Ok tt s'
    ∧ _resolved s' = _resolved s ∧ w_props s' = w_props s
    ∧ _sharedWith s' = _sharedWith s
    ∧ _bindings s' = (if truthy (prop (_bindings s) alias)
                      then delete alias (_bindings s) else _bindings s)
    ∧ _sharable s' = (if includes alias (_sharable s)
                      then splice_indexOf alias (_sharable s) else _sharable s).
Proof.
  intros Hr. unfold unBind.
  erewrite mbind_ok by reflexivity.
  unfold destroy. erewrite mbind_ok; [|erewrite mbind_ok by reflexivity].
  2:{ unfold isResolved in *. st_simpl. rewrite Hr. reflexivity. }
  match goal with |- context [(_destroyReference _ _ _ _ ≫= _) ?s0] => set (s1 := s0) end.
  destruct (destroyReference_run alias _bindings set_bindings s1) as [l Hdr]; [done|done|].
  erewrite mbind_ok by exact Hdr. erewrite mbind_ok by reflexivity.
  assert (_bindings s1 = _bindings s) as Hb1 by done. rewrite Hb1.
  destruct (truthy (prop (_bindings s) alias)) eqn:Ht; st_simpl;
    change (_sharable s1) with (_sharable s);
    destruct (includes alias (_sharable s)) eqn:Hinc; cbn [when]; eexists;
    (split; [reflexivity|]); st_simpl; by repeat split.
Qed.

(** X9: binding an alias the container does not know (no binding, no
    instance, not sharable) to a truthy value and unbinding it brings the
    bindings, the instances and the sharable aliases back to what they
    were. *)
Theorem X9_bind_then_unBind_is_a_round_trip alias binding shared s :
  _bindings s !! alias = None → isResolved s alias = false →
  alias ∉ _sharable s → truthy binding = true →
  ∃ s', (bind alias binding shared;; unBind alias) s = Ok tt s'
    ∧ _bindings s' = _bindings s ∧ _resolved s' = _resolved s
    ∧ _sharable s' = _sharable s.
Proof.
  intros Hb Hr Hl Ht.
  erewrite mbind_ok by apply bind_run.
  destruct (unBind_unresolved alias (bound_state alias binding shared s))
    as (s' & Hrun & Hr' & _ & _ & Hb' & Hl').
  { unfold isResolved, bound_state in *. by destruct (_ && _). }
  exists s'. split; [done|].
  assert (includes alias (_sharable s) = false) as Hinc by by apply bool_decide_eq_false.
  rewrite bound_state_binding, Ht in Hb'.
  unfold bound_state in *. rewrite Hinc, andb_true_r in *.
  destruct shared; st_simpl.
  - assert (includes alias (_sharable s ++ [alias]) = true) as Hinc'.
    { apply bool_decide_eq_true, elem_of_app. right. by left. }
    rewrite Hinc' in Hl'. rewrite splice_indexOf_push in Hl' by done.
    by rewrite delete_insert_id in Hb'.
  - rewrite Hinc in Hl'. by rewrite delete_insert_id in Hb'.
Qed.

(** The theorem at work on a new container. *)
Lemma X9_witness :
  ∃ s', (bind "Foo" (VFun 0) true;; unBind "Foo") Examples.fresh = Ok tt s'
    ∧ _bindings s' = ∅ ∧ _resolved s' = ∅ ∧ _sharable s' = [].
Proof.
  apply (X9_bind_then_unBind_is_a_round_trip "Foo" (VFun 0) true Examples.fresh).
  - reflexivity.
  - reflexivity.
  - by intros ?%elem_of_nil.
  - reflexivity.
Defined.

(** X10: [unBind] takes away a binding only when it is truthy.  An alias
    bound to a value that is set but falsy (0, the empty string, false)
    is still bound after [unBind], with the same binding; it is no longer
    sharable. *)
Theorem X10_unBind_leaves_a_falsy_binding alias s :
  isBound s alias = true → truthy (prop (_bindings s) alias) = false →
  NoDup (_sharable s) →
  wp (unBind alias) s
    (λ _ s', isBound s' alias = true ∧ _bindings s' = _bindings s
             ∧ canShare s' alias = false)
    (λ _ _, True) False.
Proof.
  intros Hb Ht Hnd.
  eapply wp_mono; [apply unBind_spec| |done|done].
  intros _ s' (_ & Hb' & Hl'). rewrite Ht in Hb'.
  unfold isBound, canShare in *. rewrite Hb', Hl'. do 2 (split; [done|]).
  unfold includes. destruct (bool_decide (alias ∈ _sharable s)) eqn:Hin.
  - apply bool_decide_eq_true in Hin. apply bool_decide_eq_false.
    by apply splice_indexOf_removes.
  - done.
Qed.

(** The theorem at work on the number 0 bound to [Zero]. *)
Lemma X10_witness :
  let s := Examples.after (bind "Zero" (VNum 0) true) Examples.fresh in
  ∃ s', unBind "Zero" s = Ok tt s'
        ∧ isBound s' "Zero" = true ∧ canShare s' "Zero" = false.
Proof.
  intros s.
  pose proof (X10_unBind_leaves_a_falsy_binding "Zero" s) as H.
  unfold wp in H.
  destruct (unBind "Zero" s) as [[] s'|e s'|] eqn:Hrun; [|by vm_compute in Hrun..].
  exists s'. split; [done|].
  destruct H as (Hb & _ & Hc).
  - reflexivity.
  - reflexivity.
  - vm_compute. apply NoDup_singleton.
  - by split.
Defined.

(** X11: [unBind] of an alias that has no instance leaves the objects the
    alias was shared with as they are, accessors included, and keeps the
    record of these objects: only a resolved alias is unshared. *)
Theorem X11_unBind_of_an_unresolved_alias_keeps_its_accessors alias s :
  isResolved s alias = false →
  ∃ s', unBind alias s = Ok tt s'
    ∧ w_props s' = w_props s ∧ _sharedWith s' = _sharedWith s
    ∧ (truthy (prop (_bindings s) alias) = true → isBound s' alias = false).
Proof.
  intros Hr.
  destruct (unBind_unresolved alias s Hr) as (s' & Hrun & _ & Hp & Hsw & Hb & _).
  exists s'. do 3 (split; [done|]). intros Ht. rewrite Ht in Hb.
  unfold isBound. by rewrite Hb, prop_delete, decide_True.
Qed.

(** The theorem at work: [Foo] is shared with the object 5 and never
    made. *)
Lemma X11_witness :
  let s := Examples.after (withOthers [5])
             (Examples.after (share ["Foo"])
                (Examples.after (bind "Foo" (VFun 0) true) Examples.fresh)) in
  slot s 5 "$foo" = Some (Accessor "Foo")
  ∧ ∃ s', unBind "Foo" s = Ok tt s'
          ∧ slot s' 5 "$foo" = Some (Accessor "Foo") ∧ isBound s' "Foo" = false.
Proof.
  intros s. split; [reflexivity|].
  destruct (X11_unBind_of_an_unresolved_alias_keeps_its_accessors "Foo" s)
    as (s' & Hrun & Hp & _ & Hb); [reflexivity|].
  exists s'. split; [exact Hrun|]. split.
  - unfold slot. rewrite Hp. reflexivity.
  - apply Hb. reflexivity.
Defined.

(** ** Staging aliases and sharing them *)

(** The loop of [share] over aliases that are bound and sharable. *)
Lemma share_loop (aliases : list string) s :
  Forall (λ a, isBound s a = true ∧ canShare s a = true) aliases →
  ∃ extra,
    forEach aliases (λ alias,
      bound ← gets (λ s, isBound s alias);
      if negb bound then
        handleError (makeException ("No binding for " +:+ alias +:+ " available to share.") []);;
        mret tt
      else
        can ← gets (λ s, canShare s alias);
        if negb can then
          handleError (makeException (alias +:+ " is not sharable.") []);;
          mret tt
        else
          staged ← gets _shouldShare;
          when (negb (includes alias staged))
            (modify (λ s, set_shouldShare (_shouldShare s ++ [alias]) s))) s
    = Ok tt (set_shouldShare (_shouldShare s ++ extra) s)
    ∧ extra `sublist_of` aliases
    ∧ NoDup extra
    ∧ ∀ a, a ∈ extra ↔ a ∈ aliases ∧ a ∉ _shouldShare s.
Proof.
  revert s. induction aliases as [|alias aliases IH]; intros s Hall.
  { exists []. rewrite app_nil_r. split; [by destruct s|]. split; [done|].
    split; [apply NoDup_nil_2|]. intros a. split; [by intros ?%elem_of_nil|].
    by intros [?%elem_of_nil _]. }
  apply Forall_cons in Hall as [[Hb Hc] Hall].
  cbn [forEach].
  destruct (includes alias (_shouldShare s)) eqn:Hinc.
  - destruct (IH s Hall) as (extra & Hrun & Hsub & Hnd & Hin).
    exists extra. split.
    { erewrite mbind_ok; [exact Hrun|].
      erewrite mbind_ok by reflexivity. rewrite Hb. cbn [negb].
      erewrite mbind_ok by reflexivity. rewrite Hc. cbn [negb].
      erewrite mbind_ok by reflexivity. by rewrite Hinc. }
    split; [by apply sublist_cons|]. split; [done|].
    intros a. rewrite Hin. apply bool_decide_eq_true in Hinc.
    split; [intros [? ?]; split; [by right|done]|].
    intros [[->|?]%elem_of_cons ?]; done.
  - set (s1 := set_shouldShare (_shouldShare s ++ [alias]) s).
    destruct (IH s1) as (extra & Hrun & Hsub & Hnd & Hin).
    { eapply Forall_impl; [exact Hall|]. by intros a [? ?]. }
    apply bool_decide_eq_false in Hinc.
    exists (alias :: extra). split.
    { erewrite mbind_ok; [rewrite Hrun|].
      - subst s1. st_simpl. by rewrite <- app_assoc.
      - erewrite mbind_ok by reflexivity. rewrite Hb. cbn [negb].
        erewrite mbind_ok by reflexivity. rewrite Hc. cbn [negb].
        erewrite mbind_ok by reflexivity.
        assert (includes alias (_shouldShare s) = false) as ->
          by by apply bool_decide_eq_false.
        done. }
    split; [by apply sublist_skip|]. split.
    { apply NoDup_cons. split; [|done]. rewrite Hin. intros [_ Hn]. apply Hn.
      subst s1. st_simpl. apply elem_of_app. right. by left. }
    intros a. rewrite !elem_of_cons, Hin. subst s1. st_simpl. split.
    + intros [->|[Ha Hn]]; [split; [by left|done]|]. split; [by right|].
      intros ?. apply Hn, elem_of_app. by left.
    + intros [[->|Ha] Hn]; [by left|].
      destruct (decide (a = alias)) as [->|Hne]; [by left|]. right. split; [done|].
      intros [?|?%list_elem_of_singleton]%elem_of_app; done.
Qed.

Lemma elem_of_firsts a l : a ∈ firsts l ↔ a ∈ l.
Proof.
  induction l as [|x l IH]; [done|]. cbn [firsts].
  rewrite !elem_of_cons, list_elem_of_filter, IH.
  destruct (decide (a = x)) as [->|Hne]; [split; by left|].
  split; [intros [?|[_ ?]]; [done|by right]|].
  intros [?|?]; [done|]. right. by split.
Qed.

Lemma NoDup_firsts l : NoDup (firsts l).
Proof.
  induction l as [|x l IH]; cbn [firsts]; [apply NoDup_nil_2|].
  apply NoDup_cons. split; [|by apply NoDup_filter].
  by intros [? _]%list_elem_of_filter.
Qed.

Lemma firsts_sublist l : firsts l `sublist_of` l.
Proof.
  induction l as [|x l IH]; cbn [firsts]; [done|].
  apply sublist_skip. etrans; [apply sublist_filter|done].
Qed.

(** The loop of [share] over aliases that are bound and sharable: each
    alias not staged yet is staged where it is first met. *)
Lemma share_loop_firsts (aliases : list string) s :
  Forall (λ a, isBound s a = true ∧ canShare s a = true) aliases →
  forEach aliases (λ alias,
    bound ← gets (λ s, isBound s alias);
    if negb bound then
      handleError (makeException ("No binding for " +:+ alias +:+ " available to share.") []);;
      mret tt
    else
      can ← gets (λ s, canShare s alias);
      if negb can then
        handleError (makeException (alias +:+ " is not sharable.") []);;
        mret tt
      else
        staged ← gets _shouldShare;
        when (negb (includes alias staged))
          (modify (λ s, set_shouldShare (_shouldShare s ++ [alias]) s))) s
  = Ok tt (set_shouldShare
             (_shouldShare s ++ filter (λ a, a ∉ _shouldShare s) (firsts aliases)) s).
Proof.
  revert s. induction aliases as [|alias aliases IH]; intros s Hall.
  { cbn [firsts forEach]. rewrite filter_nil, app_nil_r. by destruct s. }
  apply Forall_cons in Hall as [[Hb Hc] Hall].
  cbn [forEach firsts].
  destruct (includes alias (_shouldShare s)) eqn:Hinc.
  - erewrite mbind_ok; [rewrite (IH s Hall)|].
    2:{ erewrite mbind_ok by reflexivity. rewrite Hb. cbn [negb].
        erewrite mbind_ok by reflexivity. rewrite Hc. cbn [negb].
        erewrite mbind_ok by reflexivity. by rewrite Hinc. }
    apply bool_decide_eq_true in Hinc.
    assert (filter (λ a, a ∉ _shouldShare s)
              (alias :: filter (λ y, y ≠ alias) (firsts aliases))
            = filter (λ a, a ∉ _shouldShare s) (firsts aliases)) as ->; [|done].
    rewrite filter_cons, decide_False by (by intros ?).
    rewrite list_filter_filter.
    apply list_filter_iff. intros a. split; [by intros [? _]|].
    intros Ha. split; [done|]. by intros ->.
  - set (s1 := set_shouldShare (_shouldShare s ++ [alias]) s).
    apply bool_decide_eq_false in Hinc.
    assert (Forall (λ a, isBound s1 a = true ∧ canShare s1 a = true) aliases) as Hall1.
    { eapply Forall_impl; [exact Hall|]. by intros a [? ?]. }
    erewrite mbind_ok; [rewrite (IH s1 Hall1)|].
    + assert ((_shouldShare s ++ [alias])
                ++ filter (λ a, a ∉ _shouldShare s ++ [alias]) (firsts aliases)
              = _shouldShare s
                ++ filter (λ a, a ∉ _shouldShare s)
                     (alias :: filter (λ y, y ≠ alias) (firsts aliases))) as Heq.
      { rewrite filter_cons, decide_True by done.
        rewrite <- app_assoc. cbn [app]. rewrite list_filter_filter. do 2 f_equal.
        apply list_filter_iff. intros a. rewrite elem_of_app, list_elem_of_singleton.
        tauto. }
      subst s1. st_simpl. by rewrite Heq.
    + erewrite mbind_ok by reflexivity. rewrite Hb. cbn [negb].
      erewrite mbind_ok by reflexivity. rewrite Hc. cbn [negb].
      erewrite mbind_ok by reflexivity.
      assert (includes alias (_shouldShare s) = false) as ->
        by by apply bool_decide_eq_false.
      done.
Qed.

(** X12: [share] of aliases that are all bound and sharable stages each of
    them once, in the order in which they are first given, whatever was
    staged before, and changes nothing else. *)
Theorem X12_share_stages_each_alias_once (aliases : list string) s :
  Forall (λ a, isBound s a = true ∧ canShare s a = true) aliases →
  share aliases s = Ok tt (set_shouldShare (firsts aliases) s)
  ∧ NoDup (firsts aliases) ∧ firsts aliases `sublist_of` aliases
  ∧ ∀ a, a ∈ firsts aliases ↔ a ∈ aliases.
Proof.
  intros Hall. split; [|split; [apply NoDup_firsts|split; [apply firsts_sublist|]]].
  - unfold share. erewrite mbind_ok by reflexivity.
    rewrite share_loop_firsts.
    + st_simpl. cbn [app].
      assert (∀ l : list string, filter (λ a, a ∉ []) l = l) as ->; [|by destruct s].
      induction l as [|x l IHl]; [done|].
      rewrite filter_cons, decide_True by (by intros ?%elem_of_nil). by rewrite IHl.
    + eapply Forall_impl; [exact Hall|]. by intros a [? ?].
  - intros a. apply elem_of_firsts.
Qed.

(** The theorem at work on two bound aliases, one given twice. *)
Lemma X12_witness :
  let s := Examples.after (bind "Bar" (VFun 0) true)
             (Examples.after (bind "Foo" (VFun 0) true) Examples.fresh) in
  ∃ s', share ["Foo"; "Bar"; "Foo"] s = Ok tt s' ∧ _shouldShare s' = ["Foo"; "Bar"].
Proof.
  intros s.
  destruct (X12_share_stages_each_alias_once ["Foo"; "Bar"; "Foo"] s) as (Hrun & _).
  - repeat constructor.
  - eexists. split; [exact Hrun|]. reflexivity.
Defined.

Lemma forEach_app {A} (l1 l2 : list A) (f : A → M unit) s :
  forEach (l1 ++ l2) f s = (forEach l1 f;; forEach l2 f) s.
Proof.
  revert s. induction l1 as [|x l1 IH]; intros s; [done|].
  cbn [app forEach]. unfold mbind, M_bind. destruct (f x s) as [[] s1|e s1|]; [|done..].
  apply IH.
Qed.

(** X14: without a handler, [share] stops at the first alias that is not
    bound or not sharable and raises an exception whose name carries the
    message; the aliases given before it stay staged. *)
Theorem X14_share_stops_at_the_first_invalid_alias (good rest : list string) bad s :
  Forall (λ a, isBound s a = true ∧ canShare s a = true) good →
  isBound s bad && canShare s bad = false →
  _errorHandler s = None →
  ∃ staged,
    share (good ++ bad :: rest) s
    = Throw (makeException
               (if isBound s bad then bad +:+ " is not sharable."
                else "No binding for " +:+ bad +:+ " available to share.") [])
            (set_shouldShare staged s)
    ∧ ∀ a, a ∈ staged ↔ a ∈ good.
Proof.
  intros Hall Hbad Hh. unfold share. erewrite mbind_ok by reflexivity.
  destruct (share_loop good (set_shouldShare [] s)) as (extra & Hrun & Hsub & Hnd & Hin).
  { eapply Forall_impl; [exact Hall|]. by intros a [? ?]. }
  exists extra. split.
  - rewrite forEach_app. erewrite mbind_ok by exact Hrun. cbn [forEach].
    unfold mbind at 1, M_bind at 1.
    unfold mbind at 1, M_bind at 1, gets at 1. unfold isBound, canShare in *. st_simpl.
    destruct (_isset (prop (_bindings s) bad)); cbn [negb andb] in *.
    + unfold mbind at 1, M_bind at 1, gets at 1. st_simpl. rewrite Hbad. cbn [negb].
      unfold handleError, mbind, M_bind, gets. st_simpl. by rewrite Hh.
    + unfold handleError, mbind, M_bind, gets. st_simpl. by rewrite Hh.
  - intros a. rewrite Hin. st_simpl. split; [by intros [? _]|].
    intros ?. split; [done|]. by intros ?%elem_of_nil.
Qed.

(** The theorem at work: [Bar] is not bound. *)
Lemma X14_witness :
  let s := Examples.after (bind "Foo" (VFun 0) true) Examples.fresh in
  ∃ s', share ["Foo"; "Bar"; "Foo"] s
        = Throw (VError "Container No binding for Bar available to share." []) s'
        ∧ _shouldShare s' = ["Foo"].
Proof.
  intros s.
  destruct (X14_share_stops_at_the_first_invalid_alias ["Foo"] ["Foo"] "Bar" s)
    as (staged & Hrun & _).
  - repeat constructor.
  - reflexivity.
  - reflexivity.
  - eexists. split; [exact Hrun|]. vm_compute in Hrun. by injection Hrun as <-.
Defined.

(** [withOthers] runs [shareWith] for every staged alias and every object
    given. *)
Lemma withOthers_eq instances :
  withOthers instances
  = (staged ← gets _shouldShare;
     when (bool_decide (0 < length staged))
       (forEach staged (λ alias, forEach instances (shareWith alias));;
        log ("Shared " +:+ quoted (join ", " staged) +:+ " with "
             +:+ pretty (length instances) +:+ " Objects."));;
     modify (set_shouldShare [])).
Proof. reflexivity. Qed.

(** One object in the loop of [withOthers]. *)
Lemma withOthers_step alias object s :
  alias ≠ EmptyString →
  ∃ s',
    shareWith alias object s
    = Ok tt s'
    ∧ same_registrations s s' ∧ _shouldShare s' = _shouldShare s
    ∧ _logOutput s' = _logOutput s
    ∧ listed s' alias = (if decide (object ∈ listed s alias) then listed s alias
                         else listed s alias ++ [object])
    ∧ (∀ a, a ≠ alias → listed s' a = listed s a)
    ∧ (∀ o k, slot s' o k
              = if decide (o = object ∧ k = sharedName alias ∧ object ∉ listed s alias)
                then Some (Accessor alias) else slot s o k).
Proof.
  intros Hne. unfold shareWith. erewrite mbind_ok by reflexivity. unfold listed.
  destruct (_sharedWith s !! alias) as [l|] eqn:Hsw; cbn [default].
  - erewrite mbind_ok by reflexivity.
    destruct (decide (object ∈ l)) as [Hin|Hnin].
    + rewrite bool_decide_eq_true_2 by done. cbn [negb when].
      exists s. split; [done|]. split; [apply same_registrations_refl|].
      do 2 (split; [done|]). rewrite Hsw. cbn [default].
      split; [by rewrite decide_True|]. split; [done|].
      intros o k. rewrite decide_False; [done|]. by intros (_ & _ & ?).
    + rewrite bool_decide_eq_false_2 by done. cbn [negb when].
      erewrite mbind_ok by (by apply getSharedAliasName_run).
      erewrite mbind_ok by reflexivity.
      eexists. split; [reflexivity|]. split; [by repeat split|].
      do 2 (split; [done|]). st_simpl. rewrite lookup_insert_eq. cbn [default].
      split; [by rewrite decide_False|]. split.
      * intros a Ha. by rewrite lookup_insert_ne.
      * intros o k. unfold slot. st_simpl. rewrite lookup_insert.
        destruct (decide (object = o)) as [<-|Hno].
        -- cbn [default]. unfold id. rewrite lookup_insert.
           destruct (decide (sharedName alias = k)) as [<-|Hnk].
           ++ by rewrite decide_True.
           ++ rewrite decide_False; [done|]. by intros (_ & ? & _).
        -- rewrite decide_False; [done|]. by intros (? & _).
  - erewrite mbind_ok by reflexivity.
    rewrite bool_decide_eq_false_2 by (by intros ?%elem_of_nil). cbn [negb when].
    erewrite mbind_ok by (by apply getSharedAliasName_run).
    erewrite mbind_ok by reflexivity.
    eexists. split; [reflexivity|]. split; [by repeat split|].
    do 2 (split; [done|]). st_simpl. rewrite lookup_insert_eq.
    rewrite decide_False by (by intros ?%elem_of_nil). split; [done|]. split.
    + intros a Ha. rewrite lookup_insert_ne by done. by rewrite lookup_insert_ne.
    + intros o k. unfold slot. st_simpl. rewrite lookup_insert.
      destruct (decide (object = o)) as [<-|Hno].
      * cbn [default]. unfold id. rewrite lookup_insert.
        destruct (decide (sharedName alias = k)) as [<-|Hnk].
        -- rewrite decide_True; [done|]. split; [done|]. split; [done|].
           by intros ?%elem_of_nil.
        -- rewrite decide_False; [done|]. by intros (_ & ? & _).
      * rewrite decide_False; [done|]. by intros (? & _).
Qed.

Lemma withOthers_inner alias (instances : list nat) s :
  alias ≠ EmptyString →
  ∃ s', forEach instances (shareWith alias) s = Ok tt s'
    ∧ same_registrations s s' ∧ _shouldShare s' = _shouldShare s
    ∧ _logOutput s' = _logOutput s
    ∧ (∀ o, o ∈ listed s' alias ↔ o ∈ listed s alias ∨ o ∈ instances)
    ∧ (NoDup (listed s alias) → NoDup (listed s' alias))
    ∧ (∀ a, a ≠ alias → listed s' a = listed s a)
    ∧ (∀ o k, slot s' o k
              = if decide (k = sharedName alias ∧ o ∈ instances ∧ o ∉ listed s alias)
                then Some (Accessor alias) else slot s o k).
Proof.
  intros Hne. revert s. induction instances as [|object instances IH]; intros s.
  { exists s. split; [done|]. split; [apply same_registrations_refl|].
    do 2 (split; [done|]). split.
    { intros o. split; [by left|]. by intros [?|?%elem_of_nil]. }
    split; [done|]. split; [done|].
    intros o k. rewrite decide_False; [done|]. by intros (_ & ?%elem_of_nil & _). }
  destruct (withOthers_step alias object s Hne)
    as (s1 & Hrun & Hf1 & Hss1 & Hlog1 & Hl1 & Hoth1 & Hslot1).
  destruct (IH s1) as (s2 & Hloop & Hf2 & Hss2 & Hlog2 & Hl2 & Hnd2 & Hoth2 & Hslot2).
  assert (∀ o, o ∈ listed s1 alias ↔ o ∈ listed s alias ∨ o = object) as Hmem1.
  { intros o. rewrite Hl1. destruct (decide (object ∈ listed s alias)).
    - split; [by left|]. by intros [?| ->].
    - rewrite elem_of_app, list_elem_of_singleton. done. }
  exists s2. split.
  { cbn [forEach]. by erewrite mbind_ok by exact Hrun. }
  split; [by eapply same_registrations_trans|].
  split; [congruence|]. split; [congruence|]. split.
  { intros o. rewrite Hl2, Hmem1, elem_of_cons. tauto. }
  split.
  { intros Hnd. apply Hnd2. rewrite Hl1. destruct (decide (object ∈ listed s alias)); [done|].
    apply NoDup_app. split; [done|]. split; [|apply NoDup_singleton].
    by intros x Hx ->%list_elem_of_singleton. }
  split.
  { intros a Ha. by rewrite Hoth2, Hoth1. }
  intros o k. rewrite Hslot2, Hslot1.
  assert ((k = sharedName alias ∧ o ∈ object :: instances ∧ o ∉ listed s alias)
          ↔ (k = sharedName alias ∧ o ∈ instances ∧ o ∉ listed s1 alias)
            ∨ (o = object ∧ k = sharedName alias ∧ object ∉ listed s alias)) as Hiff.
  { rewrite Hmem1, elem_of_cons. split.
    - intros (? & [->|?] & ?); [by right|].
      destruct (decide (o = object)) as [->|?]; [by right|]. left. tauto.
    - intros [(? & ? & ?)|(-> & ? & ?)]; tauto. }
  destruct (decide (k = sharedName alias ∧ o ∈ instances ∧ o ∉ listed s1 alias));
    destruct (decide (o = object ∧ k = sharedName alias ∧ object ∉ listed s alias));
    destruct (decide (k = sharedName alias ∧ o ∈ object :: instances ∧ o ∉ listed s alias));
    try done; exfalso; tauto.
Qed.

Lemma withOthers_outer (instances : list nat) s (todo : list string) :
  Forall (λ a, a ≠ EmptyString) todo →
  ∀ done s1, shared_so_far instances s done s1 →
  ∃ s2, forEach todo (λ alias, forEach instances (shareWith alias)) s1 = Ok tt s2
        ∧ shared_so_far instances s (done ++ todo) s2.
Proof.
  induction 1 as [|a0 todo Hne Htodo IH]; intros done s1 HJ.
  { exists s1. by rewrite app_nil_r. }
  destruct HJ as (Hf & Hss & Hlog & HA & HB & HC & HD & HE & HN).
  destruct (withOthers_inner a0 instances s1 Hne)
    as (s2 & Hrun & Hf2 & Hss2 & Hlog2 & Hmem2 & Hnd2 & Hoth2 & Hslot2).
  destruct (IH (done ++ [a0]) s2) as (s3 & Hloop & HJ3).
  2:{ exists s3. split.
      - cbn [forEach]. by erewrite mbind_ok by exact Hrun.
      - by rewrite <- app_assoc in HJ3. }
  split; [by eapply same_registrations_trans|].
  split; [congruence|]. split; [congruence|]. split.
  { intros a o [Ha| ->%list_elem_of_singleton]%elem_of_app Ho.
    - destruct (decide (a = a0)) as [->|Hna].
      + apply Hmem2. by right.
      + rewrite Hoth2 by done. by apply HA.
    - apply Hmem2. by right. }
  split.
  { intros a o Ho. destruct (decide (a = a0)) as [->|Hna].
    - apply Hmem2. left. by apply HB.
    - rewrite Hoth2 by done. by apply HB. }
  split.
  { intros a Ha. rewrite Hoth2, HC; [done| |].
    - intros ?. apply Ha, elem_of_app. by left.
    - intros ->. apply Ha, elem_of_app. right. by left. }
  split.
  { intros a o Ho Hno. rewrite Hslot2.
    destruct (decide (a = a0)) as [->|Hna].
    - apply Hmem2 in Ho as [Ho|Ho].
      + destruct (HD a0 o Ho Hno) as (a' & Ha' & Hk & Hs).
        exists a'. split; [apply elem_of_app; by left|]. split; [done|].
        rewrite decide_False; [done|]. by intros (_ & _ & ?).
      + destruct (decide (o ∈ listed s1 a0)) as [Hin|Hnin].
        * destruct (HD a0 o Hin Hno) as (a' & Ha' & Hk & Hs).
          exists a'. split; [apply elem_of_app; by left|]. split; [done|].
          rewrite decide_False; [done|]. by intros (_ & _ & ?).
        * exists a0. split; [apply elem_of_app; right; by left|]. split; [done|].
          by rewrite decide_True.
    - rewrite Hoth2 in Ho by done.
      destruct (HD a o Ho Hno) as (a' & Ha' & Hk & Hs).
      destruct (decide (sharedName a = sharedName a0 ∧ o ∈ instances ∧ o ∉ listed s1 a0))
        as [(Hk0 & _ & _)|Hnot].
      + exists a0. split; [apply elem_of_app; right; by left|]. done.
      + exists a'. split; [apply elem_of_app; by left|]. done. }
  split.
  { intros o k Hk. rewrite Hslot2, decide_False.
    - apply HE. intros a Ha. apply Hk, elem_of_app. by left.
    - intros (-> & _). apply (Hk a0); [|done]. apply elem_of_app. right. by left. }
  intros a Hnd. destruct (decide (a = a0)) as [->|Hna].
  - by apply Hnd2, HN.
  - rewrite Hoth2 by done. by apply HN.
Qed.

(** X15: [withOthers] shares every staged alias with every object given:
    the object is recorded for the alias (once), and an object that was not
    recorded before gets, under the shared name of the alias, an accessor
    that makes a staged alias of that shared name.  Objects recorded before
    stay recorded, aliases that are not staged keep their objects,
    properties under other names are untouched, the staging area is
    emptied, and the registrations of the container are left alone. *)
Theorem X15_withOthers_installs_the_accessors (instances : list nat) s :
  Forall (λ a, a ≠ EmptyString) (_shouldShare s) →
  ∃ s', withOthers instances s = Ok tt s'
    ∧ _shouldShare s' = [] ∧ same_registrations s s'
    ∧ (∀ a o, a ∈ _shouldShare s → o ∈ instances → o ∈ listed s' a)
    ∧ (∀ a o, a ∈ _shouldShare s → o ∈ instances → o ∉ listed s a →
         ∃ a', a' ∈ _shouldShare s ∧ sharedName a' = sharedName a
               ∧ slot s' o (sharedName a) = Some (Accessor a'))
    ∧ (∀ a o, o ∈ listed s a → o ∈ listed s' a)
    ∧ (∀ a, a ∉ _shouldShare s → listed s' a = listed s a)
    ∧ (∀ o k, (∀ a, a ∈ _shouldShare s → k ≠ sharedName a) → slot s' o k = slot s o k)
    ∧ (∀ a, NoDup (listed s a) → NoDup (listed s' a)).
Proof.
  intros Hne. rewrite withOthers_eq. erewrite mbind_ok by reflexivity.
  destruct (withOthers_outer instances s (_shouldShare s) Hne [] s)
    as (s1 & Hloop & HJ).
  { split; [apply same_registrations_refl|]. do 2 (split; [done|]).
    split; [by intros a o ?%elem_of_nil|]. split; [done|]. split; [done|].
    split; [done|]. split; [done|]. done. }
  cbn [app] in HJ.
  destruct HJ as (Hf & Hss & Hlog & HA & HB & HC & HD & HE & HN).
  assert (∀ (s2 : State),
            same_registrations s1 s2 → _sharedWith s2 = _sharedWith s1 →
            w_props s2 = w_props s1 →
            ∃ s', Ok tt (set_shouldShare [] s2) = Ok tt s'
              ∧ _shouldShare s' = [] ∧ same_registrations s s'
              ∧ (∀ a o, a ∈ _shouldShare s → o ∈ instances → o ∈ listed s' a)
              ∧ (∀ a o, a ∈ _shouldShare s → o ∈ instances → o ∉ listed s a →
                   ∃ a', a' ∈ _shouldShare s ∧ sharedName a' = sharedName a
                         ∧ slot s' o (sharedName a) = Some (Accessor a'))
              ∧ (∀ a o, o ∈ listed s a → o ∈ listed s' a)
              ∧ (∀ a, a ∉ _shouldShare s → listed s' a = listed s a)
              ∧ (∀ o k, (∀ a, a ∈ _shouldShare s → k ≠ sharedName a) →
                   slot s' o k = slot s o k)
              ∧ (∀ a, NoDup (listed s a) → NoDup (listed s' a))) as Hend.
  { intros s2 Hf2 Hsw2 Hp2. eexists. split; [reflexivity|]. split; [done|].
    split.
    { pose proof (same_registrations_trans _ _ _ Hf Hf2) as (?&?&?&?&?&?&?&?&?&?).
      by repeat split. }
    unfold listed, slot in *. st_simpl. rewrite Hsw2, Hp2.
    split; [done|]. split; [|done].
    intros a o Ha Ho Hno. apply HD; [|done]. by apply HA. }
  destruct (bool_decide (0 < length (_shouldShare s))) eqn:Hlen; cbn [when].
  - erewrite mbind_ok.
    2:{ erewrite mbind_ok by exact Hloop. reflexivity. }
    apply Hend; [by repeat split|done|done].
  - apply bool_decide_eq_false in Hlen.
    destruct (_shouldShare s) eqn:Hstaged; [|simpl in Hlen; lia].
    cbn [forEach] in Hloop. injection Hloop as <-.
    erewrite mbind_ok by reflexivity. apply Hend; [by repeat split|done|done].
Qed.

(** The theorem at work: [Foo] is staged and shared with the objects 5 and
    6, the first being given twice. *)
Lemma X15_witness :
  let s := Examples.after (share ["Foo"])
             (Examples.after (bind "Foo" (VFun 0) true) Examples.fresh) in
  ∃ s', withOthers [5; 6; 5] s = Ok tt s'
        ∧ _shouldShare s' = []
        ∧ 5 ∈ listed s' "Foo" ∧ 6 ∈ listed s' "Foo" ∧ NoDup (listed s' "Foo")
        ∧ slot s' 5 "$foo" = Some (Accessor "Foo").
Proof.
  intros s.
  destruct (X15_withOthers_installs_the_accessors [5; 6; 5] s)
    as (s' & Hrun & Hss & _ & Hin & Hacc & _ & _ & _ & Hnd).
  { repeat constructor; done. }
  assert ("Foo" ∈ _shouldShare s) as Hfoo by (vm_compute; left).
  exists s'. split; [exact Hrun|]. split; [exact Hss|].
  split; [apply Hin; [done|left]|].
  split; [apply Hin; [done|right; left]|].
  split; [apply Hnd; vm_compute; apply NoDup_nil_2|].
  destruct (Hacc "Foo" 5 Hfoo) as (a' & Ha' & _ & Hslot).
  - left.
  - vm_compute. by intros ?%elem_of_nil.
  - vm_compute in Ha'. apply list_elem_of_singleton in Ha'. by subst a'.
Defined.

(** The theorem at work: [Foo] was shared with the object 5. *)
Lemma X13_witness :
  let s := Examples.after (withOthers [5])
             (Examples.after (share ["Foo"])
                (Examples.after (bind "Foo" (VFun 0) true) Examples.fresh)) in
  isShared s "Foo" = true ∧ slot s 5 "$foo" = Some (Accessor "Foo")
  ∧ ∃ s', unShare "Foo" s = Ok tt s'
          ∧ isShared s' "Foo" = false ∧ slot s' 5 "$foo" = None.
Proof.
  intros s. split; [reflexivity|]. split; [reflexivity|].
  destruct (X13_unShare_removes_the_accessors "Foo" s)
    as (s' & Hrun & Hsh & _ & _ & Hkey & _); [done|].
  exists s'. split; [exact Hrun|]. split; [exact Hsh|].
  destruct (slot s' 5 "$foo") as [v|] eqn:Hv; [|done].
  destruct (Hkey 5 v) as [Hfalsy Hwas].
  - vm_compute. left.
  - exact Hv.
  - vm_compute in Hwas. injection Hwas as <-. discriminate Hfalsy.
Defined.

(** ** Registering providers *)

Lemma assoc_set_eq {V} key (v : V) l : assoc key (assoc_set key v l) = Some v.
Proof.
  induction l as [|[k v'] l IH]; simpl.
  - by rewrite decide_True.
  - destruct (decide (k = key)) as [->|Hne]; simpl.
    + by rewrite decide_True.
    + by rewrite decide_False.
Qed.

Lemma assoc_set_ne {V} key key' (v : V) l :
  key ≠ key' → assoc key' (assoc_set key v l) = assoc key' l.
Proof.
  intros Hne. induction l as [|[k v'] l IH]; simpl.
  - by rewrite decide_False.
  - destruct (decide (k = key)) as [->|Hnk]; simpl.
    + by rewrite !decide_False.
    + destruct (decide (k = key')); [done|]. exact IH.
Qed.

Lemma assoc_set_keys {V} key (v : V) l :
  (assoc_set key v l).*1
  = if bool_decide (is_Some (assoc key l)) then l.*1 else l.*1 ++ [key].
Proof.
  induction l as [|[k v'] l IH]; [done|]. cbn [assoc_set assoc].
  destruct (decide (k = key)) as [->|Hnk]; cbn [fmap list_fmap fst].
  - by rewrite bool_decide_eq_true_2 by eauto.
  - rewrite IH. by destruct (bool_decide (is_Some (assoc key l))).
Qed.

(** X16: a registered provider is found under the name of its class; a
    provider registered under a name already in use takes the place of
    the earlier one, where that one stood in the order of registration,
    and a new name goes last; the other providers are untouched. *)
Theorem X16_register_then_getProvider P s :
  ∃ s', register P s = Ok tt s'
    ∧ getProvider s' (providerName P) = Some P
    ∧ isRegistered s' (providerName P) = true
    ∧ (∀ name, name ≠ providerName P → getProvider s' name = getProvider s name)
    ∧ (_providers s').*1
      = (if isRegistered s (providerName P) then (_providers s).*1
         else (_providers s).*1 ++ [providerName P])
    ∧ _bindings s' = _bindings s ∧ _resolved s' = _resolved s.
Proof.
  eexists. split; [reflexivity|]. unfold getProvider, isRegistered, getProvider. st_simpl.
  rewrite assoc_set_eq. split; [done|]. split; [by apply bool_decide_eq_true_2|].
  split; [intros name Hne; by apply assoc_set_ne|]. split; [apply assoc_set_keys|done].
Qed.

(** X26: two aliases that differ in the case of their first letter have
    one shared name.  When both are staged and shared with an object, the
    accessor of the second takes the place of the accessor of the first;
    [unShare] of the first then takes that accessor off the object, which
    is still recorded as an object the second alias is shared with. *)
Theorem X26_aliases_with_one_shared_name_collide a b (o : nat) s :
  a ≠ b → a ≠ EmptyString → b ≠ EmptyString → sharedName a = sharedName b →
  _shouldShare s = [a; b] → o ∉ listed s a → o ∉ listed s b →
  ∃ s1 s2, withOthers [o] s = Ok tt s1
    ∧ slot s1 o (sharedName a) = Some (Accessor b)
    ∧ unShare a s1 = Ok tt s2
    ∧ slot s2 o (sharedName b) = None
    ∧ o ∈ listed s2 b ∧ isShared s2 b = true.
Proof.
  intros Hab Ha Hb Hname Hstaged Hoa Hob.
  destruct (withOthers_inner a [o] s Ha)
    as (sA & HrunA & HfA & HssA & HlogA & HmemA & _ & HothA & HslotA).
  destruct (withOthers_inner b [o] sA Hb)
    as (sB & HrunB & HfB & HssB & HlogB & HmemB & _ & HothB & HslotB).
  assert (slot sB o (sharedName a) = Some (Accessor b)) as HslotB'.
  { rewrite HslotB, decide_True; [done|]. split; [done|]. split; [left|].
    by rewrite HothA. }
  assert (∃ l, withOthers [o] s = Ok tt (set_shouldShare [] (set_logOutput l sB)))
    as [l Hrun].
  { rewrite withOthers_eq. erewrite mbind_ok by reflexivity. rewrite Hstaged.
    cbn [length]. rewrite bool_decide_eq_true_2 by lia. cbn [when forEach].
    erewrite mbind_ok.
    2:{ erewrite mbind_ok; [reflexivity|].
        erewrite mbind_ok by exact HrunA. erewrite mbind_ok by exact HrunB. reflexivity. }
    eexists. reflexivity. }
  set (s1 := set_shouldShare [] (set_logOutput l sB)) in *.
  destruct (unShare_run a s1 Ha) as (s2 & Hun & Hf2 & _ & Hsw2 & Hoth2 & Hkey2).
  exists s1, s2. split; [done|]. split; [done|]. split; [done|].
  assert (o ∈ listed sB a) as HinA.
  { rewrite HothB by done. apply HmemA. right. left. }
  assert (o ∈ listed sB b) as HinB by (apply HmemB; right; left).
  assert (listed s2 b = listed sB b) as Hl2.
  { unfold listed. rewrite Hsw2, lookup_delete_ne by done. done. }
  split.
  - rewrite <- Hname. destruct (slot s2 o (sharedName a)) as [v|] eqn:Hv; [|done].
    destruct (Hkey2 o v HinA Hv) as [Hfalsy Hwas].
    change (slot s1 o (sharedName a)) with (slot sB o (sharedName a)) in Hwas.
    rewrite HslotB' in Hwas. injection Hwas as <-. discriminate Hfalsy.
  - rewrite isShared_listed, Hl2. split; [done|].
    apply bool_decide_eq_true_2. destruct (listed sB b); [by apply elem_of_nil in HinB|].
    simpl. lia.
Qed.

(** The theorem at work on [Foo] and [foo]. *)
Lemma X26_witness :
  let s := Examples.after (share ["Foo"; "foo"])
             (Examples.after (bind "foo" (VFun 0) true)
                (Examples.after (bind "Foo" (VFun 0) true) Examples.fresh)) in
  ∃ s1 s2, withOthers [5] s = Ok tt s1
    ∧ slot s1 5 "$foo" = Some (Accessor "foo")
    ∧ unShare "Foo" s1 = Ok tt s2
    ∧ slot s2 5 "$foo" = None ∧ isShared s2 "foo" = true.
Proof.
  intros s.
  destruct (X26_aliases_with_one_shared_name_collide "Foo" "foo" 5 s)
    as (s1 & s2 & Hrun & Hslot & Hun & Hnone & _ & Hshared); try done.
  - vm_compute. by intros ?%elem_of_nil.
  - vm_compute. by intros ?%elem_of_nil.
  - by exists s1, s2.
Defined.

(** ** Instantiating again *)




(** ** Setting an instance *)

(** X18: an instance that is set with [setInstance] (shared, and neither
    [null] nor [undefined]) is what [make] returns from then on, whether or
    not the alias is bound; no binding is run. *)
Theorem X18_setInstance_then_make fuel alias concrete s :
  _isset concrete = true →
  returns (setInstance alias concrete true;; make (S fuel) alias) s
    (λ v s', v = concrete ∧ w_events s' = w_events s ∧ w_next s' = w_next s).
Proof.
  intros Hset. unfold returns. apply wp_bind. unfold wp at 1. rewrite setInstance_run.
  set (s1 := instance_state alias concrete true s).
  assert (prop (_resolved s1) alias = concrete) as Hres.
  { subst s1. unfold instance_state, prop. destruct (_ && _); st_simpl;
      by rewrite lookup_insert_eq. }
  assert (canShare s1 alias = true) as Hcan.
  { subst s1. unfold instance_state, canShare, includes. cbn [andb].
    destruct (bool_decide (alias ∈ _sharable s)) eqn:Hin; cbn [negb]; st_simpl; [done|].
    apply bool_decide_eq_true, elem_of_app. right. by left. }
  eapply wp_mono; [apply (make_cached fuel alias s1)| |done|done].
  - done.
  - unfold isResolved. by rewrite Hres.
  - intros v s' (-> & He & Hn & Hr). rewrite Hres. split; [done|].
    rewrite He, Hn. subst s1. unfold instance_state.
    unfold make, log in *. by destruct (_ && _).
Qed.

(** The theorem at work on an alias that was never bound. *)
Lemma X18_witness :
  returns (setInstance "Clock" (VNum 12) true;; make 1 "Clock") Examples.fresh
    (λ v s', v = VNum 12 ∧ w_events s' = []).
Proof.
  eapply wp_mono;
    [apply (X18_setInstance_then_make 0 "Clock" (VNum 12) Examples.fresh); reflexivity
    | |done|done].
  by intros v s' (-> & -> & _).
Defined.



(** ** How a binding is called *)








(** ** More on providers *)

Lemma binds_bindings (regs : list (string * value * bool)) s :
  returns (forEach regs (λ '(alias, binding, shared), bind alias binding shared)) s
    (λ _ s', _bindings s' = bind_all regs (_bindings s)
             ∧ _providers s' = _providers s ∧ _resolved s' = _resolved s
             ∧ w_events s' = w_events s).
Proof.
  unfold returns. revert s. induction regs as [|[[alias binding] shared] regs IH]; intros s.
  { by apply wp_ret. }
  cbn [forEach]. apply wp_bind. unfold wp at 1. rewrite bind_run.
  eapply wp_mono; [apply IH| |done|done].
  intros _ s' (Hb & Hp & Hr & He). rewrite Hb, Hp, Hr, He.
  unfold bound_state. by destruct (_ && _).
Qed.

Lemma bind_all_app regs1 regs2 m :
  bind_all (regs1 ++ regs2) m = bind_all regs2 (bind_all regs1 m).
Proof. unfold bind_all. by rewrite foldl_app. Qed.

Lemma register_loop_bindings (l : list (string * ServiceProvider)) s :
  (∀ e, e ∈ l → assoc e.1 (_providers s) = Some e.2) →
  returns
    (forEach l.*1 (λ name,
       log ("Calling " +:+ quoted name +:+ " Registration...");;
       p ← provider_at name;
       provider_register p)) s
    (λ _ s', _providers s' = _providers s ∧ _resolved s' = _resolved s
             ∧ _bindings s' = bind_all (mjoin (sp_register <$> l.*2)) (_bindings s)).
Proof.
  revert s. induction l as [|[k p] l IH]; intros s Hl; unfold returns in *.
  { by apply wp_ret. }
  cbn [fmap list_fmap forEach fst snd mjoin list_join]. unfold log at 1.
  apply wp_bind, wp_bind, wp_modify, wp_bind.
  unfold wp at 1. rewrite (provider_at_run k p); [|apply (Hl (k, p)); by left].
  unfold provider_register. apply wp_bind, wp_modify.
  eapply wp_mono; [apply binds_bindings| |done|done].
  intros _ s1 (Hb1 & Hp1 & Hr1 & _). st_simpl.
  eapply wp_mono; [apply IH| |done|done].
  - intros e He. rewrite Hp1. apply Hl. by right.
  - intros _ s2 (Hp2 & Hr2 & Hb2). split; [congruence|]. split; [congruence|].
    by rewrite bind_all_app, Hb2, Hb1.
Qed.

Lemma boot_loop_frame (l : list (string * ServiceProvider)) s :
  (∀ e, e ∈ l → assoc e.1 (_providers s) = Some e.2) →
  returns
    (forEach l.*1 (λ name,
       providerInstance ← provider_at name;
       when (negb (sp_isDeferred providerInstance)) (_bootProvider providerInstance))) s
    (λ _ s', _providers s' = _providers s ∧ _resolved s' = _resolved s
             ∧ _bindings s' = _bindings s).
Proof.
  revert s. induction l as [|[k p] l IH]; intros s Hl; unfold returns in *.
  { by apply wp_ret. }
  cbn [fmap list_fmap forEach fst snd]. apply wp_bind, wp_bind.
  unfold wp at 1. rewrite (provider_at_run k p); [|apply (Hl (k, p)); by left].
  unfold _bootProvider, provider_load, log.
  destruct (sp_isDeferred p) eqn:Hd; cbn [negb when].
  - apply wp_ret. apply IH. intros e He. apply Hl. by right.
  - apply wp_bind, wp_modify, wp_modify.
    eapply wp_mono; [apply IH| |done|done].
    + intros e He. st_simpl. apply Hl. by right.
    + intros _ s2 (Hp2 & Hr2 & Hb2). by st_simpl.
Qed.

(** X24: [bootProviders] makes the [bind] calls of every registered
    provider, deferred or not, in the order of registration: a binding
    registered by a later provider replaces one registered for the same
    alias by an earlier provider.  No instance is made or removed. *)
Theorem X24_bootProviders_registers_every_binding s :
  NoDup (_providers s).*1 →
  returns bootProviders s
    (λ _ s', _bindings s' = bind_all (registrations s) (_bindings s)
             ∧ _resolved s' = _resolved s ∧ _providers s' = _providers s).
Proof.
  intros Hnd. unfold returns, bootProviders. apply wp_bind, wp_gets, wp_bind.
  assert (∀ s1, _providers s1 = _providers s →
            ∀ e, e ∈ _providers s → assoc e.1 (_providers s1) = Some e.2) as Hassoc.
  { intros s1 -> [k v] He. by apply assoc_NoDup. }
  eapply wp_mono; [apply register_loop_bindings; by apply Hassoc| |done|done].
  intros _ s1 (Hp1 & Hr1 & Hb1).
  eapply wp_mono; [apply boot_loop_frame; by apply Hassoc| |done|done].
  intros _ s2 (Hp2 & Hr2 & Hb2). unfold registrations.
  split; [congruence|]. split; congruence.
Qed.

(** The theorem at work on the deferred provider of [X] and [Y]. *)
Lemma X24_witness :
  let s := Examples.after (register Examples.DeferredProvider) Examples.fresh in
  ∃ s', bootProviders s = Ok tt s'
        ∧ prop (_bindings s') "X" = VNum 1 ∧ prop (_bindings s') "Y" = VNum 2.
Proof.
  intros s.
  assert (NoDup (_providers s).*1) as Hnd by (vm_compute; apply NoDup_singleton).
  assert (∃ s', bootProviders s = Ok tt s') as [s' Hrun]
    by (eexists; vm_compute; reflexivity).
  pose proof (returns_ok _ _ _ _ _ Hrun
                (X24_bootProviders_registers_every_binding s Hnd)) as H.
  cbv beta in H. destruct H as (Hb & _ & _).
  exists s'. split; [exact Hrun|]. rewrite Hb. split; vm_compute; reflexivity.
Defined.

(** ** The handler and aliases that are not bound *)

(** X25: for an alias that is not bound, what the handler returns is what
    [make] returns, and it is not stored, even for a sharable alias: the
    handler is called again by the next [make]. *)
Theorem X25_the_answer_for_an_unbound_alias_is_not_cached fuel s alias h hid v k :
  isBound s alias = false →
  isResolved s alias && canShare s alias = false →
  _errorHandler s = Some h → eh_handle h = VFun hid →
  (∀ e n, fn_body (w_funs s hid) (VObj (eh_ref h)) [e] n = (Normal v, k)) →
  returns (make (S fuel) alias;; make (S fuel) alias) s
    (λ r s', r = v ∧ _resolved s' = _resolved s ∧ _bindings s' = _bindings s
             ∧ invocations (w_events s')
               = invocations (w_events s)
                 ++ [EvInvoke hid [makeException "Binding Exception"
                                     ["No Binding found for " +:+ quoted alias +:+ "."]];
                     EvInvoke hid [makeException "Binding Exception"
                                     ["No Binding found for " +:+ quoted alias +:+ "."]]]).
Proof.
  intros Hb Hunc Hh Hhandle Hbody.
  set (missing := makeException "Binding Exception"
                    ["No Binding found for " +:+ quoted alias +:+ "."]).
  assert (∀ s1, _bindings s1 = _bindings s → _resolved s1 = _resolved s →
            _sharable s1 = _sharable s → w_funs s1 = w_funs s →
            _errorHandler s1 = _errorHandler s →
            returns (make (S fuel) alias) s1
              (λ r s2, r = v ∧ _bindings s2 = _bindings s1 ∧ _resolved s2 = _resolved s1
                       ∧ _sharable s2 = _sharable s1 ∧ w_funs s2 = w_funs s1
                       ∧ _errorHandler s2 = _errorHandler s1
                       ∧ invocations (w_events s2)
                         = invocations (w_events s1) ++ [EvInvoke hid [missing]])) as Hmake.
  { intros s1 Hb1 Hr1 Hl1 Hf1 Hh1.
    unfold returns, make, log. apply wp_bind, wp_modify. cbn [_resolve].
    apply wp_bind, wp_gets. unfold isResolved, canShare, isBound in *. st_simpl.
    rewrite Hr1, Hl1, Hunc. cbn [andb negb when].
    apply wp_bind, wp_ret, wp_bind, wp_gets. st_simpl. rewrite Hb1, Hb. cbn [negb].
    unfold handleError. apply wp_bind, wp_gets. st_simpl. rewrite Hh1, Hh, Hhandle.
    unfold wp, invoke. st_simpl. rewrite Hf1, Hbody. st_simpl.
    do 6 (split; [congruence|]). rewrite invocations_snoc. done. }
  unfold returns in *. apply wp_bind.
  eapply wp_mono; [by apply Hmake| |done|done].
  intros _ s1 (_ & Hb1 & Hr1 & Hl1 & Hf1 & Hh1 & Hinv1). cbv beta.
  eapply wp_mono; [by apply Hmake| |done|done].
  intros r s2 (-> & Hb2 & Hr2 & _ & _ & _ & Hinv2).
  split; [done|]. split; [congruence|]. split; [congruence|].
  rewrite Hinv2, Hinv1, <- app_assoc. done.
Qed.

(** The theorem at work: no alias is bound, and the handler answers with a
    text. *)
Lemma X25_witness :
  let s := Examples.after (errorHandler Samples.handler) Samples.fresh in
  ∃ s', (make 1 "Mailer";; make 1 "Mailer") s = Ok (VStr "fallback") s'
        ∧ _resolved s' = _resolved s
        ∧ length (invocations (w_events s')) = 2.
Proof.
  intros s.
  assert (∃ r s', (make 1 "Mailer";; make 1 "Mailer") s = Ok r s') as (r & s' & Hrun)
    by (eexists _, _; vm_compute; reflexivity).
  pose proof (returns_ok _ _ _ _ _ Hrun
                (X25_the_answer_for_an_unbound_alias_is_not_cached
                   0 s "Mailer" Samples.handler 10 (VStr "fallback") 0
                   ltac:(vm_compute; reflexivity) ltac:(vm_compute; reflexivity)
                   ltac:(vm_compute; reflexivity) ltac:(vm_compute; reflexivity)
                   ltac:(intros; vm_compute; reflexivity))) as H.
  cbv beta in H. destruct H as (-> & Hr & _ & Hinv).
  exists s'. split; [exact Hrun|]. split; [exact Hr|]. by rewrite Hinv.
Defined.

(** ** The aliases marked sharable *)

(** X23: no alias is listed twice among the aliases marked sharable: this
    holds of a new container and is kept by every public call, however it
    ends. *)
Theorem X23_no_alias_is_marked_sharable_twice :
  (∀ funs objname, NoDup (_sharable (constructor funs objname)))
  ∧ (∀ fuel c s,
       NoDup (_sharable s) →
       wp (call fuel c) s (λ _ s', NoDup (_sharable s')) (λ _ s', NoDup (_sharable s'))
         (fuel < need s)).
Proof. exact sharable_NoDup_kept. Qed.

(** The theorem at work on an alias bound twice. *)
Lemma X23_witness :
  let s := Examples.after (bind "Foo" (VFun 0) true) Examples.fresh in
  ∃ s', call 0 (CBind "Foo" (VFun 1) true) s = Ok tt s' ∧ NoDup (_sharable s').
Proof.
  intros s.
  assert (∃ s', call 0 (CBind "Foo" (VFun 1) true) s = Ok tt s') as [s' Hrun]
    by (eexists; vm_compute; reflexivity).
  assert (NoDup (_sharable s)) as Hnd by (vm_compute; apply NoDup_singleton).
  pose proof (wp_ok _ _ _ _ _ _ _ Hrun
                (proj2 X23_no_alias_is_marked_sharable_twice 0 _ s Hnd)) as H.
  exists s'. split; [exact Hrun|exact H].
Defined.
